(** * Fill your basket: the coin game and its adversarial solver

    A verification development for [app.js].  Two programs live in that
    file: the single-page game with the "perfect AI" placer (the solver
    [canForceWinGivenOffer] / [aiChooseCoinForOffer], with its global
    [memo] map), and the multiplayer variant, whose two moves are
    transactions on a shared room record.

    The solver is modelled twice.  On values, with the cache threaded
    through the calls: this is the model the contract of the solver is
    proved on.  And on a store of arrays and objects, with every
    allocation and every write of the source spelled out: this is the
    model that shows what the solver leaves untouched; it is proved to
    compute what the model on values computes.

    Numbers are JavaScript numbers that only ever hold integers here
    (basket sums, coin values, the turn counter), so they are modelled as
    [Z]; the one exception is the result of [Math.max()] on no arguments,
    which is [-Infinity].  Arrays are lists. *)

From stdpp Require Import gmap strings pretty list fin_maps sorting.
From Stdlib Require Import ZArith Lia Ascii.
Local Open Scope Z_scope.

(* ===================================================================== *)
(** * Part I: definitions                                                 *)
(* ===================================================================== *)

(** ** Numbers and the terminal evaluation *)

Inductive num := Num (z : Z) | NegInfinity.

Global Instance num_eq_dec : EqDecision num.
Proof. solve_decision. Defined.

(** The comparator [(a,b) => b-a]: [a] comes before [b] when [b <= a]. *)
Definition desc (a b : Z) : Prop := b ≤ a.

Global Instance desc_dec : RelDecision desc := λ a b, Z_le_dec b a.

Global Instance desc_trans : Transitive desc.
Proof. unfold desc. intros x y z ??. lia. Qed.

Global Instance desc_total : Total desc.
Proof. unfold desc. intros x y. lia. Qed.

Global Instance desc_antisymm : AntiSymm (=) desc.
Proof. unfold desc. intros x y ??. lia. Qed.

(** [arr.slice().sort((a,b)=>b-a)] on an array of integers. *)
Definition sortDesc (arr : list Z) : list Z := merge_sort desc arr.

(** [s1 > s2] where either side may be [undefined] (an index past the end
    of the array): every comparison with [undefined] is false. *)
Definition jsGt (s1 s2 : option Z) : bool :=
  match s1, s2 with
  | Some a, Some b => bool_decide (b < a)
  | _, _ => false
  end.

(** The test the solver repeats inline three times:
    [sorted = sums.slice().sort(..); s1 = sorted[0]; s2 = sorted[1]; s1 > s2]. *)
Definition uniqueTop (sumsArr : list Z) : bool :=
  let sorted := sortDesc sumsArr in
  jsGt (sorted !! 0%nat) (sorted !! 1%nat).

Inductive role := Placer | Presenter.

Global Instance role_eq_dec : EqDecision role.
Proof. solve_decision. Defined.

(** What [endGame] writes into the result banner. *)
Record verdict := Verdict {
  winner : role;
  topSum : option Z;
  secondSum : option Z;
}.

Definition endGameVerdict (sumsArr : list Z) : verdict :=
  let sorted := sortDesc sumsArr in
  let s1 := sorted !! 0%nat in
  let s2 := sorted !! 1%nat in
  {| winner := if jsGt s1 s2 then Placer else Presenter;
     topSum := s1;
     secondSum := s2 |}.

(** ** The memoization key *)

(** A 32-bit signed integer from its low 32 bits. *)
Definition wrap32 (x : Z) : Z := (x + 2 ^ 31) `mod` 2 ^ 32 - 2 ^ 31.

(** [1 << (c-1)]: the shift count is taken modulo 32 and the result is a
    signed 32-bit integer, so coin 32 gives [-2^31] and coin 33 gives 1. *)
Definition coinBit (c : Z) : Z := wrap32 (Z.shiftl 1 ((c - 1) `mod` 32)).

(** [let mask = 0; for (const c of remainingArr) mask |= 1 << (c-1)]. *)
Definition maskOf (remainingArr : list Z) : Z :=
  foldl (λ mask c, Z.lor mask (coinBit c)) 0 remainingArr.

(** [`${arr[i]}`]: an absent element prints as [undefined]. *)
Definition showAt (arr : list Z) (i : nat) : string :=
  match arr !! i with
  | Some x => pretty x
  | None => "undefined"
  end.

Definition stateKey (sumsArr remainingArr : list Z) (turnVal : Z)
    (offeredIdx : nat) : string :=
  showAt sumsArr 0 +:+ "," +:+ showAt sumsArr 1 +:+ "," +:+ showAt sumsArr 2
    +:+ "|" +:+ pretty (maskOf remainingArr)
    +:+ "|" +:+ pretty turnVal
    +:+ "|" +:+ pretty offeredIdx.

(** The two characters that separate the fields of a key, and the strings
    that contain neither: what a printed number looks like. *)
Definition isSep (a : ascii) : bool :=
  bool_decide (a = ","%char) || bool_decide (a = "|"%char).

Fixpoint noSep (s : string) : bool :=
  match s with
  | EmptyString => true
  | String a s' => negb (isSep a) && noSep s'
  end.

(** ** The solver on values *)

(** The fields of the [state] object the solver reads ([baskets] is
    carried along by the caller but never read). *)
Record state := State {
  sums : list Z;
  remaining : list Z;
  turn : Z;
}.

(** [newSums = sums.slice(); newSums[offeredIdx] += c;
     newRemaining = remaining.filter(x => x !== c); newTurn = turn + 1].
    The update is the in-range one: a basket index is 0, 1 or 2 and
    [sums] has three cells.  (Past the end JavaScript would store [NaN];
    every statement below that depends on the index assumes it in range.) *)
Definition placeCoin (st : state) (offeredIdx : nat) (c : Z) : state :=
  {| sums := alter (λ s, s + c) offeredIdx (sums st);
     remaining := filter (λ x, x ≠ c) (remaining st);
     turn := turn st + 1 |}.

(** [for (nextOff = 0; nextOff < 3; nextOff++) { if (!call(nextOff)) break; }]
    threading the memo map through the calls. *)
Fixpoint allNext (call : nat → gmap string bool → bool * gmap string bool)
    (offs : list nat) (memo : gmap string bool) : bool * gmap string bool :=
  match offs with
  | [] => (true, memo)
  | nextOff :: offs' =>
      let '(ok, memo') := call nextOff memo in
      if ok then allNext call offs' memo' else (false, memo')
  end.

(** The body of [for (const c of state.remaining)] in
    [canForceWinGivenOffer]; [rec] is the recursive call. *)
Fixpoint tryCoins
    (rec : state → nat → gmap string bool → bool * gmap string bool)
    (st : state) (offeredIdx : nat) (key : string) (cs : list Z)
    (memo : gmap string bool) : bool * gmap string bool :=
  match cs with
  | [] => (false, <[key := false]> memo)
  | c :: cs' =>
      let next := placeCoin st offeredIdx c in
      if bool_decide (4 ≤ turn next) then
        if uniqueTop (sums next) then (true, <[key := true]> memo)
        else tryCoins rec st offeredIdx key cs' memo
      else
        let '(allOk, memo') := allNext (rec next) (seq 0 3) memo in
        if allOk then (true, <[key := true]> memo')
        else tryCoins rec st offeredIdx key cs' memo'
  end.

(** [canForceWinGivenOffer], with the depth of the recursion as fuel.
    Every recursive call is on a state with strictly fewer remaining
    coins, so [length (remaining st)] is always enough (section Fuel of
    Part II). *)
Fixpoint canForceWin_fuel (fuel : nat) (st : state) (offeredIdx : nat)
    (memo : gmap string bool) {struct fuel} : bool * gmap string bool :=
  let key := stateKey (sums st) (remaining st) (turn st) offeredIdx in
  match memo !! key with
  | Some res => (res, memo)
  | None =>
      if bool_decide (length (remaining st) = 0%nat) then
        let res := uniqueTop (sums st) in (res, <[key := res]> memo)
      else
        match fuel with
        | O => (false, memo)
        | S fuel' =>
            tryCoins (canForceWin_fuel fuel') st offeredIdx key
              (remaining st) memo
        end
  end.

Definition canForceWinGivenOffer (st : state) (offeredIdx : nat)
    (memo : gmap string bool) : bool * gmap string bool :=
  canForceWin_fuel (length (remaining st)) st offeredIdx memo.

(** [Math.max(...xs)]. *)
Definition mathMax (xs : list Z) : num :=
  foldr (λ x acc, match acc with
                  | NegInfinity => Num x
                  | Num m => Num (Z.max x m)
                  end) NegInfinity xs.

(** The loop of [aiChooseCoinForOffer] followed by its fallback. *)
Fixpoint chooseLoop (st : state) (offeredIdx : nat) (cs : list Z)
    (memo : gmap string bool) : num * gmap string bool :=
  match cs with
  | [] => (mathMax (remaining st), memo)
  | c :: cs' =>
      let newState := placeCoin st offeredIdx c in
      if bool_decide (4 ≤ turn newState) then
        if uniqueTop (sums newState) then (Num c, memo)
        else chooseLoop st offeredIdx cs' memo
      else
        let '(allOk, memo') :=
          allNext (canForceWinGivenOffer newState) (seq 0 3) memo in
        if allOk then (Num c, memo')
        else chooseLoop st offeredIdx cs' memo'
  end.

Definition aiChooseCoinForOffer (st : state) (offeredIdx : nat)
    (memo : gmap string bool) : num * gmap string bool :=
  chooseLoop st offeredIdx (remaining st) memo.

(** The value of a call made right after [memo.clear()]. *)
Definition canForceWin (st : state) (offeredIdx : nat) : bool :=
  (canForceWinGivenOffer st offeredIdx ∅).1.

Definition chooseCoin (st : state) (offeredIdx : nat) : num :=
  (aiChooseCoinForOffer st offeredIdx ∅).1.

(** ** The search without the cache

    The same recursion with every line that touches [memo] removed: the
    reference the cached results are compared with. *)

Definition coinWins (rec : state → nat → bool) (st : state) (offeredIdx : nat)
    (c : Z) : bool :=
  let next := placeCoin st offeredIdx c in
  if bool_decide (4 ≤ turn next) then uniqueTop (sums next)
  else forallb (rec next) (seq 0 3).

Fixpoint search_fuel (fuel : nat) (st : state) (offeredIdx : nat)
    {struct fuel} : bool :=
  if bool_decide (length (remaining st) = 0%nat) then uniqueTop (sums st)
  else
    match fuel with
    | O => false
    | S fuel' => existsb (coinWins (search_fuel fuel') st offeredIdx)
                   (remaining st)
    end.

Definition search (st : state) (offeredIdx : nat) : bool :=
  search_fuel (length (remaining st)) st offeredIdx.

(** The states on which the key identifies the position: three sums and
    coins whose bits [1 << (c-1)] are pairwise distinct. *)
Definition key_ok (st : state) : Prop :=
  length (sums st) = 3%nat ∧ Forall (λ c, 1 ≤ c ≤ 32) (remaining st).

(** Every cached verdict is the verdict of the cache-free search. *)
Definition memo_sound (memo : gmap string bool) : Prop :=
  ∀ st offeredIdx res,
    key_ok st →
    memo !! stateKey (sums st) (remaining st) (turn st) offeredIdx = Some res →
    res = search st offeredIdx.

(** The caches the program can hold: [new Map()] or [memo.clear()], then
    any sequence of solver calls. *)
Inductive cache_reachable : gmap string bool → Prop :=
  | cache_clear : cache_reachable ∅
  | cache_solve st offeredIdx memo :
      cache_reachable memo → key_ok st → (offeredIdx < 3)%nat →
      cache_reachable (canForceWinGivenOffer st offeredIdx memo).2
  | cache_choose st offeredIdx memo :
      cache_reachable memo → key_ok st → (offeredIdx < 3)%nat →
      cache_reachable (aiChooseCoinForOffer st offeredIdx memo).2.

(** The invariant of the data model for the four-coin game the solver is
    written for ([newTurn >= 4]). *)
Definition turn_ok (st : state) : Prop :=
  turn st + Z.of_nat (length (remaining st)) = 4.

(** A coin that wins for the placer when put into the offered basket. *)
Definition forcing (st : state) (offeredIdx : nat) (c : Z) : Prop :=
  let next := placeCoin st offeredIdx c in
  (turn next = 4 ∧ winner (endGameVerdict (sums next)) = Placer) ∨
  (∀ b2, (b2 < 3)%nat → canForceWin next b2 = true).

(** The test a candidate coin has to pass, case by case as the loop makes
    it: a last coin must end the game with the placer winning; any other
    coin, and only such a coin, must leave a state on which the solver
    answers true for each of the three baskets that may be offered next.
    A last coin that ties does not pass, whatever the solver would answer
    on the finished state. *)
Definition succeeds (st : state) (offeredIdx : nat) (c : Z) : Prop :=
  let next := placeCoin st offeredIdx c in
  (turn next = 4 ∧ winner (endGameVerdict (sums next)) = Placer) ∨
  (turn next < 4 ∧ ∀ b2, (b2 < 3)%nat → canForceWin next b2 = true).

(** The first coin, in array order, that wins in the cache-free search. *)
Definition firstWinning (st : state) (b : nat) (cs : list Z) : option Z :=
  List.find (coinWins search st b) cs.

(** The opening position of the four-coin game. *)
Definition opening : state := State [0; 0; 0] [1; 2; 3; 4] 0.

(** ** The single-page game

    The script's top-level variables, the part of the page the handlers
    write (the move list and the result banner), the global [memo] map
    and the [setTimeout] callbacks that are still pending. *)

Record moveLine := MoveLine {
  lineTurn : Z;
  lineBasket : nat;
  lineCoin : Z;
}.

Record game := Game {
  baskets : list (list Z);
  gSums : list Z;
  remainingCoins : list Z;
  gTurn : Z;
  awaitingOffer : bool;
  currentOffered : option nat;
  movesList : list moveLine;
  resultBanner : option verdict;
  memo : gmap string bool;
  timers : list (num * nat);
}.

(** [newGame()]: resets the variables of the round; the cache and the
    pending timers are not its business. *)
Definition newGame (g : game) : game :=
  {| baskets := [[]; []; []];
     gSums := [0; 0; 0];
     remainingCoins := [1; 2; 3; 4];
     gTurn := 0;
     awaitingOffer := true;
     currentOffered := None;
     movesList := [];
     resultBanner := None;
     memo := memo g;
     timers := timers g |}.

(** The page right after the script has run: [memo = new Map()], no
    timer, [newGame()] called once. *)
Definition initialGame : game :=
  {| baskets := [[]; []; []];
     gSums := [0; 0; 0];
     remainingCoins := [1; 2; 3; 4];
     gTurn := 0;
     awaitingOffer := true;
     currentOffered := None;
     movesList := [];
     resultBanner := None;
     memo := ∅;
     timers := [] |}.

(** [offerBasket(idx)]; [aiMode] is [modeEl.value === 'ai'] at the time of
    the call.  In AI mode the chosen coin is placed by a timer. *)
Definition offerBasket (aiMode : bool) (idx : nat) (g : game) : game :=
  if negb (awaitingOffer g) then g
  else
    let g1 := {| baskets := baskets g; gSums := gSums g;
                 remainingCoins := remainingCoins g; gTurn := gTurn g;
                 awaitingOffer := false; currentOffered := Some idx;
                 movesList := movesList g; resultBanner := resultBanner g;
                 memo := memo g; timers := timers g |} in
    if aiMode then
      let '(best, memo') :=
        aiChooseCoinForOffer
          {| sums := gSums g; remaining := remainingCoins g; turn := gTurn g |}
          idx (memo g) in
      {| baskets := baskets g1; gSums := gSums g1;
         remainingCoins := remainingCoins g1; gTurn := gTurn g1;
         awaitingOffer := awaitingOffer g1; currentOffered := currentOffered g1;
         movesList := movesList g1; resultBanner := resultBanner g1;
         memo := memo'; timers := timers g1 ++ [(best, idx)] |}
    else g1.

(** [endGame()]: shows the banner. *)
Definition endGame (g : game) : game :=
  {| baskets := baskets g; gSums := gSums g;
     remainingCoins := remainingCoins g; gTurn := gTurn g;
     awaitingOffer := awaitingOffer g; currentOffered := currentOffered g;
     movesList := movesList g;
     resultBanner := Some (endGameVerdict (gSums g));
     memo := memo g; timers := timers g |}.

(** [doPlace(v, idx)].  [baskets[idx].push(v)] is the first statement
    after the two guards: with no such basket it raises a [TypeError]
    before anything is written, which leaves the variables as they were. *)
Definition doPlace (v : num) (idx : nat) (g : game) : game :=
  if awaitingOffer g then g
  else
    match v with
    | NegInfinity => g
    | Num v =>
        if bool_decide (v ∈ remainingCoins g) then
          match baskets g !! idx with
          | None => g
          | Some _ =>
              let g1 :=
                {| baskets := alter (λ b, b ++ [v]) idx (baskets g);
                   gSums := alter (λ s, s + v) idx (gSums g);
                   remainingCoins := filter (λ x, x ≠ v) (remainingCoins g);
                   gTurn := gTurn g + 1;
                   awaitingOffer := awaitingOffer g;
                   currentOffered := None;
                   movesList := movesList g ++ [MoveLine (gTurn g + 1) (idx + 1) v];
                   resultBanner := resultBanner g;
                   memo := memo g; timers := timers g |} in
              if bool_decide (4 ≤ gTurn g1) then endGame g1
              else
                {| baskets := baskets g1; gSums := gSums g1;
                   remainingCoins := remainingCoins g1; gTurn := gTurn g1;
                   awaitingOffer := true; currentOffered := currentOffered g1;
                   movesList := movesList g1; resultBanner := resultBanner g1;
                   memo := memo g1; timers := timers g1 |}
          end
        else g
    end.

(** What can happen to the page. *)
Inductive event :=
  | ClickOffer (aiMode : bool) (idx : nat)
  | ClickCoin (val : Z)
  | TimerFires
  | ClickNewGame.

Definition clearMemo (g : game) : game :=
  {| baskets := baskets g; gSums := gSums g;
     remainingCoins := remainingCoins g; gTurn := gTurn g;
     awaitingOffer := awaitingOffer g; currentOffered := currentOffered g;
     movesList := movesList g; resultBanner := resultBanner g;
     memo := ∅; timers := timers g |}.

Definition popTimer (g : game) : game :=
  {| baskets := baskets g; gSums := gSums g;
     remainingCoins := remainingCoins g; gTurn := gTurn g;
     awaitingOffer := awaitingOffer g; currentOffered := currentOffered g;
     movesList := movesList g; resultBanner := resultBanner g;
     memo := memo g; timers := tail (timers g) |}.

Definition handle (e : event) (g : game) : game :=
  match e with
  | ClickOffer aiMode idx => offerBasket aiMode idx g
  | ClickCoin val =>
      match currentOffered g with
      | None => g
      | Some idx => doPlace (Num val) idx g
      end
  | TimerFires =>
      match timers g with
      | [] => g
      | (best, idx) :: _ => doPlace best idx (popTimer g)
      end
  | ClickNewGame => newGame (clearMemo g)
  end.

(** The page has three offer buttons, for baskets 0, 1 and 2. *)
Definition event_ok (e : event) : Prop :=
  match e with
  | ClickOffer _ idx => (idx < 3)%nat
  | _ => True
  end.

Inductive reachable : game → Prop :=
  | reach_init : reachable initialGame
  | reach_step e g : reachable g → event_ok e → reachable (handle e g).

(** The page after a sequence of events. *)
Definition run (es : list event) : game :=
  foldl (λ g e, handle e g) initialGame es.

(** An offer in AI mode, a new game before the AI's timer has fired, and
    an offer of another basket. *)
Definition staleTimerRun : list event :=
  [ClickOffer true 0; ClickNewGame; ClickOffer true 1].

Fixpoint sumList (xs : list Z) : Z :=
  match xs with
  | [] => 0
  | x :: xs' => x + sumList xs'
  end.

(** The invariant of the data model, on the variables of the page. *)
Record game_inv (g : game) : Prop := GameInv {
  inv_turn : gTurn g = 4 - Z.of_nat (length (remainingCoins g));
  inv_sums : gSums g = sumList <$> baskets g;
  inv_three : length (baskets g) = 3%nat;
  inv_coins : concat (baskets g) ++ remainingCoins g ≡ₚ [1; 2; 3; 4];
  inv_sorted : StronglySorted Z.lt (remainingCoins g);
  inv_phase :
    awaitingOffer g = bool_decide (currentOffered g = None ∧ gTurn g < 4);
  inv_offer : ∀ idx, currentOffered g = Some idx → (idx < 3)%nat ∧ gTurn g < 4;
  inv_banner :
    resultBanner g =
      if bool_decide (gTurn g = 4) then Some (endGameVerdict (gSums g)) else None;
  inv_timers : Forall (λ t : num * nat, (t.2 < 3)%nat) (timers g);
  inv_memo : cache_reachable (memo g);
}.

(** ** The multiplayer room

    The room record as the transaction callbacks see it.  The store drops
    empty arrays and nulls, which is why the callbacks guard every field
    with [||]; a field that may be absent is an [option], an array that
    is written by index may have holes. *)

Inductive outcome (A : Type) :=
  | Returned (a : A)
  | Threw (message : string).
Arguments Returned {A} a.
Arguments Threw {A} message.

(** The values compared with [!==]: [null], [undefined] or a user id. *)
Inductive jsref := JsNull | JsUndefined | JsStr (s : string).

Global Instance jsref_eq_dec : EqDecision jsref.
Proof. solve_decision. Defined.

Inductive phase := waiting | offering | placing | finished.

Record moveRecord := MoveRecord {
  mvTurn : option Z;
  mvIdx : nat;
  mvCoin : Z;
  mvBy : jsref;
  mvByShort : jsref;
  mvTs : Z;
}.

Record roomState := RoomState {
  rBaskets : option (list (option (list Z)));
  rSums : option (list (option Z));
  rRemaining : option (list Z);
  rTurn : option Z;
  rCurrentOffered : option nat;
  rPhase : phase;
  rMoves : option (list moveRecord);
  rCoinCount : option Z;
}.

Record room := Room {
  presenter : option string;
  placer : option string;
}.

(** [initialState(coinCount)]. *)
Definition initialState (coinCount : Z) : roomState :=
  {| rBaskets := Some [Some []; Some []; Some []];
     rSums := Some [Some 0; Some 0; Some 0];
     rRemaining := Some (seqZ 1 coinCount);
     rTurn := Some 0;
     rCurrentOffered := None;
     rPhase := waiting;
     rMoves := Some [];
     rCoinCount := Some coinCount |}.

(** [x || d] on a number that may be absent: 0 is falsy too. *)
Definition orElse (x : option Z) (d : Z) : Z :=
  match x with
  | Some v => if bool_decide (v = 0) then d else v
  | None => d
  end.

(** [t >= n] where [t] may be [undefined]. *)
Definition jsGe (t : option Z) (n : Z) : bool :=
  match t with
  | Some t => bool_decide (n ≤ t)
  | None => false
  end.

(** [arr[i]] and [arr[i] = v] on an array with holes. *)
Definition jsGet {A} (arr : list (option A)) (i : nat) : option A :=
  mjoin (arr !! i).

Definition jsSet {A} (arr : list (option A)) (i : nat) (v : A) : list (option A) :=
  if bool_decide (i < length arr)%nat then <[i := Some v]> arr
  else arr ++ replicate (i - length arr) None ++ [Some v].

Definition refOfUid (uid : option string) : jsref :=
  match uid with Some u => JsStr u | None => JsNull end.

(** [roomData && roomData.placer]. *)
Definition placerRef (roomData : option room) : jsref :=
  match roomData with
  | None => JsNull
  | Some r => match placer r with Some p => JsStr p | None => JsUndefined end
  end.

(** [(roomData || {}).presenter]. *)
Definition presenterRef (roomData : option room) : jsref :=
  match roomData with
  | None => JsUndefined
  | Some r => match presenter r with Some p => JsStr p | None => JsUndefined end
  end.

(** [uid ? uid.slice(0,8) : null]. *)
Definition shortUid (uid : option string) : jsref :=
  match uid with
  | Some u => if bool_decide (u = "") then JsNull else JsStr (String.substring 0 8 u)
  | None => JsNull
  end.

(** The callback [placeCoinTransaction] hands to [runTransaction].  All
    three [throw]s come before the first assignment to [cur]. *)
Definition placeUpdate (uid : option string) (roomData : option room) (now : Z)
    (coin : Z) (cur : option roomState) : outcome (option roomState) :=
  match cur with
  | None => Returned None
  | Some cur =>
      match rCurrentOffered cur with
      | None => Threw "No basket offered"
      | Some idx =>
          if bool_decide (placerRef roomData ≠ refOfUid uid) then
            Threw "Not the placer"
          else
            match rRemaining cur with
            | None => Threw "Coin not available"
            | Some rem =>
                if bool_decide (coin ∈ rem) then
                  let bs := default [Some []; Some []; Some []] (rBaskets cur) in
                  let bs := jsSet bs idx (default [] (jsGet bs idx) ++ [coin]) in
                  let ss := default [Some 0; Some 0; Some 0] (rSums cur) in
                  let ss := jsSet ss idx (orElse (jsGet ss idx) 0 + coin) in
                  let newTurn := orElse (rTurn cur) 0 + 1 in
                  Returned (Some
                    {| rBaskets := Some bs;
                       rSums := Some ss;
                       rRemaining := Some (filter (λ c, c ≠ coin) rem);
                       rTurn := Some newTurn;
                       rCurrentOffered := None;
                       rPhase :=
                         if bool_decide (orElse (rCoinCount cur) 4 ≤ newTurn)
                         then finished else offering;
                       rMoves := Some (default [] (rMoves cur) ++
                         [MoveRecord ((λ t, t + 1) <$> rTurn cur) idx coin
                            (refOfUid uid) (shortUid uid) now]);
                       rCoinCount := rCoinCount cur |})
                else Threw "Coin not available"
            end
      end
  end.

(** The callback of the offer buttons. *)
Definition offerUpdate (uid : option string) (roomData : option room)
    (idx : nat) (cur : option roomState) : outcome (option roomState) :=
  match cur with
  | None => Returned None
  | Some cur =>
      if bool_decide (presenterRef roomData ≠ refOfUid uid) then
        Threw "Not presenter"
      else
        match rCurrentOffered cur with
        | Some _ => Threw "Already offered"
        | None =>
            if jsGe (rTurn cur) (orElse (rCoinCount cur) 4) then
              Threw "Game finished"
            else
              Returned (Some
                {| rBaskets := rBaskets cur; rSums := rSums cur;
                   rRemaining := rRemaining cur; rTurn := rTurn cur;
                   rCurrentOffered := Some idx; rPhase := placing;
                   rMoves := rMoves cur; rCoinCount := rCoinCount cur |})
        end
  end.

(** The room store is an external service.  Of [runTransaction] only
    this is used: what the callback returns is stored, and a callback
    that throws stores nothing and rejects with the same error. *)
Definition runTransaction
    (update : option roomState → outcome (option roomState))
    (stored : option roomState) : outcome unit * option roomState :=
  match update stored with
  | Returned new => (Returned (), new)
  | Threw message => (Threw message, stored)
  end.

(** ** The solver on the heap

    The same two functions, this time with the arrays and the state
    objects as cells of a store, to account for what the solver writes:
    [slice] and [filter] allocate, [sort] and [newSums[i] += c] update a
    cell in place, the object literals allocate a state object, and the
    [for ... of] loop reads [state.remaining] afresh at every step. *)

(** A state object: references to its two arrays, and its turn.  (Its
    [baskets] field, which the solver neither reads nor writes, is left
    out.) *)
Record stateObj := StateObj {
  sumsRef : nat;
  remainingRef : nat;
  turnField : Z;
}.

Inductive cell :=
  | ArrayCell (xs : list Z)
  | ObjCell (o : stateObj).

(** A step that reads the store; [None] is a reference that does not
    hold what the code expects. *)
Notation "'letS' p ':=' e 'in' k" :=
  (match e with Some p => k | None => None end)
  (at level 10, p pattern, e at level 100, k at level 200, only parsing).

(** A reference is a position in the store; allocation appends. *)
Definition readArr (h : list cell) (l : nat) : option (list Z) :=
  match h !! l with
  | Some (ArrayCell xs) => Some xs
  | _ => None
  end.

Definition readObj (h : list cell) (l : nat) : option stateObj :=
  match h !! l with
  | Some (ObjCell o) => Some o
  | _ => None
  end.

Definition alloc (h : list cell) (c : cell) : nat * list cell :=
  (length h, h ++ [c]).

Definition writeArr (h : list cell) (l : nat) (xs : list Z) : list cell :=
  <[l := ArrayCell xs]> h.

(** [arr.slice()]. *)
Definition sliceH (h : list cell) (l : nat) : option (nat * list cell) :=
  letS xs := readArr h l in
  Some (alloc h (ArrayCell xs)).

(** [arr.sort((a,b)=>b-a)], in place. *)
Definition sortH (h : list cell) (l : nat) : option (list cell) :=
  letS xs := readArr h l in
  Some (writeArr h l (sortDesc xs)).

(** [arr[i] += c]. *)
Definition addAtH (h : list cell) (l : nat) (i : nat) (c : Z)
    : option (list cell) :=
  letS xs := readArr h l in
  Some (writeArr h l (alter (λ s, s + c) i xs)).

(** [arr.filter(x => x !== c)]. *)
Definition filterH (h : list cell) (l : nat) (c : Z)
    : option (nat * list cell) :=
  letS xs := readArr h l in
  Some (alloc h (ArrayCell (filter (λ x, x ≠ c) xs))).

(** [sorted = arr.slice().sort(..); sorted[0] > sorted[1]]. *)
Definition uniqueTopH (h : list cell) (l : nat) : option (bool * list cell) :=
  letS (sorted, h1) := sliceH h l in
  letS h2 := sortH h1 sorted in
  letS xs := readArr h2 sorted in
  Some (jsGt (xs !! 0%nat) (xs !! 1%nat), h2).

(** The key, read through the state object. *)
Definition stateKeyH (h : list cell) (st : nat) (offeredIdx : nat)
    : option string :=
  letS o := readObj h st in
  letS sumsArr := readArr h (sumsRef o) in
  letS remainingArr := readArr h (remainingRef o) in
  Some (stateKey sumsArr remainingArr (turnField o) offeredIdx).

Fixpoint allNextH
    (call : nat → list cell * gmap string bool →
            option (bool * (list cell * gmap string bool)))
    (offs : list nat) (σ : list cell * gmap string bool)
    : option (bool * (list cell * gmap string bool)) :=
  match offs with
  | [] => Some (true, σ)
  | nextOff :: offs' =>
      letS (ok, σ') := call nextOff σ in
      if ok then allNextH call offs' σ' else Some (false, σ')
  end.

(** [nextState = {baskets: null, sums: newSums, remaining: newRemaining,
    turn: newTurn}; canForceWinGivenOffer(nextState, nextOff)]: a new
    object for every offer. *)
Definition callOnNewObj
    (rec : nat → nat → list cell * gmap string bool →
           option (bool * (list cell * gmap string bool)))
    (o : stateObj) (nextOff : nat) (σ : list cell * gmap string bool)
    : option (bool * (list cell * gmap string bool)) :=
  let '(nextState, h') := alloc σ.1 (ObjCell o) in
  rec nextState nextOff (h', σ.2).

(** The loop over the coins of [canForceWinGivenOffer]: [i] is the
    position of the array iterator, [n] bounds the number of steps. *)
Fixpoint tryCoinsH
    (rec : nat → nat → list cell * gmap string bool →
           option (bool * (list cell * gmap string bool)))
    (st : nat) (offeredIdx : nat) (key : string) (n i : nat)
    (σ : list cell * gmap string bool)
    : option (bool * (list cell * gmap string bool)) :=
  letS o := readObj σ.1 st in
  letS remainingArr := readArr σ.1 (remainingRef o) in
  match remainingArr !! i with
  | None => Some (false, (σ.1, <[key := false]> σ.2))
  | Some c =>
      match n with
      | O => None
      | S n' =>
          letS (newSums, h1) := sliceH σ.1 (sumsRef o) in
          letS h2 := addAtH h1 newSums offeredIdx c in
          letS (newRemaining, h3) := filterH h2 (remainingRef o) c in
          let newTurn := turnField o + 1 in
          if bool_decide (4 ≤ newTurn) then
            letS (win, h4) := uniqueTopH h3 newSums in
            if win then Some (true, (h4, <[key := true]> σ.2))
            else tryCoinsH rec st offeredIdx key n' (S i) (h4, σ.2)
          else
            letS (allOk, σ') :=
              allNextH
                (callOnNewObj rec (StateObj newSums newRemaining newTurn))
                (seq 0 3) (h3, σ.2) in
            if allOk then Some (true, (σ'.1, <[key := true]> σ'.2))
            else tryCoinsH rec st offeredIdx key n' (S i) σ'
      end
  end.

Fixpoint canForceWinH_fuel (fuel : nat) (st : nat) (offeredIdx : nat)
    (σ : list cell * gmap string bool) {struct fuel}
    : option (bool * (list cell * gmap string bool)) :=
  letS key := stateKeyH σ.1 st offeredIdx in
  match σ.2 !! key with
  | Some res => Some (res, σ)
  | None =>
      letS o := readObj σ.1 st in
      letS remainingArr := readArr σ.1 (remainingRef o) in
      if bool_decide (length remainingArr = 0%nat) then
        letS (res, h1) := uniqueTopH σ.1 (sumsRef o) in
        Some (res, (h1, <[key := res]> σ.2))
      else
        match fuel with
        | O => None
        | S fuel' =>
            tryCoinsH (canForceWinH_fuel fuel') st offeredIdx key
              (length remainingArr) 0 σ
        end
  end.

Definition canForceWinGivenOfferH (st : nat) (offeredIdx : nat)
    (σ : list cell * gmap string bool)
    : option (bool * (list cell * gmap string bool)) :=
  letS o := readObj σ.1 st in
  letS remainingArr := readArr σ.1 (remainingRef o) in
  canForceWinH_fuel (length remainingArr) st offeredIdx σ.

(** The loop of [aiChooseCoinForOffer] and its fallback; [newState] is
    one object, shared by the three calls. *)
Fixpoint chooseLoopH (st : nat) (offeredIdx : nat) (n i : nat)
    (σ : list cell * gmap string bool)
    : option (num * (list cell * gmap string bool)) :=
  letS o := readObj σ.1 st in
  letS remainingArr := readArr σ.1 (remainingRef o) in
  match remainingArr !! i with
  | None => Some (mathMax remainingArr, σ)
  | Some c =>
      match n with
      | O => None
      | S n' =>
          letS (newSums, h1) := sliceH σ.1 (sumsRef o) in
          letS h2 := addAtH h1 newSums offeredIdx c in
          letS (newRemaining, h3) := filterH h2 (remainingRef o) c in
          let '(newState, h4) :=
            alloc h3 (ObjCell (StateObj newSums newRemaining (turnField o + 1))) in
          letS o' := readObj h4 newState in
          if bool_decide (4 ≤ turnField o') then
            letS (win, h5) := uniqueTopH h4 newSums in
            if win then Some (Num c, (h5, σ.2))
            else chooseLoopH st offeredIdx n' (S i) (h5, σ.2)
          else
            letS (allOk, σ') :=
              allNextH (canForceWinGivenOfferH newState) (seq 0 3) (h4, σ.2) in
            if allOk then Some (Num c, σ')
            else chooseLoopH st offeredIdx n' (S i) σ'
      end
  end.

Definition aiChooseCoinForOfferH (st : nat) (offeredIdx : nat)
    (σ : list cell * gmap string bool)
    : option (num * (list cell * gmap string bool)) :=
  letS o := readObj σ.1 st in
  letS remainingArr := readArr σ.1 (remainingRef o) in
  chooseLoopH st offeredIdx (length remainingArr) 0 σ.

(** The value a state object stands for. *)
Definition stateAt (h : list cell) (st : nat) : option state :=
  letS o := readObj h st in
  letS sumsArr := readArr h (sumsRef o) in
  letS remainingArr := readArr h (remainingRef o) in
  Some (State sumsArr remainingArr (turnField o)).

(** A heap run ends in an extension of the store it started from, with
    the result and the cache of the run on values. *)
Definition simulates {A} (run : option (A * (list cell * gmap string bool)))
    (h : list cell) (v : A * gmap string bool) : Prop :=
  ∃ h', run = Some (v.1, (h', v.2)) ∧ h `prefix_of` h'.

(** ** Growth of the cache *)

(** [m] extends [memo], and every key it adds is the key of a position at
    turn [t] or later. *)
Definition grownFrom (t : Z) (memo m : gmap string bool) : Prop :=
  memo ⊆ m ∧
  ∀ k, memo !! k = None → is_Some (m !! k) →
    ∃ s r t' b, k = stateKey s r t' b ∧ t ≤ t'.

(** ** The page's buttons and a game against the AI *)

(** [updateUI()], which every handler calls after it has changed the
    variables: the [disabled] flag of the offer buttons and of the coin
    button of value [val]. *)
Definition offerDisabled (g : game) : bool := negb (awaitingOffer g).

Definition coinDisabled (val : Z) (g : game) : bool :=
  awaitingOffer g || negb (bool_decide (val ∈ remainingCoins g))
    || bool_decide (currentOffered g = None).

(** The object [offerBasket] hands to the AI:
    [{sums: sums.slice(), remaining: remainingCoins.slice(), turn}]. *)
Definition solverState (g : game) : state :=
  {| sums := gSums g; remaining := remainingCoins g; turn := gTurn g |}.

(** The move list of the page is an exact log: the turns are numbered
    from 1 and the coins logged for a basket, in order, are its contents. *)
Definition log_inv (g : game) : Prop :=
  lineTurn <$> movesList g = seqZ 1 (gTurn g) ∧
  ∀ i, (i < 3)%nat →
    baskets g !! i =
      Some (lineCoin <$> filter (λ m, lineBasket m = (i + 1)%nat) (movesList g)).

(** The events of a page that stays in human mode: every offer is made
    with [modeEl.value] other than ['ai'], on one of the three offer
    buttons. *)
Definition humanEvent (e : event) : Prop :=
  match e with
  | ClickOffer aiMode idx => aiMode = false ∧ (idx < 3)%nat
  | _ => True
  end.

(** One round in AI mode with nothing in between: the presenter offers
    basket [idx], 400 ms later the timer places the AI's coin. *)
Definition aiRound (idx : nat) (g : game) : game :=
  handle TimerFires (handle (ClickOffer true idx) g).

Definition aiGame (idxs : list nat) : game :=
  foldl (λ g idx, aiRound idx g) initialGame idxs.

(** ** The room: guarded reads, rendering, roles *)

(** What the callbacks and [renderState] read from a state record: every
    access is guarded ([cur.turn || 0], [cur.sums || [0,0,0]],
    [cur.baskets[idx] || []], ...), so an absent field reads as its
    default. *)
Definition remainingOf (cur : roomState) : list Z := default [] (rRemaining cur).

Definition turnOf (cur : roomState) : Z := orElse (rTurn cur) 0.

Definition coinCountOf (cur : roomState) : Z := orElse (rCoinCount cur) 4.

Definition sumAt (cur : roomState) (i : nat) : Z :=
  orElse (jsGet (default [Some 0; Some 0; Some 0] (rSums cur)) i) 0.

Definition basketAt (cur : roomState) (i : nat) : list Z :=
  default [] (jsGet (default [Some []; Some []; Some []] (rBaskets cur)) i).

Definition movesOf (cur : roomState) : list moveRecord := default [] (rMoves cur).

(** [localRole] as the room listener sets it: ['presenter'], ['placer']
    or [null]. *)
Inductive roleName := asPresenter | asPlacer.

Global Instance roleName_eq_dec : EqDecision roleName.
Proof. solve_decision. Defined.

(** [room.presenter], [room.placer]: [undefined] when absent. *)
Definition slotRef (x : option string) : jsref :=
  match x with Some s => JsStr s | None => JsUndefined end.

Definition localRoleOf (uid : option string) (r : room) : option roleName :=
  if bool_decide (slotRef (presenter r) = refOfUid uid) then Some asPresenter
  else if bool_decide (slotRef (placer r) = refOfUid uid) then Some asPlacer
  else None.

(** [state.turn < n] where [state.turn] may be [undefined]. *)
Definition jsLt (t : option Z) (n : Z) : bool :=
  match t with
  | Some t => bool_decide (t < n)
  | None => false
  end.

(** [renderState]: whether it leaves the offer buttons, and the coin
    button of value [val], enabled.  In phase [waiting] it disables all
    and returns; in phase [finished] it disables all at the end. *)
Definition offerEnabled (localRole : option roleName) (st : roomState) : bool :=
  match rPhase st with
  | waiting | finished => false
  | offering | placing =>
      bool_decide (localRole = Some asPresenter)
      && bool_decide (rCurrentOffered st = None)
      && jsLt (rTurn st) (orElse (rCoinCount st) 4)
  end.

Definition coinEnabled (localRole : option roleName) (val : Z)
    (st : roomState) : bool :=
  match rPhase st with
  | waiting | finished => false
  | offering | placing =>
      bool_decide (localRole = Some asPlacer)
      && bool_decide (rCurrentOffered st ≠ None)
      && match rRemaining st with
         | Some rem => bool_decide (val ∈ rem)
         | None => false
         end
  end.

(** [renderCoinControls(state.coinCount || 4, state.remaining)]: the
    values that get a coin button. *)
Definition coinButtonValues (st : roomState) : list Z :=
  seqZ 1 (orElse (rCoinCount st) 4).

(** The verdict [renderState] shows in phase [finished]:
    [sorted = (state.sums || [0,0,0]).slice().sort((a,b)=>b-a)], then
    [sorted[0] > sorted[1]].  [sort] moves absent elements to the end. *)
Definition roomVerdict (st : roomState) : verdict :=
  let arr := default [Some 0; Some 0; Some 0] (rSums st) in
  let present := omap id arr in
  let sorted := (Some <$> sortDesc present)
                  ++ replicate (length arr - length present) None in
  let s1 := jsGet sorted 0 in
  let s2 := jsGet sorted 1 in
  {| winner := if jsGt s1 s2 then Placer else Presenter;
     topSum := s1;
     secondSum := s2 |}.

Global Instance phase_eq_dec : EqDecision phase.
Proof. solve_decision. Defined.

(** A user id or slot value in a condition: [null], [undefined] and the
    empty string are falsy. *)
Definition truthyId (x : option string) : bool :=
  match x with
  | Some s => negb (bool_decide (s = ""))
  | None => false
  end.

(** The body of the [setInterval] callback for a room whose state
    exists.  [roomData] and [snapshot] are the listener's last copy of
    the room and of its state; the write goes to [state/phase] of the
    stored state, whatever that has become. *)
Definition reconcile (roomData : option room) (snapshot : option roomState)
    (stored : roomState) : roomState :=
  match roomData, snapshot with
  | Some r, Some s =>
      if truthyId (presenter r) && truthyId (placer r)
         && bool_decide (rPhase s = waiting)
      then {| rBaskets := rBaskets stored; rSums := rSums stored;
              rRemaining := rRemaining stored; rTurn := rTurn stored;
              rCurrentOffered := rCurrentOffered stored; rPhase := offering;
              rMoves := rMoves stored; rCoinCount := rCoinCount stored |}
      else stored
  | _, _ => stored
  end.

(** The states a room with [n] coins goes through: [initialState(n)]
    (room creation, the listener's repair of a missing state, the reset
    button), accepted offers of one of the three baskets, accepted
    placements, and the interval's phase write. *)
Inductive room_reachable (n : Z) : roomState → Prop :=
  | room_init : room_reachable n (initialState n)
  | room_offer uid roomData idx cur cur' :
      room_reachable n cur → (idx < 3)%nat →
      offerUpdate uid roomData idx (Some cur) = Returned (Some cur') →
      room_reachable n cur'
  | room_place uid roomData now coin cur cur' :
      room_reachable n cur →
      placeUpdate uid roomData now coin (Some cur) = Returned (Some cur') →
      room_reachable n cur'
  | room_reconcile roomData snapshot cur :
      room_reachable n cur →
      room_reachable n (reconcile roomData snapshot cur).

Record room_inv (n : Z) (cur : roomState) : Prop := RoomInv {
  rinv_count : coinCountOf cur = n;
  rinv_sums_raw : ∃ a b c, rSums cur = Some [Some a; Some b; Some c];
  rinv_sums : ∀ i, (i < 3)%nat → sumAt cur i = sumList (basketAt cur i);
  rinv_coins :
    basketAt cur 0 ++ basketAt cur 1 ++ basketAt cur 2 ++ remainingOf cur
      ≡ₚ seqZ 1 n;
  rinv_turn : turnOf cur + Z.of_nat (length (remainingOf cur)) = n;
  rinv_offer :
    ∀ idx, rCurrentOffered cur = Some idx → (idx < 3)%nat ∧ turnOf cur < n;
  rinv_placing : rPhase cur = placing → is_Some (rCurrentOffered cur);
  rinv_finished : rPhase cur = finished → n ≤ turnOf cur;
  rinv_log :
    ∀ i, (i < 3)%nat →
      basketAt cur i = mvCoin <$> filter (λ m, mvIdx m = i) (movesOf cur);
  rinv_log_length : Z.of_nat (length (movesOf cur)) = turnOf cur;
  rinv_turn_raw : is_Some (rTurn cur);
}.

(** Two state records that read the same through the guards. *)
Definition same_view (a b : roomState) : Prop :=
  (∀ i, basketAt a i = basketAt b i) ∧
  (∀ i, sumAt a i = sumAt b i) ∧
  remainingOf a = remainingOf b ∧
  rTurn a = rTurn b ∧
  rCurrentOffered a = rCurrentOffered b ∧
  rPhase a = rPhase b ∧
  movesOf a = movesOf b ∧
  coinCountOf a = coinCountOf b.

Definition same_outcome (x y : outcome (option roomState)) : Prop :=
  match x, y with
  | Returned (Some a), Returned (Some b) => same_view a b
  | Returned None, Returned None => True
  | Threw m, Threw m' => m = m'
  | _, _ => False
  end.





(** ** The two programs, move by move *)

(** What both programs show of a position: baskets, sums, remaining
    coins, turn and the basket on offer. *)
Record position := Position {
  pBaskets : list (list Z);
  pSums : list Z;
  pRemaining : list Z;
  pTurn : Z;
  pOffered : option nat;
}.

Definition pagePosition (g : game) : position :=
  {| pBaskets := baskets g; pSums := gSums g;
     pRemaining := remainingCoins g; pTurn := gTurn g;
     pOffered := currentOffered g |}.

(** The room's position as [renderState] reads it. *)
Definition roomPosition (cur : roomState) : position :=
  {| pBaskets := [basketAt cur 0; basketAt cur 1; basketAt cur 2];
     pSums := [sumAt cur 0; sumAt cur 1; sumAt cur 2];
     pRemaining := remainingOf cur; pTurn := turnOf cur;
     pOffered := rCurrentOffered cur |}.

Inductive move := Offer (idx : nat) | Place (coin : Z).

(** A move on the page in human mode: a click on an offer button or on
    a coin button. *)
Definition pageMove (m : move) (g : game) : game :=
  match m with
  | Offer idx => handle (ClickOffer false idx) g
  | Place coin => handle (ClickCoin coin) g
  end.

(** The same move in a room: the presenter [uidP] or the placer [uidQ]
    runs the transaction at time [now]. *)
Definition roomMove (uidP uidQ : option string) (roomData : option room)
    (now : Z) (m : move) (stored : option roomState) : option roomState :=
  match m with
  | Offer idx => (runTransaction (offerUpdate uidP roomData idx) stored).2
  | Place coin => (runTransaction (placeUpdate uidQ roomData now coin) stored).2
  end.

Definition playPage (ms : list (Z * move)) : game :=
  foldl (λ g tm, pageMove tm.2 g) initialGame ms.

Definition playRoom (uidP uidQ : option string) (roomData : option room)
    (ms : list (Z * move)) : option roomState :=
  foldl (λ s tm, roomMove uidP uidQ roomData tm.1 tm.2 s)
    (Some (initialState 4)) ms.

(** The offer buttons are those of baskets 0, 1 and 2. *)
Definition move_ok (tm : Z * move) : Prop :=
  match tm.2 with
  | Offer idx => (idx < 3)%nat
  | Place _ => True
  end.

(** The room and the page show the same position, and the room is in
    phase [finished] once the fourth coin is placed. *)
Definition same_game (cur : roomState) (g : game) : Prop :=
  room_reachable 4 cur ∧ reachable g ∧
  roomPosition cur = pagePosition g ∧
  (turnOf cur = 4 → rPhase cur = finished).

(* ===================================================================== *)
(** * Part II: lemmas and theorems                                        *)
(* ===================================================================== *)

(** ** Sorting and the terminal verdict *)

Lemma sortDesc_perm arr : sortDesc arr ≡ₚ arr.
Proof. apply merge_sort_Permutation. Qed.

Lemma sortDesc_sorted arr : Sorted desc (sortDesc arr).
Proof. apply (Sorted_merge_sort desc). Qed.

Lemma sortDesc_unique arr sorted :
  arr ≡ₚ sorted → Sorted desc sorted → sortDesc arr = sorted.
Proof.
  intros Hp Hs. apply (Sorted_unique desc); [apply sortDesc_sorted|done|].
  by rewrite sortDesc_perm.
Qed.

Lemma sortDesc_three s1 s2 s3 arr :
  arr ≡ₚ [s1; s2; s3] → s2 ≤ s1 → s3 ≤ s2 → sortDesc arr = [s1; s2; s3].
Proof.
  intros Hp H12 H23. apply sortDesc_unique; [done|].
  repeat constructor; unfold desc; lia.
Qed.

(** With three baskets: one of them is strictly above the other two. *)
Lemma uniqueTop_three a b c :
  uniqueTop [a; b; c] = true ↔
  (b < a ∧ c < a) ∨ (a < b ∧ c < b) ∨ (a < c ∧ b < c).
Proof.
  unfold uniqueTop, sortDesc, merge_sort. cbn.
  repeat (destruct (decide (desc _ _)) as [?|?]; cbn);
    unfold desc in *; rewrite bool_decide_eq_true; lia.
Qed.

(** The banner names the placer exactly when the solver's inline test holds. *)
Lemma winner_uniqueTop sumsArr :
  winner (endGameVerdict sumsArr) = Placer ↔ uniqueTop sumsArr = true.
Proof.
  unfold endGameVerdict, uniqueTop. cbn. by destruct (jsGt _ _).
Qed.

(** C2: after the last coin the verdict is for the placer iff, with the sums
    sorted descending as [s1 >= s2 >= s3], [s1 > s2] holds, that is iff one
    basket is strictly above every other; any tie for first place (a
    three-way tie included) is for the presenter.  [endGame] and the
    solver's inline test agree on this, the banner shows [s1] and [s2], and
    sums [5,5,3] give the presenter, sums [7,5,3] the placer. *)
Theorem terminal_verdict_unique_maximum sumsArr s1 s2 s3 :
  sumsArr ≡ₚ [s1; s2; s3] → s2 ≤ s1 → s3 ≤ s2 →
  (winner (endGameVerdict sumsArr) = Placer ↔ s2 < s1) ∧
  (winner (endGameVerdict sumsArr) = Presenter ↔ s1 = s2) ∧
  topSum (endGameVerdict sumsArr) = Some s1 ∧
  secondSum (endGameVerdict sumsArr) = Some s2 ∧
  (uniqueTop sumsArr = true ↔ s2 < s1) ∧
  (winner (endGameVerdict sumsArr) = Placer ↔
     ∃ i x, sumsArr !! i = Some x ∧
            ∀ j y, j ≠ i → sumsArr !! j = Some y → y < x) ∧
  endGameVerdict [5; 5; 3] = Verdict Presenter (Some 5) (Some 5) ∧
  endGameVerdict [7; 5; 3] = Verdict Placer (Some 7) (Some 5).
Proof.
  intros Hp H12 H23.
  assert (Hw : winner (endGameVerdict sumsArr) = Placer ↔ s2 < s1).
  { unfold endGameVerdict. rewrite (sortDesc_three s1 s2 s3) by done. cbn.
    case_bool_decide; [done|]. split; [done|lia]. }
  split_and!; try done.
  - unfold endGameVerdict. rewrite (sortDesc_three s1 s2 s3) by done. cbn.
    case_bool_decide; split; (done || lia).
  - unfold endGameVerdict. by rewrite (sortDesc_three s1 s2 s3).
  - unfold endGameVerdict. by rewrite (sortDesc_three s1 s2 s3).
  - by rewrite <-winner_uniqueTop.
  - rewrite winner_uniqueTop.
    assert (length sumsArr = 3%nat) as Hlen by by rewrite Hp.
    destruct sumsArr as [|a [|b [|c [|]]]]; try done.
    rewrite uniqueTop_three. split.
    + intros [[??]|[[??]|[??]]];
        [exists 0%nat, a|exists 1%nat, b|exists 2%nat, c];
        (split; [done|]); intros [|[|[|j]]] y ? [=]; subst; (done || lia).
    + intros (i & x & Hi & Hmax).
      destruct i as [|[|[|i]]]; cbn in Hi; try done; injection Hi as <-.
      * left. split; [apply (Hmax 1%nat)|apply (Hmax 2%nat)]; done.
      * right; left. split; [apply (Hmax 0%nat)|apply (Hmax 2%nat)]; done.
      * right; right. split; [apply (Hmax 0%nat)|apply (Hmax 1%nat)]; done.
Qed.

Lemma terminal_verdict_unique_maximum_witness :
  winner (endGameVerdict [3; 7; 5]) = Placer ↔ 5 < 7.
Proof.
  refine (proj1 (terminal_verdict_unique_maximum [3; 7; 5] 7 5 3 _ _ _)).
  - apply Permutation_sym, perm_trans with [7; 3; 5].
    + apply perm_skip, perm_swap.
    + apply perm_swap.
  - lia.
  - lia.
Defined.


(** ** The key identifies the position *)

Lemma noSep_app s1 s2 : noSep s1 = true → noSep s2 = true → noSep (s1 +:+ s2) = true.
Proof.
  induction s1 as [|a s1 IH]; [done|].
  change (String a s1 +:+ s2) with (String a (s1 +:+ s2)). cbn.
  rewrite !andb_true_iff. intros [??] ?. split; auto.
Qed.

Lemma pretty_N_char_noSep x : isSep (pretty_N_char x) = false.
Proof. unfold pretty_N_char. by repeat case_match. Qed.

Lemma pretty_N_go_noSep x s : noSep s = true → noSep (pretty_N_go x s) = true.
Proof.
  revert s. induction x as [x IH] using (well_founded_induction N.lt_wf_0).
  intros s Hs. destruct (decide (x = 0%N)) as [->|Hx].
  { by rewrite pretty_N_go_0. }
  rewrite pretty_N_go_step by lia.
  apply IH; [apply N.div_lt; lia|].
  cbn. by rewrite pretty_N_char_noSep.
Qed.

Lemma pretty_N_noSep (x : N) : noSep (pretty x) = true.
Proof.
  unfold pretty, pretty_N. case_decide; [done|]. by apply pretty_N_go_noSep.
Qed.

Lemma pretty_nat_noSep (x : nat) : noSep (pretty x) = true.
Proof. apply pretty_N_noSep. Qed.

Lemma pretty_Z_noSep (x : Z) : noSep (pretty x) = true.
Proof.
  destruct x as [|p|p]; [done|apply pretty_N_noSep|].
  change (pretty (Z.neg p)) with ("-" +:+ pretty (N.pos p)).
  apply noSep_app; [done|apply pretty_N_noSep].
Qed.

Lemma showAt_noSep arr i : noSep (showAt arr i) = true.
Proof. unfold showAt. destruct (arr !! i); [apply pretty_Z_noSep|done]. Qed.

(** Two strings that agree up to their first separator. *)
Lemma sep_split a a' sep r r' :
  noSep a = true → noSep a' = true → isSep sep = true →
  a +:+ String sep r = a' +:+ String sep r' → a = a' ∧ r = r'.
Proof.
  revert a'. induction a as [|x a IH]; intros [|x' a'];
    repeat match goal with
    | |- context [String ?x ?a +:+ ?r] =>
        change (String x a +:+ r) with (String x (a +:+ r))
    | |- context [EmptyString +:+ ?r] => change (EmptyString +:+ r) with r
    end; cbn; rewrite ?andb_true_iff, ?negb_true_iff.
  - intros _ _ _ [= ->]. done.
  - intros _ [Hx _] Hsep [= -> _]. congruence.
  - intros [Hx _] _ Hsep [= -> _]. congruence.
  - intros [_ Ha] [_ Ha'] Hsep [= -> Heq].
    destruct (IH a' Ha Ha' Hsep Heq) as [-> ->]. done.
Qed.

(** Equal keys: the same printed sums, the same mask, turn and basket. *)
Lemma stateKey_inj s r t b s' r' t' b' :
  stateKey s r t b = stateKey s' r' t' b' →
  (∀ i, (i < 3)%nat → showAt s i = showAt s' i) ∧
  maskOf r = maskOf r' ∧ t = t' ∧ b = b'.
Proof.
  unfold stateKey. intros H.
  apply sep_split in H as [H0 H]; [|apply showAt_noSep..|done].
  apply sep_split in H as [H1 H]; [|apply showAt_noSep..|done].
  apply sep_split in H as [H2 H]; [|apply showAt_noSep..|done].
  apply sep_split in H as [Hm H]; [|apply pretty_Z_noSep..|done].
  apply sep_split in H as [Ht H]; [|apply pretty_Z_noSep..|done].
  split_and!.
  - intros i Hi. destruct i as [|[|[|i]]]; [done..|lia].
  - by apply (inj pretty).
  - by apply (inj pretty).
  - by apply (inj pretty).
Qed.

Lemma showAt_three_inj s s' :
  length s = 3%nat → length s' = 3%nat →
  (∀ i, (i < 3)%nat → showAt s i = showAt s' i) → s = s'.
Proof.
  intros Hl Hl' H.
  destruct s as [|a [|b [|c [|]]]]; try done.
  destruct s' as [|a' [|b' [|c' [|]]]]; try done.
  pose proof (H 0%nat ltac:(lia)) as H0.
  pose proof (H 1%nat ltac:(lia)) as H1.
  pose proof (H 2%nat ltac:(lia)) as H2.
  unfold showAt in *; cbn in *.
  apply (inj pretty) in H0, H1, H2. by subst.
Qed.

Lemma coinBit_low k : 0 ≤ k < 31 → wrap32 (Z.shiftl 1 k) = 2 ^ k.
Proof.
  intros Hk. unfold wrap32. rewrite Z.shiftl_1_l.
  assert (0 < 2 ^ k < 2 ^ 31) by (split; [lia|apply Z.pow_lt_mono_r; lia]).
  rewrite Z.mod_small; lia.
Qed.

(** Bit [j] of [1 << (c-1)], for the 32 bits of the mask. *)
Lemma coinBit_testbit c j :
  0 ≤ j < 32 → Z.testbit (coinBit c) j = bool_decide ((c - 1) `mod` 32 = j).
Proof.
  intros Hj. unfold coinBit.
  pose proof (Z.mod_pos_bound (c - 1) 32 ltac:(lia)) as Hk.
  set (k := (c - 1) `mod` 32) in *.
  destruct (decide (k = 31)) as [->|Hne].
  - change (wrap32 (Z.shiftl 1 31)) with (- 2 ^ 31).
    rewrite Z.bits_opp by lia.
    replace (Z.pred (2 ^ 31)) with (Z.ones 31) by done.
    destruct (decide (j = 31)) as [->|?].
    + by rewrite Z.ones_spec_high.
    + rewrite Z.ones_spec_low by lia. by rewrite bool_decide_false by lia.
  - rewrite coinBit_low by lia. rewrite Z.pow2_bits_eqb by lia.
    destruct (Z.eqb_spec k j); [by rewrite bool_decide_true|by rewrite bool_decide_false].
Qed.

Lemma foldl_mask_testbit r acc j :
  0 ≤ j < 32 →
  Z.testbit (foldl (λ mask c, Z.lor mask (coinBit c)) acc r) j = true ↔
  Z.testbit acc j = true ∨ ∃ c, c ∈ r ∧ (c - 1) `mod` 32 = j.
Proof.
  intros Hj. revert acc. induction r as [|c r IH]; intros acc; cbn.
  - split; [auto|]. intros [?|(c & Hc & _)]; [done|]. by apply elem_of_nil in Hc.
  - rewrite IH, Z.lor_spec, orb_true_iff, coinBit_testbit, bool_decide_eq_true by done.
    split.
    + intros [[?|?]|(c' & ? & ?)]; [by left|right; exists c|right; exists c'];
        split; try done; by constructor.
    + intros [?|(c' & [->|?]%elem_of_cons & ?)]; [by left; left|by left; right|].
      right. by exists c'.
Qed.

Lemma maskOf_testbit r j :
  0 ≤ j < 32 →
  Z.testbit (maskOf r) j = true ↔ ∃ c, c ∈ r ∧ (c - 1) `mod` 32 = j.
Proof.
  intros Hj. unfold maskOf. rewrite foldl_mask_testbit by done.
  rewrite Z.bits_0. split; [by intros [?|?]|by right].
Qed.

Lemma maskOf_elem r c :
  Forall (λ c, 1 ≤ c ≤ 32) r → 1 ≤ c ≤ 32 →
  c ∈ r ↔ Z.testbit (maskOf r) (c - 1) = true.
Proof.
  intros Hr Hc. rewrite maskOf_testbit by lia. split.
  - intros ?. exists c. split; [done|]. apply Z.mod_small. lia.
  - intros (c' & Hin & Heq).
    rewrite Forall_forall in Hr. specialize (Hr _ Hin). cbn in Hr.
    rewrite Z.mod_small in Heq by lia. by replace c with c' by lia.
Qed.

(** For coins 1 to 32, equal masks mean the same set of coins. *)
Lemma maskOf_same_coins r r' :
  Forall (λ c, 1 ≤ c ≤ 32) r → Forall (λ c, 1 ≤ c ≤ 32) r' →
  maskOf r = maskOf r' → ∀ c, c ∈ r ↔ c ∈ r'.
Proof.
  intros Hr Hr' Hm c. split; intros Hin.
  - assert (1 ≤ c ≤ 32) by (rewrite Forall_forall in Hr; by apply Hr).
    apply maskOf_elem; [done..|]. rewrite <-Hm. by apply maskOf_elem.
  - assert (1 ≤ c ≤ 32) by (rewrite Forall_forall in Hr'; by apply Hr').
    apply maskOf_elem; [done..|]. rewrite Hm. by apply maskOf_elem.
Qed.

(** Past 32 the shift count wraps: coin 33 sets the bit of coin 1, and
    a verdict cached for the one is served for the other.  This is why
    [key_ok] bounds the coins; the games of the repository stop at 10. *)
Example stateKey_wraps_at_coin_33 :
  stateKey [5; 5; 0] [33] 3 2 = stateKey [5; 5; 0] [1] 3 2 ∧
  (canForceWinGivenOffer (State [5; 5; 0] [1] 3) 2
     (canForceWinGivenOffer (State [5; 5; 0] [33] 3) 2 ∅).2).1 = true ∧
  canForceWin (State [5; 5; 0] [1] 3) 2 = false.
Proof. by vm_compute. Qed.


(** ** The search without the cache *)

(** Every recursive call is on fewer coins. *)
Lemma placeCoin_shorter st b c :
  c ∈ remaining st →
  (length (remaining (placeCoin st b c)) < length (remaining st))%nat.
Proof. intros Hc. cbn. apply (length_filter_lt _ _ c); [done|]. by intros []. Qed.

Lemma placeCoin_key_ok st b c : key_ok st → key_ok (placeCoin st b c).
Proof.
  intros [Hl Hr]. split; cbn.
  - by rewrite length_alter.
  - rewrite Forall_forall in *. intros x [_ ?]%list_elem_of_filter. auto.
Qed.

Lemma existsb_same {A} (f g : A → bool) (l1 l2 : list A) :
  (∀ x, x ∈ l1 ↔ x ∈ l2) → (∀ x, x ∈ l1 → f x = g x) →
  existsb f l1 = existsb g l2.
Proof.
  intros Hl Hfg. apply eq_true_iff_eq. rewrite !existsb_exists.
  setoid_rewrite <-list_elem_of_In. split; intros (x & Hx & Hf); exists x.
  - split; [by apply Hl|]. by rewrite <-Hfg.
  - apply Hl in Hx. split; [done|]. by rewrite Hfg.
Qed.

Lemma forallb_same {A} (f g : A → bool) (l : list A) :
  (∀ x, x ∈ l → f x = g x) → forallb f l = forallb g l.
Proof.
  induction l as [|x l IH]; intros H; cbn; [done|].
  rewrite H by constructor. rewrite IH; [done|]. intros y ?. apply H. by constructor.
Qed.

Lemma search_fuel_nil f st b :
  remaining st = [] → search_fuel f st b = uniqueTop (sums st).
Proof. intros E. destruct f; cbn; by rewrite E. Qed.

Lemma search_fuel_cons f st b :
  remaining st ≠ [] →
  search_fuel (S f) st b = existsb (coinWins (search_fuel f) st b) (remaining st).
Proof.
  intros E. cbn. rewrite bool_decide_false; [done|].
  by destruct (remaining st).
Qed.

(** The cache-free search depends on the sums, the turn and the set of
    remaining coins only, and not on the fuel once it covers the coins. *)
Lemma search_fuel_ext f1 : ∀ f2 st1 st2 b,
  sums st1 = sums st2 → turn st1 = turn st2 →
  (∀ c, c ∈ remaining st1 ↔ c ∈ remaining st2) →
  (length (remaining st1) ≤ f1)%nat → (length (remaining st2) ≤ f2)%nat →
  search_fuel f1 st1 b = search_fuel f2 st2 b.
Proof.
  induction f1 as [|f1 IH]; intros f2 st1 st2 b Hs Ht Hr Hf1 Hf2.
  all: destruct (decide (remaining st1 = [])) as [E1|E1].
  all: try (assert (E2 : remaining st2 = []) by
    (destruct (remaining st2) as [|c ?] eqn:E2; [done|];
     exfalso; apply (not_elem_of_nil c); rewrite <-E1; apply Hr; constructor);
    by rewrite !search_fuel_nil, Hs by done).
  { destruct (remaining st1); [done|cbn in Hf1; lia]. }
  assert (E2 : remaining st2 ≠ []).
  { intros E2. destruct (remaining st1) as [|c ?] eqn:E; [done|].
    apply (not_elem_of_nil c). rewrite <-E2. apply Hr. constructor. }
  destruct f2 as [|f2]; [destruct (remaining st2); [done|cbn in Hf2; lia]|].
  rewrite !search_fuel_cons by done. apply existsb_same; [done|].
  intros x Hx. unfold coinWins.
  assert (Hx2 : x ∈ remaining st2) by by apply Hr.
  pose proof (placeCoin_shorter st1 b x Hx).
  pose proof (placeCoin_shorter st2 b x Hx2).
  cbn [placeCoin turn sums]. rewrite Hs, Ht.
  case_bool_decide; [done|].
  apply forallb_same. intros b2 _. apply IH; cbn [placeCoin sums turn remaining].
  - by rewrite Hs.
  - by rewrite Ht.
  - intros y. rewrite !list_elem_of_filter. by rewrite Hr.
  - cbn in *. lia.
  - cbn in *. lia.
Qed.

Lemma search_fuel_enough f st b :
  (length (remaining st) ≤ f)%nat → search_fuel f st b = search st b.
Proof. intros ?. by apply search_fuel_ext. Qed.

Lemma search_unfold st b :
  search st b =
  if bool_decide (length (remaining st) = 0%nat) then uniqueTop (sums st)
  else existsb (coinWins search st b) (remaining st).
Proof.
  unfold search at 1. case_bool_decide as E.
  { apply search_fuel_nil. by destruct (remaining st). }
  destruct (length (remaining st)) as [|n] eqn:En; [done|].
  rewrite search_fuel_cons by (by destruct (remaining st)).
  apply existsb_same; [done|].
  intros x Hx. unfold coinWins. case_bool_decide; [done|].
  apply forallb_same. intros b2 _. apply search_fuel_enough.
  pose proof (placeCoin_shorter st b x Hx). lia.
Qed.

(** Two positions with the same key have the same verdict. *)
Lemma search_same_key st b st' b' :
  key_ok st → key_ok st' →
  stateKey (sums st) (remaining st) (turn st) b =
    stateKey (sums st') (remaining st') (turn st') b' →
  search st b = search st' b'.
Proof.
  intros [Hl Hr] [Hl' Hr'] (Hs & Hm & Ht & ->)%stateKey_inj.
  apply search_fuel_ext; [by apply showAt_three_inj|done| |done..].
  by apply maskOf_same_coins.
Qed.


(** ** The cache is sound *)

Lemma memo_sound_empty : memo_sound ∅.
Proof. intros st b res _ H. by rewrite lookup_empty in H. Qed.

Lemma memo_sound_insert memo st b :
  key_ok st → memo_sound memo →
  memo_sound (<[stateKey (sums st) (remaining st) (turn st) b := search st b]> memo).
Proof.
  intros Hok Hm st' b' res Hok' Hl.
  rewrite lookup_insert in Hl. case_decide as Hk.
  - injection Hl as <-. by apply search_same_key.
  - by apply Hm.
Qed.

Section loops.
Context (f : nat → bool).
Context (call : nat → gmap string bool → bool * gmap string bool).

(** The loop over the next offers returns the conjunction of the calls'
    verdicts. *)

Lemma allNext_sound offs memo :
  (∀ b2 m, b2 ∈ offs → memo_sound m →
     ∃ m', call b2 m = (f b2, m') ∧ memo_sound m') →
  memo_sound memo →
  ∃ memo', allNext call offs memo = (forallb f offs, memo') ∧ memo_sound memo'.
Proof.
  revert memo. induction offs as [|b2 offs IH]; intros memo Hcall Hm; cbn.
  - eauto.
  - destruct (Hcall b2 memo) as (m1 & -> & Hm1); [constructor|done|].
    destruct (f b2); cbn; [|eauto].
    apply IH; [|done]. intros b3 m ??. apply Hcall; [by constructor|done].
Qed.

End loops.

(** The loop over the coins, started where the coins tried so far have
    all failed, returns the verdict of the search and caches it. *)
Lemma tryCoins_sound rec st b cs memo :
  key_ok st →
  (∀ c b2 m, c ∈ cs → memo_sound m →
     ∃ m', rec (placeCoin st b c) b2 m = (search (placeCoin st b c) b2, m')
           ∧ memo_sound m') →
  memo_sound memo →
  search st b = existsb (coinWins search st b) cs →
  ∃ memo',
    tryCoins rec st b (stateKey (sums st) (remaining st) (turn st) b) cs memo
      = (search st b, memo') ∧ memo_sound memo'.
Proof.
  intros Hok. revert memo. induction cs as [|c cs IH]; intros memo Hrec Hm Hs.
  - cbn in *. rewrite Hs. eexists; split; [done|].
    rewrite <-Hs. by apply memo_sound_insert.
  - cbn [tryCoins]. cbn [existsb] in Hs. unfold coinWins at 1 in Hs.
    assert (Hrec' : ∀ c0 b2 m, c0 ∈ cs → memo_sound m →
       ∃ m', rec (placeCoin st b c0) b2 m = (search (placeCoin st b c0) b2, m')
             ∧ memo_sound m').
    { intros c0 b2 m ??. apply Hrec; [by constructor|done]. }
    case_bool_decide.
    + destruct (uniqueTop _).
      * cbn in Hs. rewrite Hs. eexists; split; [done|].
        rewrite <-Hs. by apply memo_sound_insert.
      * cbn in Hs. by apply IH.
    + destruct (allNext_sound (search (placeCoin st b c)) (rec (placeCoin st b c))
                  (seq 0 3) memo) as (m1 & -> & Hm1); [|done|].
      { intros b2 m _ ?. apply Hrec; [constructor|done]. }
      destruct (forallb _ _).
      * cbn in Hs. rewrite Hs. eexists; split; [done|].
        rewrite <-Hs. by apply memo_sound_insert.
      * cbn in Hs. by apply IH.
Qed.

Lemma canForceWin_fuel_sound fuel : ∀ st b memo,
  key_ok st → (length (remaining st) ≤ fuel)%nat → memo_sound memo →
  ∃ memo', canForceWin_fuel fuel st b memo = (search st b, memo')
           ∧ memo_sound memo'.
Proof.
  induction fuel as [|fuel IH]; intros st b memo Hok Hf Hm.
  - destruct (remaining st) as [|??] eqn:E; [|cbn in Hf; lia].
    cbn. destruct (memo !! _) as [res|] eqn:Hl.
    + apply Hm in Hl; [|done]. subst. eauto.
    + rewrite E. cbn. rewrite (search_unfold st b), E. cbn.
      eexists; split; [done|].
      pose proof (memo_sound_insert memo st b Hok Hm) as Hi.
      by rewrite (search_unfold st b), E in Hi.
  - cbn [canForceWin_fuel]. destruct (memo !! _) as [res|] eqn:Hl.
    + apply Hm in Hl; [|done]. subst. eauto.
    + case_bool_decide as Hlen.
      * eexists; split; [by rewrite (search_unfold st b), bool_decide_true|].
        pose proof (memo_sound_insert memo st b Hok Hm) as Hi.
        by rewrite (search_unfold st b), bool_decide_true in Hi.
      * apply tryCoins_sound; [done| |done|].
        -- intros c b2 m Hc Hm'. apply IH; [by apply placeCoin_key_ok| |done].
           pose proof (placeCoin_shorter st b c Hc). lia.
        -- by rewrite (search_unfold st b), bool_decide_false.
Qed.

Lemma canForceWinGivenOffer_sound st b memo :
  key_ok st → memo_sound memo →
  ∃ memo', canForceWinGivenOffer st b memo = (search st b, memo')
           ∧ memo_sound memo'.
Proof. intros. by apply canForceWin_fuel_sound. Qed.

Lemma chooseLoop_sound st b cs memo :
  key_ok st → memo_sound memo →
  ∃ memo',
    chooseLoop st b cs memo =
      (match firstWinning st b cs with
       | Some c => Num c
       | None => mathMax (remaining st)
       end, memo') ∧ memo_sound memo'.
Proof.
  intros Hok. revert memo. induction cs as [|c cs IH]; intros memo Hm.
  - cbn. eauto.
  - cbn [chooseLoop firstWinning List.find]. unfold coinWins at 1.
    case_bool_decide.
    + destruct (uniqueTop _); [eauto|]. by apply IH.
    + destruct (allNext_sound (search (placeCoin st b c))
                  (canForceWinGivenOffer (placeCoin st b c)) (seq 0 3) memo)
        as (m1 & -> & Hm1); [|done|].
      { intros b2 m _ ?. apply canForceWinGivenOffer_sound; [|done].
        by apply placeCoin_key_ok. }
      destruct (forallb _ _); [eauto|]. by apply IH.
Qed.

(** Every cache the program can hold is sound. *)
Lemma cache_reachable_sound memo : cache_reachable memo → memo_sound memo.
Proof.
  induction 1 as [|st b memo _ IH Hok _|st b memo _ IH Hok _].
  - apply memo_sound_empty.
  - destruct (canForceWinGivenOffer_sound st b memo Hok IH) as (m' & -> & ?). done.
  - destruct (chooseLoop_sound st b (remaining st) memo Hok IH) as (m' & E & ?).
    unfold aiChooseCoinForOffer. by rewrite E.
Qed.

Lemma canForceWinGivenOffer_search st b memo :
  key_ok st → memo_sound memo → (canForceWinGivenOffer st b memo).1 = search st b.
Proof.
  intros Hok Hm.
  by destruct (canForceWinGivenOffer_sound st b memo Hok Hm) as (m' & -> & ?).
Qed.

Lemma canForceWin_search st b : key_ok st → canForceWin st b = search st b.
Proof. intros. apply canForceWinGivenOffer_search; [done|apply memo_sound_empty]. Qed.

Lemma aiChoose_search st b memo :
  key_ok st → memo_sound memo →
  (aiChooseCoinForOffer st b memo).1 =
    match firstWinning st b (remaining st) with
    | Some c => Num c
    | None => mathMax (remaining st)
    end.
Proof.
  intros Hok Hm. unfold aiChooseCoinForOffer.
  by destruct (chooseLoop_sound st b (remaining st) memo Hok Hm) as (m' & -> & ?).
Qed.


(** ** Fuel *)

Lemma allNext_ext call1 call2 offs memo :
  (∀ b2 m, call1 b2 m = call2 b2 m) →
  allNext call1 offs memo = allNext call2 offs memo.
Proof.
  intros H. revert memo. induction offs as [|b2 offs IH]; intros memo; cbn; [done|].
  rewrite H. destruct (call2 b2 memo) as [[] ?]; [apply IH|done].
Qed.

Lemma tryCoins_ext rec1 rec2 st b key cs memo :
  (∀ c b2 m, c ∈ cs → rec1 (placeCoin st b c) b2 m = rec2 (placeCoin st b c) b2 m) →
  tryCoins rec1 st b key cs memo = tryCoins rec2 st b key cs memo.
Proof.
  revert memo. induction cs as [|c cs IH]; intros memo H; cbn [tryCoins]; [done|].
  assert (∀ m, tryCoins rec1 st b key cs m = tryCoins rec2 st b key cs m) as IH'.
  { intros m. apply IH. intros c' b2 m' ?. apply H. by constructor. }
  case_bool_decide; [by destruct (uniqueTop _)|].
  rewrite (allNext_ext (rec1 (placeCoin st b c)) (rec2 (placeCoin st b c))).
  - destruct (allNext _ _ _) as [[] ?]; [done|apply IH'].
  - intros b2 m. apply H. constructor.
Qed.

(** Any fuel that covers the remaining coins gives the result of
    [canForceWinGivenOffer], whatever the cache holds: the recursion of the
    source ends after at most one level per coin. *)
Lemma canForceWin_fuel_enough fuel : ∀ st b memo,
  (length (remaining st) ≤ fuel)%nat →
  canForceWin_fuel fuel st b memo = canForceWinGivenOffer st b memo.
Proof.
  unfold canForceWinGivenOffer.
  induction fuel as [fuel IH] using lt_wf_ind. intros st b memo Hf.
  destruct fuel as [|fuel].
  { by replace (length (remaining st)) with 0%nat by lia. }
  destruct (length (remaining st)) as [|n] eqn:En.
  { cbn. destruct (memo !! _); [done|]. by rewrite En. }
  cbn [canForceWin_fuel]. destruct (memo !! _); [done|].
  case_bool_decide; [done|]. apply tryCoins_ext.
  intros c b2 m Hc. pose proof (placeCoin_shorter st b c Hc) as Hlt.
  rewrite (IH fuel) by lia. rewrite (IH n) by lia. done.
Qed.

Lemma canForceWin_fuel_enough_witness :
  canForceWin_fuel 9 opening 0 ∅ = canForceWinGivenOffer opening 0 ∅.
Proof. apply (canForceWin_fuel_enough 9 opening 0 ∅). cbn. lia. Defined.


(** ** The solver's contract *)

Lemma forallb_seq3 (f : nat → bool) :
  forallb f (seq 0 3) = true ↔ ∀ b2, (b2 < 3)%nat → f b2 = true.
Proof.
  cbn. rewrite !andb_true_iff. split.
  - intros (? & ? & ? & _) [|[|[|b2]]] ?; [done..|lia].
  - intros H. split_and!; [apply H; lia..|done].
Qed.

(** On the states of the data model the test the loops make of a coin is
    the property [forcing]. *)
Lemma coinWins_forcing st b c :
  key_ok st → turn_ok st → c ∈ remaining st →
  coinWins search st b c = true ↔ forcing st b c.
Proof.
  intros Hok Hturn Hc. unfold coinWins, forcing, turn_ok in *.
  pose proof (placeCoin_key_ok st b c Hok) as Hok'.
  pose proof (placeCoin_shorter st b c Hc) as Hlen.
  set (next := placeCoin st b c) in *.
  assert (Ht : turn next = turn st + 1) by done.
  assert (Hcf : ∀ b2, canForceWin next b2 = search next b2)
    by (intros; by apply canForceWin_search).
  setoid_rewrite Hcf. rewrite winner_uniqueTop.
  case_bool_decide as H4.
  - assert (remaining next = []) as Hnil.
    { destruct (remaining next); [done|]. cbn in Hlen. lia. }
    assert (Hs : ∀ b2, search next b2 = uniqueTop (sums next)).
    { intros b2. rewrite search_unfold, Hnil. done. }
    split; [intros ?; left; split; [lia|done]|].
    intros [[_ ?]|Hall]; [done|]. rewrite <-(Hs 0%nat). apply Hall. lia.
  - rewrite forallb_seq3. split; [by right|]. intros [[? _]|?]; [lia|done].
Qed.

Lemma coinWins_succeeds st b c :
  key_ok st → turn_ok st → c ∈ remaining st →
  coinWins search st b c = true ↔ succeeds st b c.
Proof.
  intros Hok Hturn Hc. unfold coinWins, succeeds, turn_ok in *.
  pose proof (placeCoin_key_ok st b c Hok) as Hok'.
  pose proof (placeCoin_shorter st b c Hc) as Hlen.
  set (next := placeCoin st b c) in *.
  assert (Ht : turn next = turn st + 1) by done.
  assert (Hcf : ∀ b2, canForceWin next b2 = search next b2)
    by (intros; by apply canForceWin_search).
  setoid_rewrite Hcf. rewrite winner_uniqueTop.
  case_bool_decide as H4.
  - split; [intros ?; left; split; [lia|done]|].
    intros [[_ ?]|[? _]]; [done|lia].
  - rewrite forallb_seq3. split; [intros ?; right; split; [lia|done]|].
    intros [[? _]|[_ ?]]; [lia|done].
Qed.

Lemma mathMax_spec xs :
  xs ≠ [] → ∃ m, mathMax xs = Num m ∧ m ∈ xs ∧ ∀ x, x ∈ xs → x ≤ m.
Proof.
  induction xs as [|x xs IH]; [done|]. intros _.
  destruct xs as [|y xs].
  - exists x. cbn. split_and!; [done|constructor|].
    intros ? ->%list_elem_of_singleton. lia.
  - destruct IH as (m & Hm & Hin & Hmax); [done|].
    change (mathMax (x :: y :: xs)) with
      (match mathMax (y :: xs) with
       | NegInfinity => Num x | Num m => Num (Z.max x m) end).
    rewrite Hm. exists (Z.max x m). split_and!; [done| |].
    + destruct (Z.max_spec x m) as [[_ ->]|[_ ->]]; [by constructor|constructor].
    + intros z [->|Hz]%elem_of_cons; [lia|]. specialize (Hmax z Hz). lia.
Qed.

Lemma find_first {A} (p : A → bool) (l : list A) :
  match List.find p l with
  | Some x => ∃ l1 l2, l = l1 ++ x :: l2 ∧ p x = true ∧ ∀ y, y ∈ l1 → p y = false
  | None => ∀ y, y ∈ l → p y = false
  end.
Proof.
  induction l as [|a l IH]; cbn.
  - intros y Hy. by apply elem_of_nil in Hy.
  - destruct (p a) eqn:Ha.
    + exists [], l. split_and!; [done..|]. intros y Hy. by apply elem_of_nil in Hy.
    + destruct (List.find p l) as [x|].
      * destruct IH as (l1 & l2 & -> & Hx & Hl1).
        exists (a :: l1), l2. split_and!; [done..|].
        intros y [->|?]%elem_of_cons; auto.
      * intros y [->|?]%elem_of_cons; auto.
Qed.

Lemma sorted_before (l1 l2 : list Z) x y :
  StronglySorted Z.lt (l1 ++ x :: l2) → y ∈ l1 ++ x :: l2 → y < x → y ∈ l1.
Proof.
  intros Hs Hy Hlt. apply elem_of_app in Hy as [?|Hy]; [done|].
  apply StronglySorted_app_1_r in Hs. inversion Hs as [|?? _ Hall]; subst.
  apply elem_of_cons in Hy as [->|Hy]; [lia|].
  rewrite Forall_forall in Hall. specialize (Hall _ Hy). lia.
Qed.

Lemma opening_ok : key_ok opening ∧ turn_ok opening.
Proof.
  split; [split; [done|]|done].
  cbn. repeat constructor; lia.
Qed.

(** C1: on a non-terminal state of the data model, with basket [b] on offer
    and whatever cache the program holds, [canForceWinGivenOffer] returns
    true iff some remaining coin [c] passes the test [succeeds]: placed
    into [b] it is the last coin and ends the game with the placer
    winning, or it is not the last coin and leaves a state on which
    [canForceWin] is true for each of the three baskets the presenter may
    offer next (the same one and empty ones included).  It returns false
    exactly when there is no such coin.  The three next offers count only
    for a coin that is not the last one, so the recursion bottoms out in
    the terminal evaluation; and the result is that of the cache-free
    recursion [search]. *)
Theorem canForceWin_iff_forcing_coin st b memo :
  key_ok st → turn_ok st → remaining st ≠ [] → (b < 3)%nat →
  cache_reachable memo →
  ((canForceWinGivenOffer st b memo).1 = true ↔
     ∃ c, c ∈ remaining st ∧ succeeds st b c) ∧
  ((canForceWinGivenOffer st b memo).1 = false ↔
     ¬ ∃ c, c ∈ remaining st ∧ succeeds st b c) ∧
  (canForceWinGivenOffer st b memo).1 = search st b.
Proof.
  intros Hok Hturn Hne Hb Hm%cache_reachable_sound.
  rewrite canForceWinGivenOffer_search by done.
  assert (search st b = true ↔ ∃ c, c ∈ remaining st ∧ succeeds st b c) as Hiff.
  { rewrite search_unfold, bool_decide_false by (by destruct (remaining st)).
    rewrite existsb_exists. setoid_rewrite <-list_elem_of_In.
    split; intros (c & Hc & Hw); exists c; (split; [done|]);
      by apply coinWins_succeeds. }
  split; [done|]. split; [|done]. rewrite <-Hiff. by destruct (search st b).
Qed.

(** At sums [4,5,0] with coin 1 left, turn 3 and basket 0 on offer, the
    last coin ties 5 to 5: no coin passes the test and the solver
    returns false. *)
Lemma canForceWin_iff_forcing_coin_witness :
  (canForceWinGivenOffer (State [4; 5; 0] [1] 3) 0 ∅).1 = false ∧
  ¬ ∃ c, c ∈ remaining (State [4; 5; 0] [1] 3) ∧
         succeeds (State [4; 5; 0] [1] 3) 0 c.
Proof.
  assert (Hok : key_ok (State [4; 5; 0] [1] 3)).
  { split; [reflexivity|]. repeat constructor; lia. }
  destruct (canForceWin_iff_forcing_coin (State [4; 5; 0] [1] 3) 0 ∅ Hok)
    as (_ & Hfalse & _).
  - reflexivity.
  - discriminate.
  - lia.
  - constructor.
  - assert (Hres : (canForceWinGivenOffer (State [4; 5; 0] [1] 3) 0 ∅).1 = false)
      by (vm_compute; reflexivity).
    split; [exact Hres|]. apply Hfalse, Hres.
Defined.

(** The invariant [turn = 4 - |remaining|] is what makes the two cases of
    [forcing] exclusive.  On a state outside the data model (three coins
    left at turn 3) coin 1 ties at once, which the loop takes for a
    failure, although every continuation from there would win. *)
Example forcing_off_the_data_model :
  canForceWin (State [4; 4; 0] [1; 2; 4] 3) 2 = false ∧
  forcing (State [4; 4; 0] [1; 2; 4] 3) 2 1.
Proof.
  split; [by vm_compute|]. right. intros [|[|[|b2]]] Hb2; [by vm_compute..|lia].
Qed.

(** C3: in the four-coin game, from sums [0,0,0], coins {1,2,3,4}, turn 0
    and basket 0 on offer, the placer can force a win, and
    [aiChooseCoinForOffer] returns a remaining coin after which
    [canForceWinGivenOffer] holds for each of the three next offers. *)
Theorem opening_is_won_by_placer memo :
  cache_reachable memo →
  (canForceWinGivenOffer opening 0 memo).1 = true ∧
  ∃ c, (aiChooseCoinForOffer opening 0 memo).1 = Num c ∧
       c ∈ remaining opening ∧
       ∀ b, (b < 3)%nat →
         (canForceWinGivenOffer (placeCoin opening 0 c) b memo).1 = true.
Proof.
  intros Hm%cache_reachable_sound. destruct opening_ok as [Hok _].
  rewrite canForceWinGivenOffer_search, aiChoose_search by done.
  split; [by vm_compute|].
  exists 1. split; [by vm_compute|]. split; [by left|].
  intros b Hb.
  rewrite canForceWinGivenOffer_search by (by try apply placeCoin_key_ok).
  destruct b as [|[|[|b]]]; [by vm_compute..|lia].
Qed.

Lemma opening_is_won_by_placer_witness :
  (canForceWinGivenOffer opening 0 ∅).1 = true ∧
  ∃ c, (aiChooseCoinForOffer opening 0 ∅).1 = Num c ∧
       c ∈ remaining opening ∧
       ∀ b, (b < 3)%nat →
         (canForceWinGivenOffer (placeCoin opening 0 c) b ∅).1 = true.
Proof. apply (opening_is_won_by_placer ∅). constructor. Defined.

(** C4: on a state of the data model with coins left (the array of
    remaining coins ascending, as [newGame] and [filter] keep it) and basket
    [b] on offer, [aiChooseCoinForOffer] returns a remaining coin: the
    smallest forcing one when there is a forcing coin, and the largest
    remaining coin when there is none. *)
Theorem chooseCoin_first_forcing_else_largest st b memo :
  key_ok st → turn_ok st → remaining st ≠ [] →
  StronglySorted Z.lt (remaining st) → (b < 3)%nat → cache_reachable memo →
  ∃ c, (aiChooseCoinForOffer st b memo).1 = Num c ∧ c ∈ remaining st ∧
    ((forcing st b c ∧
      ∀ c', c' ∈ remaining st → c' < c → ¬ forcing st b c') ∨
     ((∀ c', c' ∈ remaining st → ¬ forcing st b c') ∧
      ∀ c', c' ∈ remaining st → c' ≤ c)).
Proof.
  intros Hok Hturn Hne Hsorted Hb Hm%cache_reachable_sound.
  rewrite aiChoose_search by done. unfold firstWinning.
  pose proof (find_first (coinWins search st b) (remaining st)) as Hf.
  destruct (List.find _ _) as [c|].
  - destruct Hf as (l1 & l2 & Hl & Hc & Hl1).
    assert (c ∈ remaining st) by (rewrite Hl; set_solver).
    exists c. split_and!; [done..|]. left. split; [by apply coinWins_forcing|].
    intros c' Hc' Hlt Hforce. apply coinWins_forcing in Hforce; [|done..].
    rewrite Hl in Hsorted, Hc'.
    pose proof (sorted_before _ _ _ _ Hsorted Hc' Hlt) as Hin.
    rewrite (Hl1 _ Hin) in Hforce. done.
  - destruct (mathMax_spec (remaining st) Hne) as (m & -> & Hin & Hmax).
    exists m. split_and!; [done..|]. right. split; [|done].
    intros c' Hc' Hforce. apply coinWins_forcing in Hforce; [|done..].
    rewrite (Hf _ Hc') in Hforce. done.
Qed.

Lemma chooseCoin_first_forcing_else_largest_witness :
  ∃ c, (aiChooseCoinForOffer opening 0 ∅).1 = Num c ∧ c ∈ remaining opening ∧
    ((forcing opening 0 c ∧
      ∀ c', c' ∈ remaining opening → c' < c → ¬ forcing opening 0 c') ∨
     ((∀ c', c' ∈ remaining opening → ¬ forcing opening 0 c') ∧
      ∀ c', c' ∈ remaining opening → c' ≤ c)).
Proof.
  destruct opening_ok as [H1 H2].
  apply (chooseCoin_first_forcing_else_largest opening 0 ∅ H1 H2);
    [done| |lia|constructor].
  cbn. repeat constructor; lia.
Defined.

(** The loop follows the order of the array: on an array that is not
    ascending (no state of the program has one) the coin returned is the
    first forcing coin of the array, not the smallest. *)
Example chooseCoin_follows_array_order :
  chooseCoin opening 0 = Num 1 ∧
  chooseCoin (State [0; 0; 0] [4; 3; 2; 1] 0) 0 = Num 4.
Proof. by vm_compute. Qed.

(** C5: the results of [canForceWinGivenOffer] and [aiChooseCoinForOffer]
    are functions of (sums, remaining, turn, basket) alone.  From any two
    caches the program can hold (built by any sequence of earlier calls,
    cleared or not) both return the same, namely what they return from a
    cleared cache, and every cached verdict is the verdict of the search
    that uses no cache. *)
Theorem solver_is_cache_independent st b memo1 memo2 :
  key_ok st → (b < 3)%nat → cache_reachable memo1 → cache_reachable memo2 →
  (canForceWinGivenOffer st b memo1).1 = (canForceWinGivenOffer st b memo2).1 ∧
  (aiChooseCoinForOffer st b memo1).1 = (aiChooseCoinForOffer st b memo2).1 ∧
  (canForceWinGivenOffer st b memo1).1 = canForceWin st b ∧
  (aiChooseCoinForOffer st b memo1).1 = chooseCoin st b ∧
  (canForceWinGivenOffer st b memo1).1 = search st b ∧
  (∀ res,
     memo1 !! stateKey (sums st) (remaining st) (turn st) b = Some res →
     res = search st b ∧ res = canForceWin st b).
Proof.
  intros Hok Hb Hm1 Hm2.
  pose proof (cache_reachable_sound _ Hm1) as Hs1.
  pose proof (cache_reachable_sound _ Hm2) as Hs2.
  pose proof memo_sound_empty as Hs0.
  unfold canForceWin, chooseCoin.
  rewrite !canForceWinGivenOffer_search, !aiChoose_search by done.
  split_and!; try done.
  intros res Hres. split; by apply Hs1.
Qed.

Lemma solver_is_cache_independent_witness :
  (canForceWinGivenOffer opening 0 (canForceWinGivenOffer opening 1 ∅).2).1
   = (canForceWinGivenOffer opening 0 ∅).1.
Proof.
  destruct opening_ok as [H1 _].
  refine (proj1 (solver_is_cache_independent opening 0
            (canForceWinGivenOffer opening 1 ∅).2 ∅ H1 _ _ _)).
  - lia.
  - apply cache_solve; [constructor|done|lia].
  - constructor.
Defined.

(** C6, as stated, fails: called on a terminal state (no coin left, turn
    4, sums [7,2,1]) the solver raises nothing; it returns a boolean and
    caches it under the key of the state. *)
Lemma canForceWin_on_terminal_state_returns :
  let r := canForceWinGivenOffer (State [7; 2; 1] [] 4) 0 ∅ in
  r.1 = true ∧ r.2 !! "7,2,1|0|4|0" = Some true.
Proof. vm_compute. split; reflexivity. Qed.

(** C6, amended: on a state with no coin left [canForceWinGivenOffer]
    raises nothing.  It returns the terminal evaluation of the sums as an
    ordinary boolean, true iff the verdict is for the placer, and when the
    key was not cached yet it caches that boolean under the key. *)
Theorem canForceWin_terminal_is_evaluation st b memo :
  key_ok st → remaining st = [] → (b < 3)%nat → cache_reachable memo →
  (canForceWinGivenOffer st b memo).1 = uniqueTop (sums st) ∧
  ((canForceWinGivenOffer st b memo).1 = true ↔
     winner (endGameVerdict (sums st)) = Placer) ∧
  (memo !! stateKey (sums st) (remaining st) (turn st) b = None →
   (canForceWinGivenOffer st b memo).2
   = <[stateKey (sums st) (remaining st) (turn st) b := uniqueTop (sums st)]> memo).
Proof.
  intros Hok Hnil Hb Hm%cache_reachable_sound. split_and!.
  - rewrite canForceWinGivenOffer_search by done.
    by rewrite search_unfold, Hnil.
  - rewrite canForceWinGivenOffer_search by done.
    by rewrite search_unfold, Hnil, winner_uniqueTop.
  - intros Hnone. unfold canForceWinGivenOffer. rewrite Hnil at 1.
    cbn [length canForceWin_fuel]. rewrite Hnone. by rewrite Hnil.
Qed.

Lemma canForceWin_terminal_is_evaluation_witness :
  (canForceWinGivenOffer (State [7; 2; 1] [] 4) 0 ∅).1 = uniqueTop [7; 2; 1].
Proof.
  refine (proj1 (canForceWin_terminal_is_evaluation (State [7; 2; 1] [] 4) 0 ∅ _ _ _ _)).
  - split; [done|constructor].
  - done.
  - lia.
  - constructor.
Defined.


(** ** The single-page game *)

Lemma sumList_app xs ys : sumList (xs ++ ys) = sumList xs + sumList ys.
Proof. induction xs as [|x xs IH]; cbn; [done|]. rewrite IH. lia. Qed.

Lemma sumList_perm xs ys : xs ≡ₚ ys → sumList xs = sumList ys.
Proof. induction 1; cbn; lia. Qed.


Lemma sorted_lt_NoDup (l : list Z) : StronglySorted Z.lt l → NoDup l.
Proof.
  induction 1 as [|x l _ IH Hall]; constructor; [|done].
  intros Hin. rewrite Forall_forall in Hall. specialize (Hall _ Hin). lia.
Qed.

Lemma sorted_lt_filter (P : Z → Prop) `{∀ x, Decision (P x)} (l : list Z) :
  StronglySorted Z.lt l → StronglySorted Z.lt (filter P l).
Proof.
  induction 1 as [|x l _ IH Hall]; [constructor|].
  rewrite filter_cons. case_decide; [|done].
  constructor; [done|]. rewrite Forall_forall in *.
  intros y [_ ?]%list_elem_of_filter. auto.
Qed.

(** Taking a coin that is there out of a duplicate-free array. *)
Lemma take_out_coin (l : list Z) v :
  NoDup l → v ∈ l → l ≡ₚ v :: filter (λ x, x ≠ v) l.
Proof.
  induction 1 as [|x l Hx Hnd IH]; intros Hv.
  - by apply elem_of_nil in Hv.
  - rewrite filter_cons. destruct (decide (x = v)) as [->|Hne].
    + rewrite decide_False by (intros ?; done).
      f_equiv. symmetry. clear IH Hnd Hv.
      induction l as [|y l IH]; [done|].
      rewrite filter_cons. rewrite not_elem_of_cons in Hx. destruct Hx.
      rewrite decide_True by done. f_equal. auto.
    + rewrite decide_True by done. apply elem_of_cons in Hv as [->|Hv]; [done|].
      rewrite (IH Hv) at 1. apply Permutation_swap.
Qed.

Lemma concat_alter_snoc (bs : list (list Z)) idx v :
  (idx < length bs)%nat →
  concat (alter (λ b, b ++ [v]) idx bs) ≡ₚ v :: concat bs.
Proof.
  revert idx. induction bs as [|b bs IH]; intros [|idx] Hlt; cbn in *; try lia.
  - rewrite <-app_assoc. cbn. by rewrite <-Permutation_middle.
  - rewrite IH by lia. by rewrite <-Permutation_middle.
Qed.

Lemma game_inv_initial : game_inv initialGame.
Proof.
  constructor; cbn; try done.
  all: repeat constructor; lia.
Qed.

Lemma game_inv_coin_range g :
  game_inv g → Forall (λ c, 1 ≤ c ≤ 32) (remainingCoins g).
Proof.
  intros Hinv. rewrite Forall_forall. intros c Hc.
  assert (c ∈ [1; 2; 3; 4]) as Hin.
  { rewrite <-(inv_coins g Hinv). apply elem_of_app. by right. }
  repeat (apply elem_of_cons in Hin as [->|Hin]; [lia|]).
  by apply elem_of_nil in Hin.
Qed.

Lemma game_inv_key_ok g :
  game_inv g →
  key_ok {| sums := gSums g; remaining := remainingCoins g; turn := gTurn g |}.
Proof.
  intros Hinv. split; cbn.
  - by rewrite (inv_sums g Hinv), length_fmap, (inv_three g Hinv).
  - by apply game_inv_coin_range.
Qed.

Lemma game_inv_newGame g : game_inv g → game_inv (newGame (clearMemo g)).
Proof.
  intros Hinv. constructor; cbn; try done.
  all: try (repeat constructor; lia).
  apply Hinv.
Qed.

Lemma game_inv_offerBasket aiMode idx g :
  game_inv g → (idx < 3)%nat → game_inv (offerBasket aiMode idx g).
Proof.
  intros Hinv Hidx. unfold offerBasket.
  destruct (awaitingOffer g) eqn:Haw; cbn [negb]; [|done].
  pose proof (inv_phase g Hinv) as Hph. rewrite Haw in Hph.
  symmetry in Hph. apply bool_decide_eq_true in Hph as [Hnone Hlt].
  destruct aiMode.
  - destruct (aiChooseCoinForOffer _ idx (memo g)) as [best memo'] eqn:E.
    constructor; cbn; try apply Hinv; try done.
    + intros ? [= <-]. done.
    + apply Forall_app. split; [apply Hinv|]. constructor; [done|constructor].
    + replace memo' with
        (aiChooseCoinForOffer
           {| sums := gSums g; remaining := remainingCoins g; turn := gTurn g |}
           idx (memo g)).2 by (by rewrite E).
      apply cache_choose; [apply Hinv|by apply game_inv_key_ok|done].
  - constructor; cbn; try apply Hinv; try done.
    intros ? [= <-]. done.
Qed.

Lemma game_inv_popTimer g : game_inv g → game_inv (popTimer g).
Proof.
  intros Hinv. constructor; cbn; try apply Hinv.
  pose proof (inv_timers g Hinv) as Ht.
  destruct (timers g); [done|]. by inversion Ht.
Qed.

(** What an accepted placement does to the variables of the page. *)
Lemma doPlace_accepted v idx g :
  game_inv g → (idx < 3)%nat → awaitingOffer g = false → v ∈ remainingCoins g →
  let g' := doPlace (Num v) idx g in
  baskets g' = alter (λ b, b ++ [v]) idx (baskets g) ∧
  gSums g' = alter (λ s, s + v) idx (gSums g) ∧
  remainingCoins g' = filter (λ x, x ≠ v) (remainingCoins g) ∧
  gTurn g' = gTurn g + 1 ∧
  currentOffered g' = None ∧
  awaitingOffer g' = bool_decide (gTurn g + 1 < 4) ∧
  resultBanner g' =
    (if bool_decide (4 ≤ gTurn g + 1) then Some (endGameVerdict (gSums g'))
     else resultBanner g) ∧
  movesList g' = movesList g ++ [MoveLine (gTurn g + 1) (idx + 1) v] ∧
  memo g' = memo g ∧ timers g' = timers g.
Proof.
  intros Hinv Hidx Haw Hv. unfold doPlace. rewrite Haw.
  rewrite bool_decide_true by done.
  destruct (baskets g !! idx) as [b|] eqn:Hb.
  2:{ apply lookup_ge_None in Hb. rewrite (inv_three g Hinv) in Hb. lia. }
  cbn [gTurn]. case_bool_decide; cbn.
  - rewrite bool_decide_false by lia. done.
  - rewrite bool_decide_true by lia. done.
Qed.

Lemma game_inv_doPlace v idx g :
  game_inv g → (idx < 3)%nat → game_inv (doPlace v idx g).
Proof.
  intros Hinv Hidx.
  destruct v as [v|]; [|by unfold doPlace; destruct (awaitingOffer g)].
  destruct (awaitingOffer g) eqn:Haw; [by unfold doPlace; rewrite Haw|].
  destruct (decide (v ∈ remainingCoins g)) as [Hv|Hv].
  2:{ unfold doPlace. by rewrite Haw, bool_decide_false. }
  destruct (doPlace_accepted v idx g Hinv Hidx Haw Hv)
    as (Hb & Hs & Hr & Ht & Hco & Hao & Hbn & _ & Hm & Htm).
  pose proof (sorted_lt_NoDup _ (inv_sorted g Hinv)) as Hnd.
  pose proof (take_out_coin _ v Hnd Hv) as Hperm.
  assert (Hlen : length (remainingCoins g)
                 = S (length (filter (λ x, x ≠ v) (remainingCoins g)))).
  { by rewrite Hperm at 1. }
  pose proof (inv_turn g Hinv) as Hturn.
  constructor.
  - rewrite Ht, Hr. lia.
  - rewrite Hs, Hb, (inv_sums g Hinv).
    symmetry. apply list_fmap_alter, Forall_forall.
    intros b _. rewrite sumList_app. cbn. lia.
  - rewrite Hb, length_alter. apply Hinv.
  - rewrite Hb, Hr, concat_alter_snoc by (rewrite (inv_three g Hinv); lia).
    rewrite <-(inv_coins g Hinv). rewrite Hperm at 2.
    cbn. by rewrite <-Permutation_middle.
  - rewrite Hr. by apply sorted_lt_filter, Hinv.
  - rewrite Hao, Hco, Ht. apply bool_decide_ext.
    split; [by intros ?|by intros [_ ?]].
  - intros i. rewrite Hco. intros [=].
  - rewrite Hbn, Ht. rewrite (inv_banner g Hinv).
    repeat case_bool_decide; try done; lia.
  - rewrite Htm. apply Hinv.
  - rewrite Hm. apply Hinv.
Qed.

Lemma game_inv_handle e g : game_inv g → event_ok e → game_inv (handle e g).
Proof.
  intros Hinv He. destruct e as [aiMode idx|val| |]; cbn in *.
  - by apply game_inv_offerBasket.
  - destruct (currentOffered g) as [idx|] eqn:Hco; [|done].
    apply game_inv_doPlace; [done|]. by apply (inv_offer g Hinv).
  - destruct (timers g) as [|[best idx] ts] eqn:Ht; [done|].
    apply game_inv_doPlace; [by apply game_inv_popTimer|].
    pose proof (inv_timers g Hinv) as Hall. rewrite Ht in Hall.
    by inversion Hall.
  - by apply game_inv_newGame.
Qed.

Lemma reachable_inv g : reachable g → game_inv g.
Proof.
  induction 1; [apply game_inv_initial|by apply game_inv_handle].
Qed.

Lemma run_reachable es : Forall event_ok es → reachable (run es).
Proof.
  unfold run. induction es as [|e es IH] using rev_ind; intros Hall.
  - constructor.
  - rewrite foldl_app. cbn. apply Forall_app in Hall as [Hes He].
    apply reach_step; [by apply IH|by inversion He].
Qed.

Lemma offerBasket_not_awaiting aiMode idx g :
  awaitingOffer g = false → offerBasket aiMode idx g = g.
Proof. intros H. unfold offerBasket. by rewrite H. Qed.

Lemma offerBasket_closes aiMode idx g :
  awaitingOffer (offerBasket aiMode idx g) = false.
Proof.
  unfold offerBasket. destruct (awaitingOffer g) eqn:E; cbn [negb]; [|done].
  destruct aiMode; [|done]. by destruct (aiChooseCoinForOffer _ _ _).
Qed.

Lemma offerBasket_accepted aiMode idx g :
  awaitingOffer g = true →
  let g' := offerBasket aiMode idx g in
  baskets g' = baskets g ∧ gSums g' = gSums g ∧
  remainingCoins g' = remainingCoins g ∧ gTurn g' = gTurn g ∧
  currentOffered g' = Some idx ∧ awaitingOffer g' = false.
Proof.
  intros H. unfold offerBasket. rewrite H. cbn [negb].
  destruct aiMode; [|done]. by destruct (aiChooseCoinForOffer _ _ _).
Qed.

(** A placement with no offer pending, or of a coin that is not there,
    changes nothing. *)
Lemma doPlace_rejected v idx g :
  awaitingOffer g = true ∨ v ∉ remainingCoins g → doPlace (Num v) idx g = g.
Proof.
  unfold doPlace. intros [->|Hv]; [done|].
  destruct (awaitingOffer g); [done|]. by rewrite bool_decide_false.
Qed.

Lemma clickCoin_rejected v g :
  currentOffered g = None ∨ awaitingOffer g = true ∨ v ∉ remainingCoins g →
  handle (ClickCoin v) g = g.
Proof.
  cbn. intros [->|H]; [done|]. destruct (currentOffered g); [|done].
  by apply doPlace_rejected.
Qed.

(** In a room, a placement with no offer pending or of a coin that is
    not there throws, and the transaction stores nothing. *)
Lemma placeUpdate_rejected uid roomData now coin cur :
  rCurrentOffered cur = None ∨ (∀ rem, rRemaining cur = Some rem → coin ∉ rem) →
  ∃ message,
    placeUpdate uid roomData now coin (Some cur) = Threw message ∧
    runTransaction (placeUpdate uid roomData now coin) (Some cur)
      = (Threw message, Some cur).
Proof.
  intros H.
  assert (∃ message, placeUpdate uid roomData now coin (Some cur) = Threw message)
    as [message E].
  { cbn. destruct H as [->|H]; [eauto|].
    destruct (rCurrentOffered cur); [|eauto].
    case_bool_decide; [eauto|].
    destruct (rRemaining cur) as [rem|]; [|eauto].
    rewrite bool_decide_false by (by apply H). eauto. }
  exists message. split; [done|]. unfold runTransaction. by rewrite E.
Qed.

(** What does hold of a rejected placement: with no offer pending, or
    with a coin that is not among the remaining ones, [doPlace] and the
    click on a coin button leave every variable of the page as it was, and
    in a room the callback throws and the transaction stores nothing. *)
Theorem placement_rejected_without_offer_or_coin :
  (∀ g v idx,
     awaitingOffer g = true ∨ v ∉ remainingCoins g →
     doPlace (Num v) idx g = g) ∧
  (∀ g v,
     currentOffered g = None ∨ awaitingOffer g = true ∨ v ∉ remainingCoins g →
     handle (ClickCoin v) g = g) ∧
  (∀ uid roomData now coin cur,
     rCurrentOffered cur = None ∨
       (∀ rem, rRemaining cur = Some rem → coin ∉ rem) →
     ∃ message,
       placeUpdate uid roomData now coin (Some cur) = Threw message ∧
       runTransaction (placeUpdate uid roomData now coin) (Some cur)
         = (Threw message, Some cur)).
Proof.
  split_and!.
  - intros. by apply doPlace_rejected.
  - intros. by apply clickCoin_rejected.
  - intros. by apply placeUpdate_rejected.
Qed.

Lemma placement_rejected_without_offer_or_coin_witness :
  doPlace (Num 7) 0 (offerBasket false 0 initialGame)
  = offerBasket false 0 initialGame.
Proof.
  apply (proj1 placement_rejected_without_offer_or_coin).
  right. cbn. intros Hin.
  repeat (apply elem_of_cons in Hin as [Hin|Hin]; [lia|]).
  by apply elem_of_nil in Hin.
Defined.

(** A round in a room: the presenter offers basket 1, the placer puts
    coin 3 there. *)
Example room_offer_then_place :
  let s1 := offerUpdate (Some "presenter") (Some (Room (Some "presenter") (Some "placer")))
              1 (Some (initialState 4)) in
  ∃ cur,
    s1 = Returned (Some cur) ∧
    rCurrentOffered cur = Some 1%nat ∧ rPhase cur = placing ∧
    ∃ cur',
      placeUpdate (Some "placer") (Some (Room (Some "presenter") (Some "placer")))
        1000 3 (Some cur) = Returned (Some cur') ∧
      rSums cur' = Some [Some 0; Some 3; Some 0] ∧
      rRemaining cur' = Some [1; 2; 4] ∧
      rTurn cur' = Some 1 ∧
      rCurrentOffered cur' = None ∧
      rPhase cur' = offering.
Proof.
  eexists. split; [by vm_compute|]. split; [done|]. split; [done|].
  eexists. split; [by vm_compute|]. by vm_compute.
Qed.



(** C8: an offer made while an offer is pending or after the last coin is
    rejected and changes nothing.  On the page [offerBasket] returns at
    once, so a second offer in a row is a no-op; in a room the callback
    throws (a second offer in a row: "Already offered") and the
    transaction stores nothing. *)
Theorem offer_rejected_when_pending_or_terminal :
  (∀ g aiMode idx,
     reachable g → is_Some (currentOffered g) ∨ gTurn g = 4 →
     offerBasket aiMode idx g = g) ∧
  (∀ g aiMode idx aiMode' idx',
     offerBasket aiMode' idx' (offerBasket aiMode idx g)
       = offerBasket aiMode idx g) ∧
  (∀ uid roomData idx cur,
     is_Some (rCurrentOffered cur) ∨
       jsGe (rTurn cur) (orElse (rCoinCount cur) 4) = true →
     ∃ message,
       offerUpdate uid roomData idx (Some cur) = Threw message ∧
       runTransaction (offerUpdate uid roomData idx) (Some cur)
         = (Threw message, Some cur)) ∧
  (∀ uid roomData idx idx' cur cur',
     offerUpdate uid roomData idx (Some cur) = Returned (Some cur') →
     offerUpdate uid roomData idx' (Some cur') = Threw "Already offered").
Proof.
  split_and!.
  - intros g aiMode idx Hinv%reachable_inv Hpend.
    apply offerBasket_not_awaiting. rewrite (inv_phase g Hinv).
    apply bool_decide_eq_false. intros [Hnone Hlt].
    destruct Hpend as [[? Hsome]|?]; [congruence|lia].
  - intros. apply offerBasket_not_awaiting, offerBasket_closes.
  - intros uid roomData idx cur Hpend.
    assert (∃ message, offerUpdate uid roomData idx (Some cur) = Threw message)
      as [message E].
    { cbn. case_bool_decide; [eauto|].
      destruct Hpend as [[? Hsome]|Hge]; [rewrite Hsome; eauto|].
      rewrite Hge. destruct (rCurrentOffered cur); eauto. }
    exists message. split; [done|]. unfold runTransaction. by rewrite E.
  - intros uid roomData idx idx' cur cur'. unfold offerUpdate.
    case_bool_decide as Hp; [done|].
    destruct (rCurrentOffered cur); [done|].
    destruct (jsGe _ _); [done|]. by intros [= <-].
Qed.

Lemma offer_rejected_when_pending_or_terminal_witness :
  offerBasket false 1 (handle (ClickOffer false 0) initialGame)
  = handle (ClickOffer false 0) initialGame.
Proof.
  apply (proj1 offer_rejected_when_pending_or_terminal).
  - apply reach_step; [apply reach_init|]. cbn. lia.
  - left. by eexists.
Defined.

(** The variables after [staleTimerRun], and after the timer of the first
    offer has fired. *)
Lemma staleTimerRun_view :
  let g := run staleTimerRun in
  let g' := doPlace (Num 1) 0 (popTimer g) in
  currentOffered g = Some 1%nat ∧
  timers g = [(Num 1, 0%nat); (Num 1, 1%nat)] ∧
  gSums g = [0; 0; 0] ∧
  gSums g' = [1; 0; 0] ∧
  baskets g' = [[1]; []; []] ∧
  remainingCoins g' = [2; 3; 4] ∧
  gTurn g' = 1 ∧
  currentOffered g' = None.
Proof. vm_compute. repeat split. Qed.

(** C7: the placement of a coin into a basket that is not the one on
    offer is not rejected.  [doPlace] checks that an offer is pending and
    that the coin is there, never that [idx] is the basket on offer, and
    the timer of [offerBasket] calls it with the basket of the offer it
    was started for.  After an offer of basket 0 in AI mode, a new game
    and an offer of basket 1, that timer puts coin 1 into basket 0 while
    basket 1 is on offer. *)
Theorem stale_timer_places_into_unoffered_basket :
  let g := run staleTimerRun in
  let g' := doPlace (Num 1) 0 (popTimer g) in
  reachable g ∧
  handle TimerFires g = g' ∧
  currentOffered g = Some 1%nat ∧
  timers g = [(Num 1, 0%nat); (Num 1, 1%nat)] ∧
  gSums g = [0; 0; 0] ∧
  gSums g' = [1; 0; 0] ∧
  baskets g' = [[1]; []; []] ∧
  remainingCoins g' = [2; 3; 4] ∧
  gTurn g' = 1 ∧
  currentOffered g' = None.
Proof.
  intros g g'. pose proof staleTimerRun_view as Hview.
  split; [apply run_reachable; repeat constructor|].
  split; [|exact Hview].
  destruct Hview as (_ & Htm & _). unfold g', g, handle.
  rewrite Htm. reflexivity.
Qed.


(** ** The solver on the heap *)

Lemma simulates_intro {A} (a : A) h h' m :
  h `prefix_of` h' → simulates (Some (a, (h', m))) h (a, m).
Proof. intros. by exists h'. Qed.

Lemma simulates_more {A} (run : option (A * (list cell * gmap string bool)))
    h1 h2 v :
  h1 `prefix_of` h2 → simulates run h2 v → simulates run h1 v.
Proof. intros H12 (h' & -> & H2). exists h'. split; [done|by etrans]. Qed.

Lemma readArr_more h h' l xs :
  h `prefix_of` h' → readArr h l = Some xs → readArr h' l = Some xs.
Proof.
  unfold readArr. intros Hp. destruct (h !! l) as [c|] eqn:E; [|done].
  by rewrite (prefix_lookup_Some _ _ _ _ E Hp).
Qed.

Lemma readObj_more h h' l o :
  h `prefix_of` h' → readObj h l = Some o → readObj h' l = Some o.
Proof.
  unfold readObj. intros Hp. destruct (h !! l) as [c|] eqn:E; [|done].
  by rewrite (prefix_lookup_Some _ _ _ _ E Hp).
Qed.

Lemma readArr_new h xs : readArr (h ++ [ArrayCell xs]) (length h) = Some xs.
Proof. unfold readArr. by rewrite list_lookup_middle. Qed.

Lemma readObj_new h o : readObj (h ++ [ObjCell o]) (length h) = Some o.
Proof. unfold readObj. by rewrite list_lookup_middle. Qed.

Lemma writeArr_new h xs ys :
  writeArr (h ++ [ArrayCell xs]) (length h) ys = h ++ [ArrayCell ys].
Proof.
  unfold writeArr. rewrite insert_app_r_alt by lia.
  by rewrite Nat.sub_diag.
Qed.

Lemma sliceH_spec h l xs :
  readArr h l = Some xs → sliceH h l = Some (length h, h ++ [ArrayCell xs]).
Proof. intros E. unfold sliceH. by rewrite E. Qed.

Lemma addAtH_new h xs i c :
  addAtH (h ++ [ArrayCell xs]) (length h) i c
  = Some (h ++ [ArrayCell (alter (λ s, s + c) i xs)]).
Proof. unfold addAtH. by rewrite readArr_new, writeArr_new. Qed.

Lemma filterH_spec h l xs c :
  readArr h l = Some xs →
  filterH h l c = Some (length h, h ++ [ArrayCell (filter (λ x, x ≠ c) xs)]).
Proof. intros E. unfold filterH. by rewrite E. Qed.

Lemma uniqueTopH_spec h l xs :
  readArr h l = Some xs →
  uniqueTopH h l = Some (uniqueTop xs, h ++ [ArrayCell (sortDesc xs)]).
Proof.
  intros E. unfold uniqueTopH. rewrite (sliceH_spec _ _ _ E).
  unfold sortH. rewrite readArr_new, writeArr_new, readArr_new. done.
Qed.

Lemma stateAt_inv h st s :
  stateAt h st = Some s →
  ∃ o, readObj h st = Some o ∧
       readArr h (sumsRef o) = Some (sums s) ∧
       readArr h (remainingRef o) = Some (remaining s) ∧
       turnField o = turn s.
Proof.
  unfold stateAt. destruct (readObj h st) as [o|] eqn:Ho; [|done].
  destruct (readArr h (sumsRef o)) as [xs|] eqn:Hs; [|done].
  destruct (readArr h (remainingRef o)) as [ys|] eqn:Hr; [|done].
  intros [= <-]. by exists o.
Qed.

Lemma stateAt_more h h' st s :
  h `prefix_of` h' → stateAt h st = Some s → stateAt h' st = Some s.
Proof.
  intros Hp (o & Ho & Hs & Hr & Ht)%stateAt_inv. unfold stateAt.
  rewrite (readObj_more _ _ _ _ Hp Ho), (readArr_more _ _ _ _ Hp Hs),
    (readArr_more _ _ _ _ Hp Hr), Ht. by destruct s.
Qed.

Lemma stateKeyH_spec h st s b :
  stateAt h st = Some s →
  stateKeyH h st b = Some (stateKey (sums s) (remaining s) (turn s) b).
Proof.
  intros (o & Ho & Hs & Hr & Ht)%stateAt_inv. unfold stateKeyH.
  by rewrite Ho, Hs, Hr, Ht.
Qed.

Lemma allNextH_sim callH callV offs h :
  (∀ b2 h' m, h `prefix_of` h' →
     simulates (callH b2 (h', m)) h' (callV b2 m)) →
  ∀ h' memo, h `prefix_of` h' →
    simulates (allNextH callH offs (h', memo)) h' (allNext callV offs memo).
Proof.
  intros Hcall. induction offs as [|b2 offs IH]; intros h' memo Hp; cbn.
  - by apply simulates_intro.
  - destruct (Hcall b2 h' memo Hp) as (h1 & -> & Hp1).
    destruct (callV b2 memo) as [ok m1]; cbn.
    destruct ok.
    + apply (simulates_more _ _ h1); [done|]. apply IH. by etrans.
    + by apply simulates_intro.
Qed.

Section coin_loops.
Context (recH : nat → nat → list cell * gmap string bool →
                option (bool * (list cell * gmap string bool))).
Context (recV : state → nat → gmap string bool → bool * gmap string bool).
Context (s : state) (st : nat) (b : nat) (h0 : list cell).
Context (Hst : stateAt h0 st = Some s).
Context (Hrec : ∀ st' s' b' h m,
  stateAt h st' = Some s' →
  (length (remaining s') < length (remaining s))%nat →
  simulates (recH st' b' (h, m)) h (recV s' b' m)).

Lemma callOnNewObj_sim h c newSums newRemaining :
  c ∈ remaining s →
  readArr h newSums = Some (sums (placeCoin s b c)) →
  readArr h newRemaining = Some (remaining (placeCoin s b c)) →
  ∀ b2 h' m, h `prefix_of` h' →
    simulates
      (callOnNewObj recH (StateObj newSums newRemaining (turn s + 1)) b2 (h', m))
      h' (recV (placeCoin s b c) b2 m).
Proof.
  intros Hc Hs Hr b2 h' m Hp. unfold callOnNewObj, alloc. cbn [fst snd].
  eapply simulates_more; [|apply Hrec; [|by apply placeCoin_shorter]].
  { by apply prefix_app_r. }
  unfold stateAt. rewrite readObj_new. cbn [sumsRef remainingRef turnField].
  assert (h `prefix_of` h' ++ [ObjCell (StateObj newSums newRemaining (turn s + 1))])
    as Hp' by by apply prefix_app_r.
  by rewrite (readArr_more _ _ _ _ Hp' Hs), (readArr_more _ _ _ _ Hp' Hr).
Qed.

(** The loop over the coins on the heap, from position [i] of the
    iterator, against the loop on values over the coins from [i] on. *)
Lemma tryCoinsH_sim key n : ∀ i h memo,
  h0 `prefix_of` h → (length (remaining s) ≤ n + i)%nat →
  simulates (tryCoinsH recH st b key n i (h, memo)) h
    (tryCoins recV s b key (drop i (remaining s)) memo).
Proof.
  destruct (stateAt_inv _ _ _ Hst) as (o & Ho & Hs & Hr & Ht).
  induction n as [|n IH]; intros i h memo Hp Hn.
  - rewrite drop_ge by lia. cbn.
    rewrite (readObj_more _ _ _ _ Hp Ho), (readArr_more _ _ _ _ Hp Hr).
    rewrite lookup_ge_None_2 by lia. by apply simulates_intro.
  - cbn [tryCoinsH fst snd].
    rewrite (readObj_more _ _ _ _ Hp Ho), (readArr_more _ _ _ _ Hp Hr).
    destruct (remaining s !! i) as [c|] eqn:Hi.
    2:{ rewrite drop_ge by (by apply lookup_ge_None). cbn.
        by apply simulates_intro. }
    rewrite (drop_S _ _ _ Hi). cbn [tryCoins].
    assert (Hc : c ∈ remaining s) by (by eapply list_elem_of_lookup_2).
    rewrite (sliceH_spec h _ _ (readArr_more _ _ _ _ Hp Hs)).
    rewrite addAtH_new.
    set (h2 := h ++ [ArrayCell (alter (λ x, x + c) b (sums s))]).
    assert (Hp2 : h `prefix_of` h2) by by apply prefix_app_r.
    assert (Hr2 : readArr h2 (remainingRef o) = Some (remaining s)).
    { eapply readArr_more; [|done]. by etrans. }
    rewrite (filterH_spec h2 _ _ _ Hr2).
    set (h3 := h2 ++ [ArrayCell (filter (λ x, x ≠ c) (remaining s))]).
    assert (Hp3 : h `prefix_of` h3) by by apply prefix_app_r.
    assert (Hns : readArr h3 (length h) = Some (sums (placeCoin s b c))).
    { eapply readArr_more; [|apply readArr_new]. by apply prefix_app_r. }
    assert (Hnr : readArr h3 (length h2) = Some (remaining (placeCoin s b c))).
    { apply readArr_new. }
    rewrite Ht.
    change (bool_decide (4 ≤ turn s + 1))
      with (bool_decide (4 ≤ turn (placeCoin s b c))).
    case_bool_decide.
    + rewrite (uniqueTopH_spec _ _ _ Hns).
      assert (Hp4 : h `prefix_of` h3 ++ [ArrayCell (sortDesc (sums (placeCoin s b c)))])
        by by apply prefix_app_r.
      destruct (uniqueTop (sums (placeCoin s b c))).
      * by apply simulates_intro.
      * eapply simulates_more; [exact Hp4|]. apply IH; [by etrans|lia].
    + destruct (allNextH_sim _ _ (seq 0 3) h3
        (callOnNewObj_sim h3 c (length h) (length h2) Hc Hns Hnr) h3 memo)
        as (h4 & -> & Hp4); [done|].
      destruct (allNext _ _ _) as [allOk m1]. cbn [fst snd].
      assert (h `prefix_of` h4) by by etrans.
      destruct allOk.
      * by apply simulates_intro.
      * eapply simulates_more; [done|]. apply IH; [by etrans|lia].
Qed.

End coin_loops.

Lemma canForceWinH_fuel_sim fuel : ∀ st s b h memo,
  stateAt h st = Some s → (length (remaining s) ≤ fuel)%nat →
  simulates (canForceWinH_fuel fuel st b (h, memo)) h
    (canForceWin_fuel fuel s b memo).
Proof.
  induction fuel as [|fuel IH]; intros st s b h memo Hst Hf.
  all: destruct (stateAt_inv _ _ _ Hst) as (o & Ho & Hs & Hr & Ht).
  all: cbn [canForceWinH_fuel canForceWin_fuel fst snd].
  all: rewrite (stateKeyH_spec _ _ _ _ Hst).
  all: destruct (memo !! _) as [res|]; [by apply simulates_intro|].
  all: rewrite Ho, Hr.
  all: case_bool_decide as Hlen;
    [rewrite (uniqueTopH_spec _ _ _ Hs); apply simulates_intro;
     by apply prefix_app_r|].
  - lia.
  - pose proof (tryCoinsH_sim (canForceWinH_fuel fuel) (canForceWin_fuel fuel)
      s st b h Hst) as Hloop.
    ospecialize (Hloop _ (stateKey (sums s) (remaining s) (turn s) b)
                   (length (remaining s)) 0%nat h memo _ _).
    + intros st' s' b' h' m Hst' Hlt. apply IH; [done|lia].
    + done.
    + lia.
    + by rewrite drop_0 in Hloop.
Qed.

Lemma canForceWinGivenOfferH_sim st s b h memo :
  stateAt h st = Some s →
  simulates (canForceWinGivenOfferH st b (h, memo)) h
    (canForceWinGivenOffer s b memo).
Proof.
  intros Hst. destruct (stateAt_inv _ _ _ Hst) as (o & Ho & Hs & Hr & Ht).
  unfold canForceWinGivenOfferH. cbn [fst]. rewrite Ho, Hr.
  by apply canForceWinH_fuel_sim.
Qed.

Lemma chooseLoopH_sim s st b h0 n :
  stateAt h0 st = Some s →
  ∀ i h memo,
    h0 `prefix_of` h → (length (remaining s) ≤ n + i)%nat →
    simulates (chooseLoopH st b n i (h, memo)) h
      (chooseLoop s b (drop i (remaining s)) memo).
Proof.
  intros Hst. destruct (stateAt_inv _ _ _ Hst) as (o & Ho & Hs & Hr & Ht).
  induction n as [|n IH]; intros i h memo Hp Hn.
  - rewrite drop_ge by lia. cbn.
    rewrite (readObj_more _ _ _ _ Hp Ho), (readArr_more _ _ _ _ Hp Hr).
    rewrite lookup_ge_None_2 by lia. by apply simulates_intro.
  - cbn [chooseLoopH fst snd].
    rewrite (readObj_more _ _ _ _ Hp Ho), (readArr_more _ _ _ _ Hp Hr).
    destruct (remaining s !! i) as [c|] eqn:Hi.
    2:{ rewrite drop_ge by (by apply lookup_ge_None). cbn.
        by apply simulates_intro. }
    rewrite (drop_S _ _ _ Hi). cbn [chooseLoop].
    rewrite (sliceH_spec h _ _ (readArr_more _ _ _ _ Hp Hs)).
    rewrite addAtH_new.
    set (h2 := h ++ [ArrayCell (alter (λ x, x + c) b (sums s))]).
    assert (Hp2 : h `prefix_of` h2) by by apply prefix_app_r.
    assert (Hr2 : readArr h2 (remainingRef o) = Some (remaining s)).
    { eapply readArr_more; [|done]. by etrans. }
    rewrite (filterH_spec h2 _ _ _ Hr2).
    set (h3 := h2 ++ [ArrayCell (filter (λ x, x ≠ c) (remaining s))]).
    unfold alloc. rewrite readObj_new. cbn [turnField].
    set (h4 := h3 ++ [ObjCell _]).
    assert (Hp4 : h `prefix_of` h4) by by do 2 apply prefix_app_r.
    assert (Hns : readArr h4 (length h) = Some (sums (placeCoin s b c))).
    { eapply readArr_more; [|apply readArr_new]. by do 2 apply prefix_app_r. }
    assert (Hnr : readArr h4 (length h2) = Some (remaining (placeCoin s b c))).
    { eapply readArr_more; [|apply readArr_new]. by apply prefix_app_r. }
    assert (Hnew : stateAt h4 (length h3) = Some (placeCoin s b c)).
    { unfold stateAt, h4. rewrite readObj_new. cbn [sumsRef remainingRef turnField].
      fold h4. by rewrite Hns, Hnr, Ht. }
    rewrite Ht.
    change (bool_decide (4 ≤ turn s + 1))
      with (bool_decide (4 ≤ turn (placeCoin s b c))).
    case_bool_decide.
    + rewrite (uniqueTopH_spec _ _ _ Hns).
      assert (Hp5 : h `prefix_of` h4 ++ [ArrayCell (sortDesc (sums (placeCoin s b c)))])
        by by apply prefix_app_r.
      destruct (uniqueTop (sums (placeCoin s b c))).
      * by apply simulates_intro.
      * eapply simulates_more; [exact Hp5|]. apply IH; [by etrans|lia].
    + destruct (allNextH_sim (canForceWinGivenOfferH (length h3))
                  (canForceWinGivenOffer (placeCoin s b c)) (seq 0 3) h4) with
        (h' := h4) (memo := memo) as (h5 & -> & Hp5); [|done|].
      { intros b2 h' m Hp'. apply canForceWinGivenOfferH_sim.
        by eapply stateAt_more. }
      destruct (allNext _ _ _) as [allOk m1]. cbn [fst snd].
      assert (h `prefix_of` h5) by by etrans.
      destruct allOk.
      * by apply simulates_intro.
      * eapply simulates_more; [done|]. apply IH; [by etrans|lia].
Qed.

Lemma aiChooseCoinForOfferH_sim st s b h memo :
  stateAt h st = Some s →
  simulates (aiChooseCoinForOfferH st b (h, memo)) h
    (aiChooseCoinForOffer s b memo).
Proof.
  intros Hst. destruct (stateAt_inv _ _ _ Hst) as (o & Ho & Hs & Hr & Ht).
  unfold aiChooseCoinForOfferH, aiChooseCoinForOffer. cbn [fst]. rewrite Ho, Hr.
  rewrite <-(drop_0 (remaining s)) at 2.
  eapply chooseLoopH_sim; [done..|lia].
Qed.

(** C10: neither function writes to the state it is given.  Run on a
    store in which [st] is a state object (basket index in range, as
    everywhere), each of them returns, and in the store it leaves every
    cell that was there before the call is unchanged (the caller's sums
    array, remaining array and state object among them), so [st] still
    stands for the same state: every write went to a cell the call
    allocated itself.  The result and the cache are those of the run on
    values. *)
Theorem solver_never_writes_caller_state h memo st s b :
  stateAt h st = Some s → length (sums s) = 3%nat → (b < 3)%nat →
  (∃ res h' memo',
     canForceWinGivenOfferH st b (h, memo) = Some (res, (h', memo')) ∧
     (∀ l c, h !! l = Some c → h' !! l = Some c) ∧
     stateAt h' st = Some s ∧
     (res, memo') = canForceWinGivenOffer s b memo) ∧
  (∃ coin h' memo',
     aiChooseCoinForOfferH st b (h, memo) = Some (coin, (h', memo')) ∧
     (∀ l c, h !! l = Some c → h' !! l = Some c) ∧
     stateAt h' st = Some s ∧
     (coin, memo') = aiChooseCoinForOffer s b memo).
Proof.
  intros Hst _ _. split.
  - destruct (canForceWinGivenOfferH_sim st s b h memo Hst) as (h' & E & Hp).
    eexists _, h', _. split_and!; [done| |by eapply stateAt_more|].
    + intros l c Hl. by eapply prefix_lookup_Some.
    + by destruct (canForceWinGivenOffer s b memo).
  - destruct (aiChooseCoinForOfferH_sim st s b h memo Hst) as (h' & E & Hp).
    eexists _, h', _. split_and!; [done| |by eapply stateAt_more|].
    + intros l c Hl. by eapply prefix_lookup_Some.
    + by destruct (aiChooseCoinForOffer s b memo).
Qed.

Lemma solver_never_writes_caller_state_witness :
  ∃ res h' memo',
    canForceWinGivenOfferH 2 0
      ([ArrayCell [0; 0; 0]; ArrayCell [1; 2; 3; 4]; ObjCell (StateObj 0 1 0)], ∅)
      = Some (res, (h', memo')) ∧
    (∀ l c, [ArrayCell [0; 0; 0]; ArrayCell [1; 2; 3; 4];
             ObjCell (StateObj 0 1 0)] !! l = Some c → h' !! l = Some c) ∧
    stateAt h' 2 = Some opening ∧
    (res, memo') = canForceWinGivenOffer opening 0 ∅.
Proof.
  refine (proj1 (solver_never_writes_caller_state
    [ArrayCell [0; 0; 0]; ArrayCell [1; 2; 3; 4]; ObjCell (StateObj 0 1 0)]
    ∅ 2 opening 0 _ _ _)).
  - reflexivity.
  - reflexivity.
  - lia.
Defined.

(** ** More on the key, the verdict and the cache *)

Lemma coinBit_high c n :
  31 ≤ n → Z.testbit (coinBit c) n = Z.testbit (coinBit c) 31.
Proof.
  intros Hn. unfold coinBit.
  assert (Hk : 0 ≤ (c - 1) `mod` 32 < 32) by (apply Z.mod_pos_bound; lia).
  destruct (decide ((c - 1) `mod` 32 = 31)) as [->|Hne].
  - change (wrap32 (Z.shiftl 1 31)) with (- 2 ^ 31).
    rewrite !Z.bits_opp by lia.
    change (Z.pred (2 ^ 31)) with (Z.ones 31).
    by rewrite !Z.ones_spec_high by lia.
  - rewrite coinBit_low by lia.
    rewrite !Z.pow2_bits_false by lia. done.
Qed.

Lemma foldl_mask_high r acc n :
  31 ≤ n → Z.testbit acc n = Z.testbit acc 31 →
  Z.testbit (foldl (λ mask c, Z.lor mask (coinBit c)) acc r) n =
  Z.testbit (foldl (λ mask c, Z.lor mask (coinBit c)) acc r) 31.
Proof.
  intros Hn. revert acc. induction r as [|c r IH]; intros acc Hacc; [done|].
  cbn. apply IH. rewrite !Z.lor_spec, Hacc. f_equal. by apply coinBit_high.
Qed.

Lemma maskOf_same_set r r' : (∀ c, c ∈ r ↔ c ∈ r') → maskOf r = maskOf r'.
Proof.
  intros Hset. apply Z.bits_inj'. intros n Hn.
  assert (Hlow : ∀ j, 0 ≤ j < 32 →
            Z.testbit (maskOf r) j = Z.testbit (maskOf r') j).
  { intros j Hj. apply eq_true_iff_eq. rewrite !maskOf_testbit by done.
    split; intros (c & Hc & Hm); exists c; split; try done; by apply Hset. }
  destruct (decide (n < 32)) as [Hlt|Hge]; [apply Hlow; lia|].
  unfold maskOf at 1 2.
  rewrite !(foldl_mask_high _ 0 n) by (try lia; by rewrite !Z.bits_0).
  apply (Hlow 31). lia.
Qed.

(** X4: Two positions of the data model (three sums, coins 1..32) get the
    same cache key exactly when they have the same sums, the same set of
    remaining coins, the same turn and the same offered basket: the order
    of [remaining] and repetitions in it do not show in the key, and
    nothing else is lost. *)
Theorem stateKey_identifies_position st b st' b' :
  key_ok st → key_ok st' →
  stateKey (sums st) (remaining st) (turn st) b =
    stateKey (sums st') (remaining st') (turn st') b' ↔
  sums st = sums st' ∧ (∀ c, c ∈ remaining st ↔ c ∈ remaining st') ∧
  turn st = turn st' ∧ b = b'.
Proof.
  intros [Hl Hr] [Hl' Hr']. split.
  - intros (Hs & Hm & Ht & Hb)%stateKey_inj. repeat split; try done.
    + by apply showAt_three_inj.
    + by apply maskOf_same_coins.
    + by apply maskOf_same_coins.
  - intros (Hs & Hset & Ht & Hb). unfold stateKey.
    by rewrite Hs, (maskOf_same_set _ _ Hset), Ht, Hb.
Qed.

Lemma stateKey_identifies_position_witness :
  stateKey [3; 0; 0] [2; 4] 2 1 = stateKey [3; 0; 0] [4; 2; 4] 2 1.
Proof.
  apply (stateKey_identifies_position (State [3; 0; 0] [2; 4] 2) 1
           (State [3; 0; 0] [4; 2; 4] 2) 1).
  - split; [reflexivity|]. repeat constructor; lia.
  - split; [reflexivity|]. repeat constructor; lia.
  - repeat split; try reflexivity; cbn;
      rewrite !elem_of_cons, !elem_of_nil; tauto.
Defined.

(** X5: The verdict of [endGame] depends on the three sums as a
    multiset only: renumbering the baskets changes neither the winner nor
    the two sums shown, and the solver's terminal test agrees. *)
Theorem endGameVerdict_perm sumsArr sumsArr' :
  sumsArr ≡ₚ sumsArr' →
  endGameVerdict sumsArr = endGameVerdict sumsArr' ∧
  uniqueTop sumsArr = uniqueTop sumsArr'.
Proof.
  intros Hp.
  assert (Hs : sortDesc sumsArr = sortDesc sumsArr').
  { apply sortDesc_unique; [|apply sortDesc_sorted].
    rewrite Hp. symmetry. apply sortDesc_perm. }
  unfold endGameVerdict, uniqueTop. by rewrite Hs.
Qed.

Lemma endGameVerdict_perm_witness :
  endGameVerdict [1; 5; 4] = endGameVerdict [4; 1; 5] ∧
  uniqueTop [1; 5; 4] = uniqueTop [4; 1; 5].
Proof.
  apply (endGameVerdict_perm [1; 5; 4] [4; 1; 5]).
  change [4; 1; 5] with ([4] ++ [1; 5]).
  change [1; 5; 4] with ([1; 5] ++ [4]).
  apply Permutation_app_comm.
Defined.

(** *** What the solver does to the cache *)

Lemma tryCoins_caches rec st b key cs memo :
  (tryCoins rec st b key cs memo).2 !! key =
    Some (tryCoins rec st b key cs memo).1.
Proof.
  revert memo. induction cs as [|c cs IH]; intros memo; cbn [tryCoins].
  { cbn. by rewrite lookup_insert_eq. }
  destruct (bool_decide _).
  - destruct (uniqueTop _); [cbn; by rewrite lookup_insert_eq|apply IH].
  - destruct (allNext _ _ _) as [[] memo']; [cbn; by rewrite lookup_insert_eq|].
    apply IH.
Qed.

Lemma canForceWinGivenOffer_caches st b memo :
  (canForceWinGivenOffer st b memo).2
    !! stateKey (sums st) (remaining st) (turn st) b =
  Some (canForceWinGivenOffer st b memo).1.
Proof.
  unfold canForceWinGivenOffer.
  destruct (length (remaining st)) eqn:Hlen; cbn [canForceWin_fuel].
  - destruct (memo !! _) eqn:Hm; [done|].
    rewrite bool_decide_eq_true_2 by done.
    cbn. by rewrite lookup_insert_eq.
  - destruct (memo !! _) eqn:Hm; [done|].
    rewrite bool_decide_eq_false_2 by lia.
    apply tryCoins_caches.
Qed.

Lemma canForceWinGivenOffer_hit st b memo res :
  memo !! stateKey (sums st) (remaining st) (turn st) b = Some res →
  canForceWinGivenOffer st b memo = (res, memo).
Proof.
  intros Hm. unfold canForceWinGivenOffer.
  destruct (length (remaining st)); cbn; by rewrite Hm.
Qed.

Lemma canForceWinGivenOffer_again st b memo :
  canForceWinGivenOffer st b (canForceWinGivenOffer st b memo).2 =
  canForceWinGivenOffer st b memo.
Proof.
  rewrite (canForceWinGivenOffer_hit _ _ _ _ (canForceWinGivenOffer_caches st b memo)).
  by destruct (canForceWinGivenOffer st b memo).
Qed.

Lemma grownFrom_refl t memo : grownFrom t memo memo.
Proof.
  split; [done|]. intros k Hk [v Hv]. congruence.
Qed.

Lemma grownFrom_trans t memo m m' :
  grownFrom t memo m → grownFrom t m m' → grownFrom t memo m'.
Proof.
  intros [Hs1 Hn1] [Hs2 Hn2]. split; [by etrans|].
  intros k Hk Hv. destruct (m !! k) eqn:Hmk.
  - apply Hn1; [done|]. by rewrite Hmk.
  - by apply Hn2.
Qed.

Lemma grownFrom_mono t t' memo m :
  t ≤ t' → grownFrom t' memo m → grownFrom t memo m.
Proof.
  intros Ht [Hs Hn]. split; [done|].
  intros k Hk Hv. destruct (Hn k Hk Hv) as (s & r & t2 & b & -> & ?).
  exists s, r, t2, b. split; [done|lia].
Qed.

Lemma grownFrom_insert s r t b v m :
  m !! stateKey s r t b = None →
  grownFrom t m (<[stateKey s r t b := v]> m).
Proof.
  intros Hm. split; [by apply insert_subseteq|].
  intros k Hk Hv. destruct (decide (k = stateKey s r t b)) as [->|Hne].
  - exists s, r, t, b. split; [done|lia].
  - rewrite lookup_insert_ne in Hv by done. rewrite Hk in Hv.
    by destruct Hv.
Qed.

Lemma grownFrom_fresh s r t b memo m :
  memo !! stateKey s r t b = None → grownFrom (t + 1) memo m →
  m !! stateKey s r t b = None.
Proof.
  intros Hk [_ Hn]. destruct (m !! _) eqn:Hm; [|done].
  destruct (Hn _ Hk) as (s' & r' & t' & b' & Heq & Hle).
  { by rewrite Hm. }
  apply stateKey_inj in Heq as (_ & _ & -> & _). lia.
Qed.

Lemma allNext_grows t call offs memo0 m :
  (∀ off m, grownFrom t m (call off m).2) →
  grownFrom t memo0 m → grownFrom t memo0 (allNext call offs m).2.
Proof.
  intros Hcall. revert m. induction offs as [|o offs IH]; intros m Hm; [done|].
  cbn. specialize (Hcall o m). destruct (call o m) as [ok m'].
  assert (grownFrom t memo0 m') by by eapply grownFrom_trans.
  destruct ok; [by apply IH|done].
Qed.

Lemma tryCoins_grows rec st b cs memo0 m :
  (∀ next off m, turn next = turn st + 1 →
     grownFrom (turn st + 1) m (rec next off m).2) →
  memo0 !! stateKey (sums st) (remaining st) (turn st) b = None →
  grownFrom (turn st + 1) memo0 m →
  grownFrom (turn st) memo0
    (tryCoins rec st b (stateKey (sums st) (remaining st) (turn st) b) cs m).2.
Proof.
  intros Hrec Hk. revert m.
  assert (Hins : ∀ m v, grownFrom (turn st + 1) memo0 m →
    grownFrom (turn st) memo0
      (<[stateKey (sums st) (remaining st) (turn st) b := v]> m)).
  { intros m v Hm. eapply grownFrom_trans.
    - eapply grownFrom_mono; [|exact Hm]. lia.
    - apply grownFrom_insert. by eapply grownFrom_fresh. }
  induction cs as [|c cs IH]; intros m Hm; cbn [tryCoins].
  { by apply Hins. }
  destruct (bool_decide _).
  - destruct (uniqueTop _); [cbn; by apply Hins|by apply IH].
  - pose proof (allNext_grows (turn st + 1)
      (rec (placeCoin st b c)) (seq 0 3) memo0 m) as Hall.
    destruct (allNext _ _ _) as [ok m']. cbn in Hall.
    assert (grownFrom (turn st + 1) memo0 m').
    { apply Hall; [|done]. intros off m2. by apply Hrec. }
    destruct ok; [cbn; by apply Hins|by apply IH].
Qed.

Lemma canForceWin_fuel_grows fuel st b memo :
  grownFrom (turn st) memo (canForceWin_fuel fuel st b memo).2.
Proof.
  revert st b memo. induction fuel as [|fuel IH]; intros st b memo.
  - cbn. destruct (memo !! _) eqn:Hm; [apply grownFrom_refl|].
    destruct (bool_decide _); [|apply grownFrom_refl].
    cbn. by apply grownFrom_insert.
  - cbn. destruct (memo !! _) eqn:Hm; [apply grownFrom_refl|].
    destruct (bool_decide _); [cbn; by apply grownFrom_insert|].
    apply tryCoins_grows; [|done|apply grownFrom_refl].
    intros next off m <-. apply IH.
Qed.

Lemma chooseLoop_grows st b cs memo0 m :
  memo0 ⊆ m → memo0 ⊆ (chooseLoop st b cs m).2.
Proof.
  revert m. induction cs as [|c cs IH]; intros m Hm; [done|].
  cbn [chooseLoop]. destruct (bool_decide _).
  - destruct (uniqueTop _); [done|by apply IH].
  - pose proof (allNext_grows (turn st + 1)
      (canForceWinGivenOffer (placeCoin st b c)) (seq 0 3) m m) as Hall.
    destruct (allNext _ _ _) as [ok m']. cbn in Hall.
    assert (m ⊆ m').
    { apply Hall; [|apply grownFrom_refl].
      intros off m2. apply canForceWin_fuel_grows. }
    destruct ok; [cbn; by etrans|apply IH; by etrans].
Qed.

(** X6: The cache discipline of the solver, for any state and any cache
    content.  A call only adds entries: every entry that was cached stays,
    with its value.  A call that returns [r] leaves [r] cached under the
    key of its own position, so the same call made again returns [r]
    from the cache and leaves the cache as it is.  The AI's move choice
    only adds entries as well. *)
Theorem solver_cache_only_grows st b memo :
  memo ⊆ (canForceWinGivenOffer st b memo).2 ∧
  (canForceWinGivenOffer st b memo).2
    !! stateKey (sums st) (remaining st) (turn st) b =
    Some (canForceWinGivenOffer st b memo).1 ∧
  canForceWinGivenOffer st b (canForceWinGivenOffer st b memo).2 =
    canForceWinGivenOffer st b memo ∧
  memo ⊆ (aiChooseCoinForOffer st b memo).2.
Proof.
  split; [apply canForceWin_fuel_grows|].
  split; [apply canForceWinGivenOffer_caches|].
  split; [apply canForceWinGivenOffer_again|].
  by apply chooseLoop_grows.
Qed.

Lemma chooseLoop_legal st b cs memo :
  (∀ c, c ∈ cs → c ∈ remaining st) →
  match (chooseLoop st b cs memo).1 with
  | Num c => c ∈ remaining st
  | NegInfinity => remaining st = []
  end.
Proof.
  revert memo. induction cs as [|c cs IH]; intros memo Hcs.
  - cbn. destruct (remaining st) as [|x xs] eqn:Hrem; [done|].
    destruct (mathMax_spec (x :: xs)) as (m & -> & Hm & _); done.
  - assert (c ∈ remaining st) by (apply Hcs; left).
    assert (∀ c', c' ∈ cs → c' ∈ remaining st) by (intros; apply Hcs; by right).
    cbn [chooseLoop]. destruct (bool_decide _).
    + destruct (uniqueTop _); [done|by apply IH].
    + destruct (allNext _ _ _) as [[] memo']; [done|by apply IH].
Qed.

(** X7: The AI never names a coin that is not there: for any state,
    offered basket and cache, the answer of [aiChooseCoinForOffer] is one
    of the remaining coins (the fallback [Math.max] included); it is
    [-Infinity] only when no coin remains, and then the cache is not
    touched. *)
Theorem aiChooseCoinForOffer_legal st b memo :
  match (aiChooseCoinForOffer st b memo).1 with
  | Num c => c ∈ remaining st
  | NegInfinity => remaining st = []
  end ∧
  (remaining st = [] → aiChooseCoinForOffer st b memo = (NegInfinity, memo)).
Proof.
  split; [by apply chooseLoop_legal|].
  intros Hrem. unfold aiChooseCoinForOffer. rewrite Hrem. cbn. by rewrite Hrem.
Qed.

Lemma aiChooseCoinForOffer_legal_witness :
  aiChooseCoinForOffer (State [4; 3; 3] [] 4) 0 ∅ = (NegInfinity, ∅).
Proof.
  apply (aiChooseCoinForOffer_legal (State [4; 3; 3] [] 4) 0 ∅).
  reflexivity.
Defined.

Lemma placeCoin_swap st b1 c1 b2 c2 :
  placeCoin (placeCoin st b1 c1) b2 c2 = placeCoin (placeCoin st b2 c2) b1 c1.
Proof.
  unfold placeCoin. cbn. f_equal.
  - destruct (decide (b1 = b2)) as [->|Hne].
    + rewrite !list_alter_alter_eq. apply list_alter_ext; [|done].
      intros x _. cbn. lia.
    + by apply list_alter_alter_ne.
  - rewrite !list_filter_filter. apply list_filter_iff. tauto.
Qed.

(** X8: Two placements made in either order lead to the same position:
    same sums, same remaining coins, same turn.  The solver therefore
    searches a position reached by both orders once: after a call for one
    order, for any cache, the call for the other order is answered from
    the cache, which it leaves unchanged. *)
Theorem transposed_placements_share_cache_entry st b1 c1 b2 c2 b memo :
  let s12 := placeCoin (placeCoin st b1 c1) b2 c2 in
  let s21 := placeCoin (placeCoin st b2 c2) b1 c1 in
  s12 = s21 ∧
  canForceWinGivenOffer s21 b (canForceWinGivenOffer s12 b memo).2 =
    canForceWinGivenOffer s12 b memo.
Proof.
  cbn zeta. rewrite (placeCoin_swap st b2 c2 b1 c1).
  split; [done|apply canForceWinGivenOffer_again].
Qed.

(** ** The page's buttons and a game against the AI *)

Lemma awaiting_has_coin g :
  game_inv g → awaitingOffer g = true →
  gTurn g < 4 ∧ remainingCoins g ≠ [].
Proof.
  intros Hinv Haw. rewrite (inv_phase g Hinv) in Haw.
  apply bool_decide_eq_true in Haw as [_ Ht]. split; [done|].
  pose proof (inv_turn g Hinv) as Hturn. intros Hnil.
  rewrite Hnil in Hturn. cbn in Hturn. lia.
Qed.

Lemma winning_coin_found st b :
  remaining st ≠ [] → search st b = true →
  ∃ c, firstWinning st b (remaining st) = Some c ∧ c ∈ remaining st ∧
       coinWins search st b c = true.
Proof.
  intros Hne Hs. rewrite search_unfold in Hs.
  rewrite bool_decide_eq_false_2 in Hs.
  2:{ intros Hl. by apply length_zero_iff_nil in Hl. }
  unfold firstWinning.
  pose proof (find_first (coinWins search st b) (remaining st)) as Hf.
  destruct (List.find _ _) as [c|].
  - destruct Hf as (l1 & l2 & Heq & Hc & _). exists c. split; [done|].
    split; [|done]. rewrite Heq. apply elem_of_app. right. left.
  - apply existsb_exists in Hs as (c & Hin & Hc).
    rewrite (Hf c) in Hc; [done|]. by apply list_elem_of_In.
Qed.

(** A round in AI mode with no timer pending: the coin the AI names is
    placed into the offered basket. *)
Lemma aiRound_effect idx g c :
  game_inv g → awaitingOffer g = true → timers g = [] → (idx < 3)%nat →
  (aiChooseCoinForOffer (solverState g) idx (memo g)).1 = Num c →
  c ∈ remainingCoins g →
  let g' := aiRound idx g in
  game_inv g' ∧
  baskets g' = alter (λ b, b ++ [c]) idx (baskets g) ∧
  gSums g' = alter (λ s, s + c) idx (gSums g) ∧
  remainingCoins g' = filter (λ x, x ≠ c) (remainingCoins g) ∧
  gTurn g' = gTurn g + 1 ∧
  currentOffered g' = None ∧
  awaitingOffer g' = bool_decide (gTurn g + 1 < 4) ∧
  resultBanner g' =
    (if bool_decide (4 ≤ gTurn g + 1) then Some (endGameVerdict (gSums g'))
     else resultBanner g) ∧
  timers g' = [].
Proof.
  intros Hinv Haw Htim Hidx Hai Hc.
  assert (Hinv1 : game_inv (handle (ClickOffer true idx) g))
    by by apply game_inv_handle.
  unfold aiRound. cbn zeta.
  assert (Hinv' : game_inv (handle TimerFires (handle (ClickOffer true idx) g)))
    by by apply game_inv_handle.
  revert Hinv1 Hinv'.
  cbn [handle]. unfold offerBasket. rewrite Haw. cbn [negb].
  change {| sums := gSums g; remaining := remainingCoins g; turn := gTurn g |}
    with (solverState g).
  destruct (aiChooseCoinForOffer (solverState g) idx (memo g))
    as [best memo'] eqn:Hchoose.
  cbn in Hai. subst best. rewrite Htim.
  cbn [app baskets gSums remainingCoins gTurn awaitingOffer currentOffered
         movesList resultBanner memo timers].
  set (g1 := {| baskets := baskets g; gSums := gSums g;
                remainingCoins := remainingCoins g; gTurn := gTurn g;
                awaitingOffer := false; currentOffered := Some idx;
                movesList := movesList g; resultBanner := resultBanner g;
                memo := memo'; timers := [(Num c, idx)] |}).
  intros Hinv1 Hinv'.
  set (g2 := popTimer g1) in *.
  destruct (doPlace_accepted c idx g2)
    as (Hb & Hsums & Hrem & Hturn & Hoff & Haw' & Hban & _ & _ & Htim');
    [by apply game_inv_popTimer|done|done|done|].
  change (baskets g2) with (baskets g) in *.
  change (gSums g2) with (gSums g) in *.
  change (remainingCoins g2) with (remainingCoins g) in *.
  change (gTurn g2) with (gTurn g) in *.
  change (resultBanner g2) with (resultBanner g) in *.
  change (timers g2) with (@nil (num * nat)) in *.
  done.
Qed.

(** The invariant of a game against the AI between two rounds: the
    presenter is to move, no timer is pending, and the placer wins the
    position whatever basket is offered next. *)
Lemma aiRound_step idx g :
  game_inv g → awaitingOffer g = true → timers g = [] → (idx < 3)%nat →
  (∀ b, (b < 3)%nat → search (solverState g) b = true) →
  let g' := aiRound idx g in
  game_inv g' ∧ timers g' = [] ∧ gTurn g' = gTurn g + 1 ∧
  if bool_decide (4 ≤ gTurn g') then
    ∃ v, resultBanner g' = Some v ∧ winner v = Placer
  else
    awaitingOffer g' = true ∧
    ∀ b, (b < 3)%nat → search (solverState g') b = true.
Proof.
  intros Hinv Haw Htim Hidx Hwin.
  destruct (awaiting_has_coin g Hinv Haw) as [Hlt Hne].
  destruct (winning_coin_found (solverState g) idx Hne (Hwin idx Hidx))
    as (c & Hfirst & Hc & Hcw).
  pose proof (aiChoose_search (solverState g) idx (memo g)
                (game_inv_key_ok g Hinv)
                (cache_reachable_sound _ (inv_memo g Hinv))) as Hai.
  rewrite Hfirst in Hai.
  destruct (aiRound_effect idx g c Hinv Haw Htim Hidx Hai Hc)
    as (Hinv' & _ & Hsums & Hrem & Hturn & _ & Haw' & Hban & Htim').
  cbn zeta. split; [done|]. split; [done|]. split; [done|].
  rewrite Hturn.
  unfold coinWins in Hcw. cbn [placeCoin solverState turn sums remaining] in Hcw.
  destruct (bool_decide (4 ≤ gTurn g + 1)) eqn:Hend.
  - eexists. split; [exact Hban|]. apply winner_uniqueTop.
    by rewrite Hsums.
  - split.
    { rewrite Haw'. apply bool_decide_eq_false in Hend.
      apply bool_decide_eq_true. lia. }
    intros b Hb. rewrite forallb_seq3 in Hcw.
    unfold solverState. rewrite Hsums, Hrem, Hturn. by apply Hcw.
Qed.

Lemma aiGame_from idxs g :
  game_inv g → awaitingOffer g = true → timers g = [] →
  (∀ b, (b < 3)%nat → search (solverState g) b = true) →
  Forall (λ i, (i < 3)%nat) idxs →
  Z.of_nat (length idxs) = 4 - gTurn g →
  let g' := foldl (λ g idx, aiRound idx g) g idxs in
  gTurn g' = 4 ∧ ∃ v, resultBanner g' = Some v ∧ winner v = Placer.
Proof.
  revert g. induction idxs as [|idx idxs IH]; intros g Hinv Haw Htim Hwin Hall Hlen.
  { destruct (awaiting_has_coin g Hinv Haw) as [Hlt _]. cbn in Hlen. lia. }
  apply Forall_cons in Hall as [Hidx Hall].
  destruct (aiRound_step idx g Hinv Haw Htim Hidx Hwin)
    as (Hinv' & Htim' & Hturn & Hcase).
  cbn [foldl]. cbn [length] in Hlen.
  destruct (bool_decide (4 ≤ gTurn (aiRound idx g))) eqn:Hend.
  - apply bool_decide_eq_true in Hend.
    destruct idxs as [|i idxs]; [|exfalso; cbn [length] in Hlen; lia].
    cbn [foldl]. cbn [length] in Hlen. split; [lia|done].
  - destruct Hcase as [Haw' Hwin'].
    apply IH; try done. lia.
Qed.

(** X9: Nobody beats the AI at the four-coin game.  In AI mode, let the
    presenter offer any basket in each of the four rounds and let each
    timer fire before the next click: the game ends after the fourth
    round and the banner names the placer as the winner. *)
Theorem ai_placer_wins_every_game idxs :
  length idxs = 4%nat → Forall (λ i, (i < 3)%nat) idxs →
  gTurn (aiGame idxs) = 4 ∧
  ∃ v, resultBanner (aiGame idxs) = Some v ∧ winner v = Placer.
Proof.
  intros Hlen Hall. unfold aiGame.
  apply aiGame_from; try done.
  - apply game_inv_initial.
  - apply forallb_seq3. by vm_compute.
  - rewrite Hlen. done.
Qed.

Lemma ai_placer_wins_every_game_witness :
  gTurn (aiGame [0; 2; 2; 1]%nat) = 4 ∧
  ∃ v, resultBanner (aiGame [0; 2; 2; 1]%nat) = Some v ∧ winner v = Placer.
Proof.
  apply (ai_placer_wins_every_game [0; 2; 2; 1]%nat).
  - reflexivity.
  - repeat constructor.
Defined.

(** X10: On every page state that clicks and timers can produce, the
    flags [updateUI] sets are exact: an offer button is disabled exactly
    when a click on it would change nothing, and so is the coin button
    of each value. *)
Theorem disabled_buttons_do_nothing g aiMode idx val :
  reachable g →
  (offerDisabled g = true ↔ handle (ClickOffer aiMode idx) g = g) ∧
  (coinDisabled val g = true ↔ handle (ClickCoin val) g = g).
Proof.
  intros Hinv%reachable_inv. split.
  - unfold offerDisabled. split.
    + intros Haw%negb_true_iff. by apply offerBasket_not_awaiting.
    + intros Heq. destruct (awaitingOffer g) eqn:Haw; [|done].
      pose proof (offerBasket_closes aiMode idx g) as Hcl.
      cbn [handle] in Heq. rewrite Heq in Hcl. congruence.
  - unfold coinDisabled. split.
    + intros Hdis. apply clickCoin_rejected.
      apply orb_true_iff in Hdis as [Hdis|Hdis].
      * apply orb_true_iff in Hdis as [Hdis|Hdis]; [by right; left|].
        right; right. apply negb_true_iff in Hdis.
        by apply bool_decide_eq_false in Hdis.
      * left. by apply bool_decide_eq_true in Hdis.
    + intros Heq. destruct (awaitingOffer g) eqn:Haw; [done|].
      destruct (decide (val ∈ remainingCoins g)) as [Hin|Hout].
      2:{ by rewrite (bool_decide_eq_false_2 _ Hout). }
      destruct (currentOffered g) as [i|] eqn:Hoff;
        [|rewrite (bool_decide_eq_true_2 (None = None)) by done; apply orb_true_r].
      exfalso. cbn [handle] in Heq. rewrite Hoff in Heq.
      destruct (inv_offer g Hinv i Hoff) as [Hi _].
      destruct (doPlace_accepted val i g Hinv Hi Haw Hin)
        as (_ & _ & _ & Hturn & _).
      rewrite Heq in Hturn. lia.
Qed.

Lemma disabled_buttons_do_nothing_witness :
  (offerDisabled initialGame = true ↔
     handle (ClickOffer false 1%nat) initialGame = initialGame) ∧
  (coinDisabled 3 initialGame = true ↔
     handle (ClickCoin 3) initialGame = initialGame).
Proof.
  apply (disabled_buttons_do_nothing initialGame false 1%nat 3).
  apply reach_init.
Defined.

(** ** The room: contracts of the two transactions *)

Lemma jsGet_jsSet {A} (arr : list (option A)) i v j :
  jsGet (jsSet arr i v) j = if decide (j = i) then Some v else jsGet arr j.
Proof.
  unfold jsGet, jsSet. case_bool_decide as Hi.
  - destruct (decide (j = i)) as [->|Hne].
    + by rewrite list_lookup_insert_eq.
    + by rewrite list_lookup_insert_ne.
  - destruct (decide (j = i)) as [->|Hne].
    + rewrite lookup_app_r by lia. rewrite lookup_app_r; rewrite length_replicate; [|lia].
      by replace (i - length arr - (i - length arr))%nat with 0%nat by lia.
    + destruct (decide (j < length arr)%nat) as [Hj|Hj].
      * by rewrite lookup_app_l.
      * rewrite lookup_app_r by lia.
        rewrite (lookup_ge_None_2 arr j) by lia.
        destruct (decide (j - length arr < i - length arr)%nat).
        -- rewrite lookup_app_l by (rewrite length_replicate; lia).
           by rewrite lookup_replicate_2.
        -- rewrite lookup_app_r by (rewrite length_replicate; lia).
           rewrite length_replicate.
           destruct (j - length arr - (i - length arr))%nat eqn:Hd; [lia|done].
Qed.

Lemma orElse_zero x : orElse (Some x) 0 = x.
Proof. unfold orElse. by case_bool_decide. Qed.

Lemma placeUpdate_effect uid roomData now coin cur cur' :
  placeUpdate uid roomData now coin (Some cur) = Returned (Some cur') →
  ∃ idx,
    rCurrentOffered cur = Some idx ∧
    placerRef roomData = refOfUid uid ∧
    coin ∈ remainingOf cur ∧
    (∀ j, sumAt cur' j =
            if decide (j = idx) then sumAt cur idx + coin else sumAt cur j) ∧
    (∀ j, basketAt cur' j =
            if decide (j = idx) then basketAt cur idx ++ [coin]
            else basketAt cur j) ∧
    remainingOf cur' = filter (λ c, c ≠ coin) (remainingOf cur) ∧
    rTurn cur' = Some (turnOf cur + 1) ∧
    rCurrentOffered cur' = None ∧
    rPhase cur' =
      (if bool_decide (coinCountOf cur ≤ turnOf cur + 1) then finished
       else offering) ∧
    movesOf cur' =
      movesOf cur ++ [MoveRecord ((λ t, t + 1) <$> rTurn cur) idx coin
                        (refOfUid uid) (shortUid uid) now] ∧
    rCoinCount cur' = rCoinCount cur ∧
    rSums cur' =
      Some (jsSet (default [Some 0; Some 0; Some 0] (rSums cur)) idx
              (sumAt cur idx + coin)).
Proof.
  unfold placeUpdate.
  destruct (rCurrentOffered cur) as [idx|] eqn:Hoff; [|done].
  case_bool_decide as Hpl; [done|].
  destruct (rRemaining cur) as [rem|] eqn:Hrem; [|done].
  case_bool_decide as Hin; [|done].
  intros [= <-]. exists idx.
  split; [done|]. split.
  { destruct (decide (placerRef roomData = refOfUid uid)); [done|by destruct Hpl]. }
  unfold remainingOf, sumAt, basketAt, movesOf, turnOf, coinCountOf.
  rewrite Hrem. cbn [rSums rBaskets rRemaining rTurn rCurrentOffered rPhase
                     rMoves rCoinCount default from_option id].
  split; [done|]. split.
  { intros j. rewrite jsGet_jsSet. destruct (decide (j = idx)); [|done].
    apply orElse_zero. }
  split.
  { intros j. rewrite jsGet_jsSet. by destruct (decide (j = idx)). }
  done.
Qed.

Lemma offerUpdate_effect uid roomData idx cur cur' :
  offerUpdate uid roomData idx (Some cur) = Returned (Some cur') →
  presenterRef roomData = refOfUid uid ∧
  rCurrentOffered cur = None ∧
  jsGe (rTurn cur) (coinCountOf cur) = false ∧
  cur' = {| rBaskets := rBaskets cur; rSums := rSums cur;
            rRemaining := rRemaining cur; rTurn := rTurn cur;
            rCurrentOffered := Some idx; rPhase := placing;
            rMoves := rMoves cur; rCoinCount := rCoinCount cur |}.
Proof.
  unfold offerUpdate. case_bool_decide as Hpr; [done|].
  destruct (rCurrentOffered cur) eqn:Hoff; [done|].
  unfold coinCountOf.
  destruct (jsGe _ _) eqn:Hge; [done|].
  intros [= <-]. split; [|done].
  destruct (decide (presenterRef roomData = refOfUid uid)); [done|by destruct Hpr].
Qed.

Lemma place_accepted_iff uid roomData now coin cur :
  (∃ cur', placeUpdate uid roomData now coin (Some cur) = Returned (Some cur'))
  ↔ (is_Some (rCurrentOffered cur) ∧ placerRef roomData = refOfUid uid ∧
     coin ∈ remainingOf cur).
Proof.
  split.
  - intros [cur' H]. apply placeUpdate_effect in H as (idx & Hoff & Hpl & Hin & _).
    split; [by rewrite Hoff|by split].
  - intros ([idx Hoff] & Hpl & Hin). unfold placeUpdate. rewrite Hoff.
    rewrite bool_decide_eq_false_2 by (by intros ?).
    unfold remainingOf in Hin.
    destruct (rRemaining cur) as [rem|]; [|by apply elem_of_nil in Hin].
    cbn in Hin. rewrite bool_decide_eq_true_2 by done. by eexists.
Qed.

Lemma offer_accepted_iff uid roomData idx cur :
  (∃ cur', offerUpdate uid roomData idx (Some cur) = Returned (Some cur'))
  ↔ (presenterRef roomData = refOfUid uid ∧ rCurrentOffered cur = None ∧
     jsGe (rTurn cur) (coinCountOf cur) = false).
Proof.
  split.
  - intros [cur' H]. by apply offerUpdate_effect in H as (? & ? & ? & _).
  - intros (Hpr & Hoff & Hge). unfold offerUpdate.
    rewrite bool_decide_eq_false_2 by (by intros ?).
    rewrite Hoff. unfold coinCountOf in Hge. rewrite Hge. by eexists.
Qed.

(** X11: What an accepted placement does, for any state record, absent
    fields included.  The transaction accepts a coin exactly when a
    basket is offered, the caller is the room's placer and the coin is
    among the remaining ones.  Then the offered basket gets the coin and
    its sum grows by the coin's value, the other baskets and sums read
    as before, the coin leaves [remaining], the turn counter goes up by
    one, the offer is cleared, one move is logged, and the phase becomes
    [finished] exactly when the turn counter has reached the coin
    count. *)
Theorem placement_accepted_iff_and_effect uid roomData now coin cur :
  ((∃ cur', placeUpdate uid roomData now coin (Some cur) = Returned (Some cur'))
     ↔ is_Some (rCurrentOffered cur) ∧ placerRef roomData = refOfUid uid ∧
       coin ∈ remainingOf cur) ∧
  ∀ cur', placeUpdate uid roomData now coin (Some cur) = Returned (Some cur') →
    ∃ idx,
      rCurrentOffered cur = Some idx ∧
      (∀ j, sumAt cur' j =
              if decide (j = idx) then sumAt cur idx + coin else sumAt cur j) ∧
      (∀ j, basketAt cur' j =
              if decide (j = idx) then basketAt cur idx ++ [coin]
              else basketAt cur j) ∧
      remainingOf cur' = filter (λ c, c ≠ coin) (remainingOf cur) ∧
      (coin ∉ remainingOf cur') ∧
      turnOf cur' = turnOf cur + 1 ∧
      rCurrentOffered cur' = None ∧
      (rPhase cur' = finished ↔ coinCountOf cur ≤ turnOf cur') ∧
      (rPhase cur' = offering ↔ turnOf cur' < coinCountOf cur) ∧
      length (movesOf cur') = S (length (movesOf cur)) ∧
      coinCountOf cur' = coinCountOf cur.
Proof.
  split; [apply place_accepted_iff|].
  intros cur' H.
  apply placeUpdate_effect in H
    as (idx & Hoff & Hpl & Hin & Hs & Hb & Hrem & Ht & Hoff' & Hph & Hmv & Hcc & _).
  assert (Hturn : turnOf cur' = turnOf cur + 1).
  { unfold turnOf at 1. rewrite Ht. apply orElse_zero. }
  exists idx. repeat split; try done.
  - rewrite Hrem. intros [Hne _]%list_elem_of_filter. by apply Hne.
  - rewrite Hph, Hturn. by case_bool_decide.
  - rewrite Hph, Hturn. intros Hle. by rewrite bool_decide_eq_true_2.
  - rewrite Hph, Hturn. case_bool_decide; [done|lia].
  - rewrite Hph, Hturn. intros Hlt. by rewrite bool_decide_eq_false_2 by lia.
  - rewrite Hmv, length_app. cbn. lia.
  - unfold coinCountOf. by rewrite Hcc.
Qed.

(** X12: A round in a room is an offer followed by a placement, and
    rounds chain until the coins are used up.  After an accepted offer of
    basket [idx], the placement of any remaining coin by the room's
    placer is accepted; it puts the coin into basket [idx] and nowhere
    else and advances the turn by one.  After it a second placement is
    rejected, and the presenter's next offer is accepted exactly when the
    new turn is still below the coin count. *)
Theorem room_round_composes uidP uidQ roomData now idx idx' coin cur cur1 :
  offerUpdate uidP roomData idx (Some cur) = Returned (Some cur1) →
  placerRef roomData = refOfUid uidQ →
  coin ∈ remainingOf cur →
  ∃ cur2,
    placeUpdate uidQ roomData now coin (Some cur1) = Returned (Some cur2) ∧
    basketAt cur2 idx = basketAt cur idx ++ [coin] ∧
    sumAt cur2 idx = sumAt cur idx + coin ∧
    (∀ j, j ≠ idx →
       basketAt cur2 j = basketAt cur j ∧ sumAt cur2 j = sumAt cur j) ∧
    remainingOf cur2 = filter (λ c, c ≠ coin) (remainingOf cur) ∧
    turnOf cur2 = turnOf cur + 1 ∧
    (∀ coin' now', placeUpdate uidQ roomData now' coin' (Some cur2)
                     = Threw "No basket offered") ∧
    ((∃ cur3, offerUpdate uidP roomData idx' (Some cur2) = Returned (Some cur3))
       ↔ turnOf cur + 1 < coinCountOf cur).
Proof.
  intros (Hpr & Hoff & Hge & ->)%offerUpdate_effect Hpl Hin.
  set (cur1 := {| rBaskets := rBaskets cur; rSums := rSums cur;
                  rRemaining := rRemaining cur; rTurn := rTurn cur;
                  rCurrentOffered := Some idx; rPhase := placing;
                  rMoves := rMoves cur; rCoinCount := rCoinCount cur |}).
  destruct (proj2 (place_accepted_iff uidQ roomData now coin cur1)) as [cur2 H2].
  { split; [by eexists|]. by split. }
  exists cur2. split; [done|].
  apply placeUpdate_effect in H2
    as (i & [= <-] & _ & _ & Hs & Hb & Hrem & Ht & Hoff2 & _ & _ & Hcc & _).
  assert (Hturn : turnOf cur2 = turnOf cur + 1).
  { unfold turnOf at 1. rewrite Ht. apply orElse_zero. }
  split. { rewrite Hb. by rewrite decide_True. }
  split. { rewrite Hs. by rewrite decide_True. }
  split. { intros j Hj. by rewrite Hb, Hs, !decide_False. }
  split; [done|]. split; [done|]. split.
  { intros coin' now'. unfold placeUpdate. by rewrite Hoff2. }
  assert (Hge2 : jsGe (rTurn cur2) (coinCountOf cur2)
                 = bool_decide (coinCountOf cur ≤ turnOf cur + 1)).
  { unfold coinCountOf at 1. by rewrite Hcc, Ht. }
  rewrite offer_accepted_iff, Hge2. split.
  - intros (_ & _ & Hlt). apply bool_decide_eq_false in Hlt. lia.
  - intros Hlt. split; [done|]. split; [done|].
    apply bool_decide_eq_false_2. lia.
Qed.

Lemma room_round_composes_witness :
  ∃ cur2,
    placeUpdate (Some "bob") (Some (Room (Some "ann") (Some "bob"))) 5 3
      (Some (RoomState (Some [Some []; Some []; Some []])
               (Some [Some 0; Some 0; Some 0]) (Some [1; 2; 3; 4]) (Some 0)
               (Some 1%nat) placing (Some []) (Some 4)))
      = Returned (Some cur2) ∧
    basketAt cur2 1 = basketAt (initialState 4) 1 ++ [3] ∧
    sumAt cur2 1 = sumAt (initialState 4) 1 + 3 ∧
    (∀ j, j ≠ 1%nat →
       basketAt cur2 j = basketAt (initialState 4) j ∧
       sumAt cur2 j = sumAt (initialState 4) j) ∧
    remainingOf cur2 = filter (λ c, c ≠ 3) (remainingOf (initialState 4)) ∧
    turnOf cur2 = turnOf (initialState 4) + 1 ∧
    (∀ coin' now',
       placeUpdate (Some "bob") (Some (Room (Some "ann") (Some "bob")))
         now' coin' (Some cur2) = Threw "No basket offered") ∧
    ((∃ cur3, offerUpdate (Some "ann") (Some (Room (Some "ann") (Some "bob")))
                0 (Some cur2) = Returned (Some cur3))
       ↔ turnOf (initialState 4) + 1 < coinCountOf (initialState 4)).
Proof.
  apply (room_round_composes (Some "ann") (Some "bob")
           (Some (Room (Some "ann") (Some "bob"))) 5 1 0 3 (initialState 4)).
  - reflexivity.
  - reflexivity.
  - change (3 ∈ seqZ 1 4). apply elem_of_seqZ. lia.
Defined.

(** ** The room: the invariant of its state *)

Lemma snoc_into_one_of_three (b0 b1 b2 rest : list Z) c idx :
  (idx < 3)%nat →
  (if decide (0%nat = idx) then b0 ++ [c] else b0) ++
  (if decide (1%nat = idx) then b1 ++ [c] else b1) ++
  (if decide (2%nat = idx) then b2 ++ [c] else b2) ++ rest
  ≡ₚ c :: b0 ++ b1 ++ b2 ++ rest.
Proof.
  intros Hidx. destruct idx as [|[|[|]]]; [| | |lia]; cbn [decide].
  - rewrite decide_True, !decide_False by done.
    rewrite <- app_assoc. cbn. symmetry. apply Permutation_middle.
  - rewrite (decide_True (P := 1%nat = 1%nat)), !decide_False by done.
    rewrite <- (app_assoc b1). cbn. rewrite !(app_assoc b0).
    symmetry. apply Permutation_middle.
  - rewrite (decide_True (P := 2%nat = 2%nat)), !decide_False by done.
    rewrite <- (app_assoc b2). cbn. rewrite !(app_assoc b0), !(app_assoc (b0 ++ b1)).
    symmetry. apply Permutation_middle.
Qed.

Lemma room_inv_NoDup n cur : room_inv n cur → NoDup (remainingOf cur).
Proof.
  intros Hinv. pose proof (rinv_coins n cur Hinv) as Hp.
  assert (Hnd : NoDup (basketAt cur 0 ++ basketAt cur 1 ++ basketAt cur 2
                         ++ remainingOf cur)).
  { rewrite Hp. apply NoDup_seqZ. }
  rewrite !NoDup_app in Hnd. by destruct Hnd as (_ & _ & _ & _ & _ & _ & ?).
Qed.

Lemma room_inv_initial n : 1 ≤ n → room_inv n (initialState n).
Proof.
  intros Hn. split.
  - unfold coinCountOf, orElse, initialState. cbn [rCoinCount].
    case_bool_decide; [lia|done].
  - by exists 0, 0, 0.
  - intros i Hi. destruct i as [|[|[|]]]; [done|done|done|lia].
  - done.
  - unfold turnOf, remainingOf, initialState.
    cbn [rTurn rRemaining default from_option id].
    rewrite orElse_zero, length_seqZ. lia.
  - done.
  - done.
  - done.
  - intros i Hi. destruct i as [|[|[|]]]; [done|done|done|lia].
  - done.
  - by eexists.
Qed.

Lemma jsGe_turn n cur :
  1 ≤ n → jsGe (rTurn cur) n = bool_decide (n ≤ turnOf cur).
Proof.
  intros Hn. unfold jsGe, turnOf. destruct (rTurn cur) as [t|].
  - by rewrite orElse_zero.
  - symmetry. apply bool_decide_eq_false_2. unfold orElse. lia.
Qed.

Lemma room_inv_offer n uid roomData idx cur cur' :
  1 ≤ n → room_inv n cur → (idx < 3)%nat →
  offerUpdate uid roomData idx (Some cur) = Returned (Some cur') →
  room_inv n cur'.
Proof.
  intros Hn Hinv Hidx (_ & _ & Hge & ->)%offerUpdate_effect.
  rewrite (rinv_count n cur Hinv), jsGe_turn in Hge by done.
  apply bool_decide_eq_false in Hge.
  destruct Hinv. split; try done.
  intros i [= <-]. split; [done|]. unfold turnOf in *. cbn. lia.
Qed.

Lemma room_inv_reconcile n roomData snapshot cur :
  room_inv n cur → room_inv n (reconcile roomData snapshot cur).
Proof.
  intros Hinv. unfold reconcile.
  destruct roomData as [r|]; [|done]. destruct snapshot as [s|]; [|done].
  destruct (_ && _); [|done]. destruct Hinv. by split.
Qed.

Lemma room_inv_place n uid roomData now coin cur cur' :
  room_inv n cur →
  placeUpdate uid roomData now coin (Some cur) = Returned (Some cur') →
  room_inv n cur'.
Proof.
  intros Hinv H.
  pose proof (room_inv_NoDup n cur Hinv) as Hnd.
  apply placeUpdate_effect in H
    as (idx & Hoff & _ & Hin & Hs & Hb & Hrem & Ht & Hoff' & Hph & Hmv & Hcc & Hraw).
  assert (Hturn : turnOf cur' = turnOf cur + 1).
  { unfold turnOf at 1. rewrite Ht. apply orElse_zero. }
  pose proof (take_out_coin _ _ Hnd Hin) as Hperm.
  destruct (rinv_offer n cur Hinv idx Hoff) as [Hidx Hlt].
  split.
  - unfold coinCountOf. rewrite Hcc. apply (rinv_count n cur Hinv).
  - destruct (rinv_sums_raw n cur Hinv) as (a & b & c & Hr).
    rewrite Hraw, Hr. cbn [default from_option id].
    destruct idx as [|[|[|]]]; [| | |lia]; by eexists _, _, _.
  - intros i Hi. rewrite Hs, Hb. destruct (decide (i = idx)) as [->|].
    + rewrite sumList_app, (rinv_sums n cur Hinv) by done. cbn. lia.
    + by apply (rinv_sums n cur Hinv).
  - assert (Hb' : ∀ j, basketAt cur' j =
                    if decide (j = idx) then basketAt cur j ++ [coin]
                    else basketAt cur j).
    { intros j. rewrite Hb. by destruct (decide (j = idx)) as [->|]. }
    rewrite !Hb', Hrem.
    rewrite (snoc_into_one_of_three _ _ _ _ coin idx Hidx).
    rewrite <- (rinv_coins n cur Hinv).
    rewrite Hperm at 2.
    rewrite !Permutation_middle. done.
  - rewrite Hturn, Hrem. pose proof (rinv_turn n cur Hinv) as Hlen.
    apply Permutation_length in Hperm. cbn [length] in Hperm. lia.
  - by rewrite Hoff'.
  - rewrite Hph. by destruct (bool_decide _).
  - rewrite Hph, Hturn. pose proof (rinv_count n cur Hinv).
    destruct (bool_decide (coinCountOf cur ≤ turnOf cur + 1)) eqn:Hd; [|done].
    apply bool_decide_eq_true in Hd. intros _. lia.
  - intros i Hi. rewrite Hb, Hmv, filter_app, fmap_app.
    rewrite <- (rinv_log n cur Hinv i Hi).
    destruct (decide (i = idx)) as [->|Hne].
    + by rewrite filter_cons_True by done.
    + rewrite filter_cons_False by (cbn; congruence). cbn. by rewrite app_nil_r.
  - rewrite Hmv, length_app, Hturn. cbn [length].
    pose proof (rinv_log_length n cur Hinv). lia.
  - rewrite Ht. by eexists.
Qed.

Lemma room_reachable_inv n cur : 1 ≤ n → room_reachable n cur → room_inv n cur.
Proof.
  intros Hn. induction 1.
  - by apply room_inv_initial.
  - by eapply room_inv_offer.
  - by eapply room_inv_place.
  - by apply room_inv_reconcile.
Qed.

Lemma jsGet_fmap_Some {A} (l : list A) i : jsGet (Some <$> l) i = l !! i.
Proof. unfold jsGet. rewrite list_lookup_fmap. by destruct (l !! i). Qed.

(** X13: The invariant of a room's game, for every coin count the lobby
    offers and in every state that offers, placements, resets and the
    interval's phase write can produce.  Each coin 1..n is in exactly one
    place, a basket or [remaining]; each sum shown is the sum of its
    basket; the turn counter counts the coins placed and the entries of
    the move log; the log replays each basket, coin by coin; a pending
    offer names one of the three baskets and leaves a coin to place; and
    in phase [finished] every coin is placed and no offer is pending. *)
Theorem room_state_invariant n cur :
  1 ≤ n → room_reachable n cur →
  coinCountOf cur = n ∧
  basketAt cur 0 ++ basketAt cur 1 ++ basketAt cur 2 ++ remainingOf cur
    ≡ₚ seqZ 1 n ∧
  (∀ i, (i < 3)%nat → sumAt cur i = sumList (basketAt cur i)) ∧
  turnOf cur + Z.of_nat (length (remainingOf cur)) = n ∧
  Z.of_nat (length (movesOf cur)) = turnOf cur ∧
  (∀ i, (i < 3)%nat →
     basketAt cur i = mvCoin <$> filter (λ m, mvIdx m = i) (movesOf cur)) ∧
  (∀ idx, rCurrentOffered cur = Some idx →
     (idx < 3)%nat ∧ remainingOf cur ≠ []) ∧
  (rPhase cur = finished →
     remainingOf cur = [] ∧ rCurrentOffered cur = None).
Proof.
  intros Hn Hinv%room_reachable_inv; [|done].
  pose proof (rinv_turn n cur Hinv) as Hturn.
  assert (Hlen : 0 ≤ turnOf cur).
  { pose proof (rinv_log_length n cur Hinv). lia. }
  split; [apply Hinv|]. split; [apply Hinv|]. split; [apply Hinv|].
  split; [done|]. split; [apply Hinv|]. split; [apply Hinv|]. split.
  - intros idx Hoff. destruct (rinv_offer n cur Hinv idx Hoff) as [Hidx Hlt].
    split; [done|]. intros Hnil. rewrite Hnil in Hturn. cbn in Hturn. lia.
  - intros Hfin%(rinv_finished n cur Hinv). split.
    + apply length_zero_iff_nil. lia.
    + destruct (rCurrentOffered cur) as [idx|] eqn:Hoff; [|done].
      destruct (rinv_offer n cur Hinv idx Hoff). lia.
Qed.

Lemma room_state_invariant_witness :
  coinCountOf (initialState 6) = 6 ∧
  basketAt (initialState 6) 0 ++ basketAt (initialState 6) 1
    ++ basketAt (initialState 6) 2 ++ remainingOf (initialState 6)
    ≡ₚ seqZ 1 6 ∧
  (∀ i, (i < 3)%nat →
     sumAt (initialState 6) i = sumList (basketAt (initialState 6) i)) ∧
  turnOf (initialState 6)
    + Z.of_nat (length (remainingOf (initialState 6))) = 6 ∧
  Z.of_nat (length (movesOf (initialState 6))) = turnOf (initialState 6) ∧
  (∀ i, (i < 3)%nat →
     basketAt (initialState 6) i =
       mvCoin <$> filter (λ m, mvIdx m = i) (movesOf (initialState 6))) ∧
  (∀ idx, rCurrentOffered (initialState 6) = Some idx →
     (idx < 3)%nat ∧ remainingOf (initialState 6) ≠ []) ∧
  (rPhase (initialState 6) = finished →
     remainingOf (initialState 6) = [] ∧
     rCurrentOffered (initialState 6) = None).
Proof.
  apply (room_state_invariant 6 (initialState 6)).
  - lia.
  - apply room_init.
Defined.

Lemma roomVerdict_sums n cur :
  room_inv n cur →
  roomVerdict cur = endGameVerdict [sumAt cur 0; sumAt cur 1; sumAt cur 2].
Proof.
  intros Hinv.
  destruct (rinv_sums_raw n cur Hinv) as (a & b & c & Hr).
  unfold roomVerdict, endGameVerdict, sumAt. rewrite Hr.
  cbn [default from_option id omap list_omap length replicate Nat.sub].
  rewrite app_nil_r, !jsGet_fmap_Some.
  unfold jsGet. cbn [lookup list_lookup mjoin option_join].
  by rewrite !orElse_zero.
Qed.

(** X14: The verdict a finished room shows is the verdict of the
    single-page game on the sums of the three baskets: the placer wins
    exactly when one basket's sum is strictly above the other two.  It
    holds in every state of the room, whatever the coin count. *)
Theorem room_verdict_is_endGame_verdict n cur :
  1 ≤ n → room_reachable n cur →
  roomVerdict cur =
    endGameVerdict [sumList (basketAt cur 0); sumList (basketAt cur 1);
                    sumList (basketAt cur 2)].
Proof.
  intros Hn Hinv%room_reachable_inv; [|done].
  rewrite <- !(rinv_sums n cur Hinv) by lia.
  by eapply roomVerdict_sums.
Qed.

Lemma room_verdict_is_endGame_verdict_witness :
  roomVerdict (initialState 4) =
    endGameVerdict [sumList (basketAt (initialState 4) 0);
                    sumList (basketAt (initialState 4) 1);
                    sumList (basketAt (initialState 4) 2)].
Proof.
  apply (room_verdict_is_endGame_verdict 4 (initialState 4)).
  - lia.
  - apply room_init.
Defined.

(** ** The room: buttons, representation, roles *)

Lemma localRole_presenter uid r :
  localRoleOf uid r = Some asPresenter ↔
  presenterRef (Some r) = refOfUid uid.
Proof.
  unfold localRoleOf, presenterRef, slotRef.
  case_bool_decide as Hp; [done|].
  split; [|done]. by case_bool_decide.
Qed.

Lemma localRole_placer uid r :
  localRoleOf uid r = Some asPlacer ↔
  presenterRef (Some r) ≠ refOfUid uid ∧ placerRef (Some r) = refOfUid uid.
Proof.
  unfold localRoleOf, presenterRef, placerRef, slotRef.
  case_bool_decide as Hp.
  - split; [done|]. by intros [? _].
  - case_bool_decide as Hq; [done|]. split; [done|]. by intros [_ ?].
Qed.

Lemma offerEnabled_accepted uid r st idx :
  offerEnabled (localRoleOf uid r) st = true →
  ∃ cur', offerUpdate uid (Some r) idx (Some st) = Returned (Some cur').
Proof.
  unfold offerEnabled. intros Hen.
  assert (Hall : bool_decide (localRoleOf uid r = Some asPresenter)
                 && bool_decide (rCurrentOffered st = None)
                 && jsLt (rTurn st) (orElse (rCoinCount st) 4) = true)
    by by destruct (rPhase st).
  apply andb_true_iff in Hall as [Hall Hlt].
  apply andb_true_iff in Hall as [Hrole Hoff].
  apply bool_decide_eq_true in Hrole, Hoff.
  apply localRole_presenter in Hrole.
  unfold offerUpdate. rewrite bool_decide_eq_false_2 by (by intros ?).
  rewrite Hoff.
  assert (Hge : jsGe (rTurn st) (orElse (rCoinCount st) 4) = false).
  { unfold jsLt, jsGe in *. destruct (rTurn st); [|done].
    apply bool_decide_eq_true in Hlt. apply bool_decide_eq_false_2. lia. }
  rewrite Hge. by eexists.
Qed.

Lemma coinEnabled_accepted uid r st val now :
  coinEnabled (localRoleOf uid r) val st = true →
  ∃ cur', placeUpdate uid (Some r) now val (Some st) = Returned (Some cur').
Proof.
  unfold coinEnabled. intros Hen.
  assert (Hall : bool_decide (localRoleOf uid r = Some asPlacer)
                 && bool_decide (rCurrentOffered st ≠ None)
                 && match rRemaining st with
                    | Some rem => bool_decide (val ∈ rem)
                    | None => false
                    end = true)
    by by destruct (rPhase st).
  apply andb_true_iff in Hall as [Hall Hin].
  apply andb_true_iff in Hall as [Hrole Hoff].
  apply bool_decide_eq_true in Hrole, Hoff.
  apply localRole_placer in Hrole as [_ Hrole].
  unfold placeUpdate.
  destruct (rCurrentOffered st) as [idx|]; [|done].
  rewrite bool_decide_eq_false_2 by (by intros ?).
  destruct (rRemaining st) as [rem|]; [|done].
  rewrite Hin. by eexists.
Qed.

(** X15: The room's buttons against its transactions, when the store
    holds the state that was rendered.  A click on an enabled offer or
    coin button is always accepted.  In a state of the game past the
    waiting phase the flags are exact: an offer button is enabled exactly
    when the offer would be accepted, and, for a user who is not also the
    presenter, a coin button is enabled exactly when the placement would
    be accepted. *)
Theorem room_buttons_match_transactions n uid r st idx val now :
  1 ≤ n → room_reachable n st →
  (offerEnabled (localRoleOf uid r) st = true →
     ∃ cur', offerUpdate uid (Some r) idx (Some st) = Returned (Some cur')) ∧
  (coinEnabled (localRoleOf uid r) val st = true →
     ∃ cur', placeUpdate uid (Some r) now val (Some st) = Returned (Some cur')) ∧
  (rPhase st ≠ waiting →
     (∃ cur', offerUpdate uid (Some r) idx (Some st) = Returned (Some cur')) →
     offerEnabled (localRoleOf uid r) st = true) ∧
  (rPhase st ≠ waiting → presenterRef (Some r) ≠ refOfUid uid →
     (∃ cur', placeUpdate uid (Some r) now val (Some st) = Returned (Some cur')) →
     coinEnabled (localRoleOf uid r) val st = true).
Proof.
  intros Hn Hinv%room_reachable_inv; [|done].
  split; [apply offerEnabled_accepted|].
  split; [apply coinEnabled_accepted|].
  split.
  - intros Hph [cur' (Hpr & Hoff & Hge & _)%offerUpdate_effect].
    rewrite (rinv_count n st Hinv), jsGe_turn in Hge by done.
    apply bool_decide_eq_false in Hge.
    assert (Hlt : jsLt (rTurn st) (orElse (rCoinCount st) 4) = true).
    { pose proof (rinv_count n st Hinv) as Hc. unfold coinCountOf in Hc.
      rewrite Hc. destruct (rinv_turn_raw n st Hinv) as [t Ht].
      unfold turnOf in Hge. rewrite Ht in *. rewrite orElse_zero in Hge.
      apply bool_decide_eq_true. lia. }
    unfold offerEnabled. rewrite Hlt, Hoff.
    rewrite (bool_decide_eq_true_2 _ (proj2 (localRole_presenter uid r) Hpr)).
    rewrite (bool_decide_eq_true_2 (None = None)) by done.
    destruct (rPhase st) eqn:Hp; try done.
    apply (rinv_finished n st Hinv) in Hp. lia.
  - intros Hph Hnp [cur' (i & Hoff & Hpl & Hin & _)%placeUpdate_effect].
    unfold coinEnabled.
    rewrite (bool_decide_eq_true_2 _ (proj2 (localRole_placer uid r) (conj Hnp Hpl))).
    rewrite Hoff, (bool_decide_eq_true_2 (Some i ≠ None)) by done.
    unfold remainingOf in Hin.
    destruct (rRemaining st) as [rem|]; [|by apply elem_of_nil in Hin].
    cbn in Hin. rewrite (bool_decide_eq_true_2 _ Hin).
    destruct (rPhase st) eqn:Hp; try done.
    apply (rinv_finished n st Hinv) in Hp.
    destruct (rinv_offer n st Hinv i Hoff). lia.
Qed.

Lemma room_buttons_match_transactions_witness :
  let r := Room (Some "ann") (Some "bob") in
  let st := reconcile (Some r) (Some (initialState 5)) (initialState 5) in
  offerEnabled (localRoleOf (Some "ann") r) st = true ∧
  ∃ cur', offerUpdate (Some "ann") (Some r) 2 (Some st) = Returned (Some cur').
Proof.
  cbn zeta.
  destruct (room_buttons_match_transactions 5 (Some "ann")
              (Room (Some "ann") (Some "bob"))
              (reconcile (Some (Room (Some "ann") (Some "bob")))
                 (Some (initialState 5)) (initialState 5))
              2 1 0) as (H1 & _).
  - lia.
  - apply room_reconcile, room_init.
  - split; [reflexivity|]. apply H1. reflexivity.
Defined.

Lemma placeUpdate_cases uid roomData now coin cur :
  (∃ cur', placeUpdate uid roomData now coin (Some cur) = Returned (Some cur')) ∨
  placeUpdate uid roomData now coin (Some cur) =
    Threw (match rCurrentOffered cur with
           | None => "No basket offered"
           | Some _ =>
               if bool_decide (placerRef roomData ≠ refOfUid uid)
               then "Not the placer" else "Coin not available"
           end).
Proof.
  unfold placeUpdate. destruct (rCurrentOffered cur); [|by right].
  case_bool_decide; [by right|].
  destruct (rRemaining cur); [|by right].
  case_bool_decide; [left; by eexists|by right].
Qed.

Lemma offerUpdate_cases uid roomData idx cur :
  (∃ cur', offerUpdate uid roomData idx (Some cur) = Returned (Some cur')) ∨
  offerUpdate uid roomData idx (Some cur) =
    Threw (if bool_decide (presenterRef roomData ≠ refOfUid uid)
           then "Not presenter"
           else match rCurrentOffered cur with
                | Some _ => "Already offered"
                | None => "Game finished"
                end).
Proof.
  unfold offerUpdate. case_bool_decide; [by right|].
  destruct (rCurrentOffered cur); [by right|].
  destruct (jsGe _ _); [by right|left; by eexists].
Qed.

Lemma same_view_place uid roomData now coin a b :
  same_view a b →
  same_outcome (placeUpdate uid roomData now coin (Some a))
               (placeUpdate uid roomData now coin (Some b)).
Proof.
  intros (Hb & Hs & Hrem & Ht & Hoff & Hph & Hmv & Hcc).
  assert (Hturn : turnOf a = turnOf b) by (unfold turnOf; by rewrite Ht).
  destruct (placeUpdate_cases uid roomData now coin a) as [[a' Ha]|Ha];
    destruct (placeUpdate_cases uid roomData now coin b) as [[b' Hb']|Hb'].
  - rewrite Ha, Hb'. cbn.
    apply placeUpdate_effect in Ha
      as (i & Hoa & _ & _ & Hsa & Hba & Hra & Hta & Hoa' & Hpa & Hma & Hca & _).
    apply placeUpdate_effect in Hb'
      as (i' & Hob & _ & _ & Hsb & Hbb & Hrb & Htb & Hob' & Hpb & Hmb & Hcb & _).
    assert (i' = i) as -> by congruence.
    repeat split.
    + intros j. by rewrite Hba, Hbb, !Hb.
    + intros j. by rewrite Hsa, Hsb, !Hs.
    + by rewrite Hra, Hrb, Hrem.
    + by rewrite Hta, Htb, Hturn.
    + by rewrite Hoa', Hob'.
    + by rewrite Hpa, Hpb, Hturn, Hcc.
    + by rewrite Hma, Hmb, Hmv, Ht.
    + unfold coinCountOf in *. by rewrite Hca, Hcb.
  - exfalso. assert (Hacc : ∃ b', placeUpdate uid roomData now coin (Some b)
                                    = Returned (Some b')).
    { apply place_accepted_iff. rewrite <- Hoff, <- Hrem.
      apply (proj1 (place_accepted_iff uid roomData now coin a)). by eexists. }
    destruct Hacc as [b' Hacc]. congruence.
  - exfalso. assert (Hacc : ∃ a', placeUpdate uid roomData now coin (Some a)
                                    = Returned (Some a')).
    { apply place_accepted_iff. rewrite Hoff, Hrem.
      apply (proj1 (place_accepted_iff uid roomData now coin b)). by eexists. }
    destruct Hacc as [a' Hacc]. congruence.
  - rewrite Ha, Hb'. cbn. by rewrite Hoff.
Qed.

Lemma same_view_offer uid roomData idx a b :
  same_view a b →
  same_outcome (offerUpdate uid roomData idx (Some a))
               (offerUpdate uid roomData idx (Some b)).
Proof.
  intros (Hb & Hs & Hrem & Ht & Hoff & Hph & Hmv & Hcc).
  destruct (offerUpdate_cases uid roomData idx a) as [[a' Ha]|Ha];
    destruct (offerUpdate_cases uid roomData idx b) as [[b' Hb']|Hb'].
  - rewrite Ha, Hb'. cbn.
    apply offerUpdate_effect in Ha as (_ & _ & _ & ->).
    apply offerUpdate_effect in Hb' as (_ & _ & _ & ->).
    by repeat split.
  - exfalso. assert (Hacc : ∃ b', offerUpdate uid roomData idx (Some b)
                                    = Returned (Some b')).
    { apply offer_accepted_iff. rewrite <- Hoff, <- Ht, <- Hcc.
      apply (proj1 (offer_accepted_iff uid roomData idx a)). by eexists. }
    destruct Hacc as [b' Hacc]. congruence.
  - exfalso. assert (Hacc : ∃ a', offerUpdate uid roomData idx (Some a)
                                    = Returned (Some a')).
    { apply offer_accepted_iff. rewrite Hoff, Ht, Hcc.
      apply (proj1 (offer_accepted_iff uid roomData idx b)). by eexists. }
    destruct Hacc as [a' Hacc]. congruence.
  - rewrite Ha, Hb'. cbn. by rewrite Hoff.
Qed.

(** X16: The transactions do not depend on how the store represents
    empty values.  Two state records that read the same through the
    guards (an absent [baskets], [sums], [remaining], [moves] or
    [coinCount] reads as its default) are treated alike by both
    callbacks: both are rejected with the same message, or both are
    accepted and the two results again read the same. *)
Theorem transactions_read_through_guards uid roomData now coin idx a b :
  same_view a b →
  same_outcome (placeUpdate uid roomData now coin (Some a))
               (placeUpdate uid roomData now coin (Some b)) ∧
  same_outcome (offerUpdate uid roomData idx (Some a))
               (offerUpdate uid roomData idx (Some b)).
Proof.
  intros Hv. split; [by apply same_view_place|by apply same_view_offer].
Qed.

Lemma transactions_read_through_guards_witness :
  let a := RoomState None (Some [Some 0; Some 0; Some 0]) (Some [1; 2; 3; 4])
             (Some 0) (Some 1%nat) placing None (Some 4) in
  let b := RoomState (Some [Some []; Some []; Some []]) None (Some [1; 2; 3; 4])
             (Some 0) (Some 1%nat) placing (Some []) None in
  same_outcome (placeUpdate (Some "bob") (Some (Room None (Some "bob"))) 7 3 (Some a))
               (placeUpdate (Some "bob") (Some (Room None (Some "bob"))) 7 3 (Some b)) ∧
  same_outcome (offerUpdate (Some "bob") (Some (Room None (Some "bob"))) 0 (Some a))
               (offerUpdate (Some "bob") (Some (Room None (Some "bob"))) 0 (Some b)).
Proof.
  cbn zeta. apply transactions_read_through_guards.
  repeat split; intros [|[|[|i]]]; reflexivity.
Defined.





(** ** The move list of the page *)

Lemma game_inv_turn_nonneg g : game_inv g → 0 ≤ gTurn g.
Proof.
  intros Hinv. pose proof (inv_coins g Hinv) as Hp.
  apply Permutation_length in Hp. rewrite length_app in Hp. cbn in Hp.
  rewrite (inv_turn g Hinv). lia.
Qed.

Lemma log_inv_doPlace v idx g :
  game_inv g → log_inv g → log_inv (doPlace v idx g).
Proof.
  intros Hinv [Hturns Hlog]. unfold doPlace.
  destruct (awaitingOffer g); [done|]. destruct v as [c|]; [|done].
  case_bool_decide as Hin; [|done].
  destruct (baskets g !! idx) as [b|] eqn:Hb; [|done].
  assert (Hgoal : ∀ g',
    movesList g' = movesList g ++ [MoveLine (gTurn g + 1) (idx + 1) c] →
    baskets g' = alter (λ b, b ++ [c]) idx (baskets g) →
    gTurn g' = gTurn g + 1 → log_inv g').
  { intros g' Hm Hbs Ht. split.
    - rewrite Hm, Ht, fmap_app, Hturns.
      rewrite seqZ_app by (pose proof (game_inv_turn_nonneg g Hinv); lia).
      f_equal. cbn [fmap list_fmap lineTurn].
      change (seqZ (1 + gTurn g) 1) with [0 + (1 + gTurn g)].
      f_equal. lia.
    - intros i Hi. rewrite Hm, Hbs, filter_app, fmap_app.
      destruct (decide (i = idx)) as [->|Hne].
      + rewrite list_lookup_alter_eq, (Hlog idx Hi).
        by rewrite filter_cons_True by done.
      + rewrite list_lookup_alter_ne by done. rewrite (Hlog i Hi).
        rewrite filter_cons_False by (cbn; lia). by rewrite app_nil_r. }
  cbn [gTurn]. destruct (bool_decide _); by apply Hgoal.
Qed.

Lemma log_inv_handle e g : game_inv g → log_inv g → log_inv (handle e g).
Proof.
  intros Hinv Hlog. destruct e as [aiMode idx|val| |]; cbn [handle].
  - unfold offerBasket. destruct (negb (awaitingOffer g)); [done|].
    destruct aiMode; [|done]. by destruct (aiChooseCoinForOffer _ _ _).
  - destruct (currentOffered g); [by apply log_inv_doPlace|done].
  - destruct (timers g) as [|[best idx] ts] eqn:Htim; [done|].
    apply log_inv_doPlace; [by apply game_inv_popTimer|done].
  - split; [done|]. intros i Hi. by destruct i as [|[|[|]]]; [| | |lia].
Qed.

(** X19: The move list of the page is an exact log of the round, in
    every state clicks and timers can produce: it has one line per coin
    placed, numbered 1, 2, ... in order, and the coins it lists for a
    basket are, in the same order, the contents of that basket. *)
Theorem move_list_replays_the_baskets g :
  reachable g →
  lineTurn <$> movesList g = seqZ 1 (gTurn g) ∧
  ∀ i, (i < 3)%nat →
    baskets g !! i =
      Some (lineCoin <$> filter (λ m, lineBasket m = (i + 1)%nat) (movesList g)).
Proof.
  intros Hr. change (log_inv g). induction Hr as [|e g Hr IH Hok].
  - split; [done|]. intros i Hi. by destruct i as [|[|[|]]]; [| | |lia].
  - apply log_inv_handle; [by apply reachable_inv|done].
Qed.

Lemma move_list_replays_the_baskets_witness :
  let g := run [ClickOffer false 1; ClickCoin 3] in
  lineTurn <$> movesList g = seqZ 1 (gTurn g) ∧
  ∀ i, (i < 3)%nat →
    baskets g !! i =
      Some (lineCoin <$> filter (λ m, lineBasket m = (i + 1)%nat) (movesList g)).
Proof.
  cbn zeta.
  apply (move_list_replays_the_baskets (run [ClickOffer false 1; ClickCoin 3])).
  apply run_reachable. repeat constructor.
Defined.

(** ** The page in human mode *)

Lemma doPlace_timers v idx g : timers (doPlace v idx g) = timers g.
Proof.
  unfold doPlace. destruct (awaitingOffer g); [done|].
  destruct v as [c|]; [|done]. case_bool_decide; [|done].
  destruct (baskets g !! idx); [|done]. by destruct (bool_decide _).
Qed.

Lemma humanEvent_ok e : humanEvent e → event_ok e.
Proof. destruct e; cbn; tauto. Qed.

Lemma human_no_timer e g :
  humanEvent e → timers g = [] → timers (handle e g) = [].
Proof.
  intros He Htim. destruct e as [aiMode idx|val| |]; cbn [handle].
  - destruct He as [-> _]. unfold offerBasket.
    by destruct (negb (awaitingOffer g)).
  - destruct (currentOffered g); [|done]. by rewrite doPlace_timers.
  - by rewrite Htim.
  - done.
Qed.

Lemma human_run es :
  Forall humanEvent es → reachable (run es) ∧ timers (run es) = [].
Proof.
  induction es as [|e es IH] using rev_ind; intros Hall.
  - split; [apply reach_init|done].
  - rewrite Forall_app, Forall_singleton in Hall. destruct Hall as [Hes He].
    destruct (IH Hes) as [Hr Htim]. unfold run in *. rewrite foldl_app.
    cbn [foldl]. split.
    + apply reach_step; [done|by apply humanEvent_ok].
    + by apply human_no_timer.
Qed.

(** X20: On a page that stays in human mode no timer is ever pending,
    so nothing but a click on a coin button places a coin; and such a
    click either changes nothing or puts the coin into the basket that
    is on offer, adding its value to that basket's sum. *)
Theorem human_mode_places_into_offered_basket es val :
  Forall humanEvent es →
  let g := run es in
  let g' := handle (ClickCoin val) g in
  timers g = [] ∧ handle TimerFires g = g ∧
  (g' = g ∨
   ∃ idx, currentOffered g = Some idx ∧ (idx < 3)%nat ∧
     baskets g' = alter (λ b, b ++ [val]) idx (baskets g) ∧
     gSums g' = alter (λ s, s + val) idx (gSums g) ∧
     val ∉ remainingCoins g').
Proof.
  intros [Hr Htim]%human_run. cbn zeta.
  apply reachable_inv in Hr as Hinv.
  split; [done|]. split; [cbn; by rewrite Htim|].
  cbn [handle]. destruct (currentOffered (run es)) as [idx|] eqn:Hoff; [|by left].
  destruct (awaitingOffer (run es)) eqn:Haw.
  { left. apply doPlace_rejected. by left. }
  destruct (decide (val ∈ remainingCoins (run es))) as [Hin|Hout].
  2:{ left. apply doPlace_rejected. by right. }
  right. exists idx. destruct (inv_offer _ Hinv idx Hoff) as [Hidx _].
  destruct (doPlace_accepted val idx (run es) Hinv Hidx Haw Hin)
    as (Hb & Hs & Hrem & _).
  repeat split; try done.
  rewrite Hrem. intros [Hne _]%list_elem_of_filter. by apply Hne.
Qed.

Lemma human_mode_places_into_offered_basket_witness :
  let g := run [ClickOffer false 2] in
  let g' := handle (ClickCoin 4) g in
  timers g = [] ∧ handle TimerFires g = g ∧
  (g' = g ∨
   ∃ idx, currentOffered g = Some idx ∧ (idx < 3)%nat ∧
     baskets g' = alter (λ b, b ++ [4]) idx (baskets g) ∧
     gSums g' = alter (λ s, s + 4) idx (gSums g) ∧
     4 ∉ remainingCoins g').
Proof.
  apply (human_mode_places_into_offered_basket [ClickOffer false 2] 4).
  repeat constructor.
Defined.

(** ** The room: somebody can always move *)

Lemma reconcile_leaves_waiting r st :
  truthyId (presenter r) = true → truthyId (placer r) = true →
  rPhase (reconcile (Some r) (Some st) st) ≠ waiting ∧
  rCurrentOffered (reconcile (Some r) (Some st) st) = rCurrentOffered st ∧
  remainingOf (reconcile (Some r) (Some st) st) = remainingOf st.
Proof.
  intros Hp Hq. unfold reconcile. rewrite Hp, Hq. cbn [andb].
  case_bool_decide; by cbn.
Qed.

(** X21: A room with two players and coins left is never stuck.  Once
    the interval has moved the room out of the waiting phase, somebody
    has an enabled button: with no offer pending the presenter's offer
    buttons are enabled; with an offer pending the placer's coin buttons
    are enabled for exactly the remaining coins, of which there is at
    least one.  Every remaining coin has a button. *)
Theorem room_with_coins_is_never_stuck n st r up uq :
  1 ≤ n → room_reachable n st →
  presenter r = Some up → placer r = Some uq →
  up ≠ "" → uq ≠ "" → up ≠ uq →
  remainingOf st ≠ [] →
  let st' := reconcile (Some r) (Some st) st in
  rPhase st' ≠ waiting ∧
  (rCurrentOffered st' = None →
     offerEnabled (localRoleOf (Some up) r) st' = true) ∧
  (is_Some (rCurrentOffered st') →
     ∀ val, coinEnabled (localRoleOf (Some uq) r) val st' = true
            ↔ val ∈ remainingOf st') ∧
  (∀ val, val ∈ remainingOf st' → val ∈ coinButtonValues st').
Proof.
  intros Hn Hreach Hp Hq Hup Huq Hne Hrem. cbn zeta.
  destruct (reconcile_leaves_waiting r st) as (Hph & Hoff & Hr).
  { rewrite Hp. cbn. by rewrite bool_decide_eq_false_2. }
  { rewrite Hq. cbn. by rewrite bool_decide_eq_false_2. }
  assert (Hinv : room_inv n (reconcile (Some r) (Some st) st)).
  { apply room_reachable_inv; [done|]. by apply room_reconcile. }
  set (st' := reconcile (Some r) (Some st) st) in *.
  rewrite <- Hr in Hrem.
  pose proof (rinv_turn n st' Hinv) as Hturn.
  pose proof (rinv_count n st' Hinv) as Hcount.
  destruct (rinv_turn_raw n st' Hinv) as [t Ht].
  assert (Hlen : (0 < length (remainingOf st'))%nat).
  { destruct (remainingOf st'); [done|cbn; lia]. }
  assert (Hnf : rPhase st' ≠ finished).
  { intros Hf%(rinv_finished n st' Hinv). lia. }
  assert (Hrp : localRoleOf (Some up) r = Some asPresenter).
  { unfold localRoleOf. rewrite Hp. cbn. by rewrite bool_decide_eq_true_2. }
  assert (Hrq : localRoleOf (Some uq) r = Some asPlacer).
  { unfold localRoleOf. rewrite Hp, Hq. cbn.
    rewrite bool_decide_eq_false_2 by congruence.
    by rewrite bool_decide_eq_true_2. }
  split; [done|]. split; [|split].
  - intros Hnone. unfold offerEnabled. rewrite Hrp, Hnone, Ht.
    unfold coinCountOf in Hcount. rewrite Hcount. cbn [jsLt].
    unfold turnOf in Hturn. rewrite Ht, orElse_zero in Hturn.
    rewrite !bool_decide_eq_true_2 by (done || lia).
    by destruct (rPhase st').
  - intros [idx Hsome] val. unfold coinEnabled. rewrite Hrq, Hsome.
    rewrite !bool_decide_eq_true_2 by done. cbn [andb].
    unfold remainingOf in *.
    destruct (rRemaining st') as [rem|]; [|done]. cbn [default from_option id] in *.
    destruct (rPhase st'); try done; apply bool_decide_eq_true.
  - intros val Hin. unfold coinButtonValues.
    unfold coinCountOf in Hcount. rewrite Hcount.
    rewrite <- (rinv_coins n st' Hinv), !elem_of_app. auto.
Qed.

Lemma room_with_coins_is_never_stuck_witness :
  let r := Room (Some "ann") (Some "bob") in
  let st' := reconcile (Some r) (Some (initialState 4)) (initialState 4) in
  rPhase st' ≠ waiting ∧
  (rCurrentOffered st' = None →
     offerEnabled (localRoleOf (Some "ann") r) st' = true) ∧
  (is_Some (rCurrentOffered st') →
     ∀ val, coinEnabled (localRoleOf (Some "bob") r) val st' = true
            ↔ val ∈ remainingOf st') ∧
  (∀ val, val ∈ remainingOf st' → val ∈ coinButtonValues st').
Proof.
  apply (room_with_coins_is_never_stuck 4 (initialState 4)
           (Room (Some "ann") (Some "bob")) "ann" "bob").
  - lia.
  - apply room_init.
  - reflexivity.
  - reflexivity.
  - discriminate.
  - discriminate.
  - discriminate.
  - discriminate.
Defined.
(** ** The page: a round can always go on *)

(** X22: The single page is never stuck either.  In every state clicks
    and timers can produce, the banner is shown exactly when all four
    coins are placed; before that, either the offer buttons are enabled,
    or a basket is on offer and the coin buttons are enabled for exactly
    the remaining coins, of which there is at least one. *)
Theorem page_is_never_stuck g :
  reachable g →
  (is_Some (resultBanner g) ↔ gTurn g = 4) ∧
  (gTurn g < 4 →
     if awaitingOffer g then offerDisabled g = false
     else is_Some (currentOffered g) ∧ remainingCoins g ≠ [] ∧
          ∀ val, coinDisabled val g = false ↔ val ∈ remainingCoins g).
Proof.
  intros Hinv%reachable_inv. split.
  - rewrite (inv_banner g Hinv). by case_bool_decide.
  - intros Hlt. pose proof (inv_phase g Hinv) as Hph.
    unfold offerDisabled, coinDisabled.
    destruct (awaitingOffer g); [done|].
    symmetry in Hph. apply bool_decide_eq_false in Hph.
    destruct (currentOffered g) as [idx|] eqn:Hoff; [|by destruct Hph].
    split; [by eexists|]. split.
    + pose proof (inv_turn g Hinv) as Hturn. intros Hnil.
      rewrite Hnil in Hturn. cbn in Hturn. lia.
    + intros val. rewrite (bool_decide_eq_false_2 (Some idx = None)) by done.
      rewrite orb_false_r. cbn [orb]. rewrite negb_false_iff.
      apply bool_decide_eq_true.
Qed.

Lemma page_is_never_stuck_witness :
  (is_Some (resultBanner initialGame) ↔ gTurn initialGame = 4) ∧
  (gTurn initialGame < 4 →
     if awaitingOffer initialGame then offerDisabled initialGame = false
     else is_Some (currentOffered initialGame) ∧
          remainingCoins initialGame ≠ [] ∧
          ∀ val, coinDisabled val initialGame = false
                 ↔ val ∈ remainingCoins initialGame).
Proof.
  apply (page_is_never_stuck initialGame). apply reach_init.
Defined.

(** ** A round against the AI, from any state *)

(** X23: In AI mode every offer is answered.  From any state clicks and
    timers can produce in which the presenter is to move and no timer is
    pending, an offer of basket [idx] followed by its timer places one
    remaining coin into basket [idx]: the coin [aiChooseCoinForOffer]
    names, which is the one it would name with an empty cache.  The turn
    advances by one and no timer is left. *)
Theorem ai_round_places_into_offered_basket g idx :
  reachable g → awaitingOffer g = true → timers g = [] → (idx < 3)%nat →
  ∃ c, chooseCoin (solverState g) idx = Num c ∧ c ∈ remainingCoins g ∧
    baskets (aiRound idx g) = alter (λ b, b ++ [c]) idx (baskets g) ∧
    gSums (aiRound idx g) = alter (λ s, s + c) idx (gSums g) ∧
    remainingCoins (aiRound idx g) = filter (λ x, x ≠ c) (remainingCoins g) ∧
    gTurn (aiRound idx g) = gTurn g + 1 ∧
    currentOffered (aiRound idx g) = None ∧
    timers (aiRound idx g) = [].
Proof.
  intros Hinv%reachable_inv Haw Htim Hidx.
  destruct (awaiting_has_coin g Hinv Haw) as [_ Hne].
  pose proof (chooseLoop_legal (solverState g) idx (remainingCoins g) (memo g))
    as Hlegal.
  pose proof (aiChoose_search (solverState g) idx (memo g)
                (game_inv_key_ok g Hinv)
                (cache_reachable_sound _ (inv_memo g Hinv))) as Hai.
  pose proof (aiChoose_search (solverState g) idx ∅
                (game_inv_key_ok g Hinv) memo_sound_empty) as Hai0.
  fold (chooseCoin (solverState g) idx) in Hai0.
  change (chooseLoop (solverState g) idx (remainingCoins g) (memo g))
    with (aiChooseCoinForOffer (solverState g) idx (memo g)) in Hlegal.
  destruct ((aiChooseCoinForOffer (solverState g) idx (memo g)).1)
    as [c|] eqn:Hbest.
  2:{ exfalso. by apply Hne, Hlegal. }
  assert (Hc : c ∈ remainingCoins g) by by apply Hlegal.
  exists c. split; [by rewrite Hai0, <- Hai|]. split; [done|].
  destruct (aiRound_effect idx g c Hinv Haw Htim Hidx Hbest Hc)
    as (_ & ? & ? & ? & ? & ? & _ & _ & ?).
  done.
Qed.

Lemma ai_round_places_into_offered_basket_witness :
  ∃ c, chooseCoin (solverState initialGame) 1 = Num c ∧
    c ∈ remainingCoins initialGame ∧
    baskets (aiRound 1 initialGame)
      = alter (λ b, b ++ [c]) 1%nat (baskets initialGame) ∧
    gSums (aiRound 1 initialGame)
      = alter (λ s, s + c) 1%nat (gSums initialGame) ∧
    remainingCoins (aiRound 1 initialGame)
      = filter (λ x, x ≠ c) (remainingCoins initialGame) ∧
    gTurn (aiRound 1 initialGame) = gTurn initialGame + 1 ∧
    currentOffered (aiRound 1 initialGame) = None ∧
    timers (aiRound 1 initialGame) = [].
Proof.
  apply (ai_round_places_into_offered_basket initialGame 1).
  - apply reach_init.
  - reflexivity.
  - reflexivity.
  - lia.
Defined.

(** ** The room plays the game of the page *)

Lemma alter_three {A} (f : A → A) idx (a b c : A) :
  (idx < 3)%nat →
  alter f idx [a; b; c] =
    [if decide (0%nat = idx) then f a else a;
     if decide (1%nat = idx) then f b else b;
     if decide (2%nat = idx) then f c else c].
Proof. intros Hidx. by destruct idx as [|[|[|]]]; [| | |lia]. Qed.

Lemma same_game_initial : same_game (initialState 4) initialGame.
Proof.
  split; [apply room_init|]. split; [apply reach_init|]. by split.
Qed.

Lemma same_game_offer uidP roomData idx cur g :
  presenterRef roomData = refOfUid uidP → (idx < 3)%nat →
  same_game cur g →
  ∃ cur', (runTransaction (offerUpdate uidP roomData idx) (Some cur)).2 = Some cur' ∧
          same_game cur' (handle (ClickOffer false idx) g).
Proof.
  intros Hpr Hidx (Hrr & Hrg & Hpos & Hfin).
  pose proof (room_reachable_inv 4 cur ltac:(lia) Hrr) as Hrinv.
  pose proof (reachable_inv g Hrg) as Hginv.
  injection Hpos as Hb Hs Hrem Ht Hoff.
  unfold runTransaction.
  destruct (offerUpdate uidP roomData idx (Some cur)) as [[cur'|]|m] eqn:Hup.
  - exists cur'. split; [done|].
    pose proof Hup as (_ & Hnone & Hge & ->)%offerUpdate_effect.
    rewrite (rinv_count 4 cur Hrinv), jsGe_turn in Hge by lia.
    apply bool_decide_eq_false in Hge.
    assert (Haw : awaitingOffer g = true).
    { rewrite (inv_phase g Hginv). apply bool_decide_eq_true.
      split; [congruence|lia]. }
    destruct (offerBasket_accepted false idx g Haw)
      as (Hb' & Hs' & Hrem' & Ht' & Hoff' & _).
    split; [by eapply room_offer|]. split.
    { apply reach_step; [done|by cbn]. }
    split.
    + unfold roomPosition, pagePosition. cbn [handle].
      rewrite Hb', Hs', Hrem', Ht', Hoff'. cbn.
      by rewrite <- Hb, <- Hs, <- Hrem, <- Ht.
    + intros H4. exfalso. apply Hge. unfold turnOf in *. cbn in H4. lia.
  - exfalso. destruct (offerUpdate_cases uidP roomData idx cur) as [[c H]|H];
      congruence.
  - exists cur. split; [done|].
    assert (Haw : awaitingOffer g = false).
    { rewrite (inv_phase g Hginv). apply bool_decide_eq_false. intros [Hn Hlt].
      assert (∃ cur', offerUpdate uidP roomData idx (Some cur)
                        = Returned (Some cur')) as [c Hc]; [|congruence].
      apply offer_accepted_iff. split; [done|]. split; [congruence|].
      rewrite (rinv_count 4 cur Hrinv), jsGe_turn by lia.
      apply bool_decide_eq_false_2. lia. }
    cbn [handle]. rewrite (offerBasket_not_awaiting _ _ _ Haw).
    split; [done|]. split; [done|]. split; [|done].
    unfold roomPosition, pagePosition. by rewrite Hb, Hs, Hrem, Ht, Hoff.
Qed.

Lemma same_game_place uidQ roomData now coin cur g :
  placerRef roomData = refOfUid uidQ →
  same_game cur g →
  ∃ cur', (runTransaction (placeUpdate uidQ roomData now coin) (Some cur)).2
            = Some cur' ∧
          same_game cur' (handle (ClickCoin coin) g).
Proof.
  intros Hpl (Hrr & Hrg & Hpos & Hfin).
  pose proof (room_reachable_inv 4 cur ltac:(lia) Hrr) as Hrinv.
  pose proof (reachable_inv g Hrg) as Hginv.
  injection Hpos as Hb Hs Hrem Ht Hoff.
  unfold runTransaction.
  destruct (placeUpdate uidQ roomData now coin (Some cur)) as [[cur'|]|m] eqn:Hup.
  - exists cur'. split; [done|].
    pose proof Hup as (idx & Hsome & _ & Hin & Hs2 & Hb2 & Hrem2 & Ht2 & Hoff2
                         & Hph2 & _ & _ & _)%placeUpdate_effect.
    destruct (rinv_offer 4 cur Hrinv idx Hsome) as [Hidx Hlt].
    assert (Hturn : turnOf cur' = turnOf cur + 1).
    { unfold turnOf at 1. rewrite Ht2. apply orElse_zero. }
    assert (Haw : awaitingOffer g = false).
    { rewrite (inv_phase g Hginv). apply bool_decide_eq_false.
      intros [Hn _]. congruence. }
    assert (Hin' : coin ∈ remainingCoins g) by by rewrite <- Hrem.
    cbn [handle]. rewrite <- Hoff, Hsome.
    destruct (doPlace_accepted coin idx g Hginv Hidx Haw Hin')
      as (Hb' & Hs' & Hrem' & Ht' & Hoff' & _).
    split; [by eapply room_place|]. split.
    { replace (doPlace (Num coin) idx g) with (handle (ClickCoin coin) g)
        by (cbn [handle]; by rewrite <- Hoff, Hsome).
      by apply reach_step. }
    split.
    + unfold roomPosition, pagePosition.
      rewrite Hb', Hs', Hrem', Ht', Hoff', <- Hb, <- Hs, <- Hrem, <- Ht.
      rewrite !alter_three by done. rewrite !Hs2, !Hb2, Hrem2, Hturn, Hoff2.
      f_equal.
      * by destruct idx as [|[|[|]]].
      * by destruct idx as [|[|[|]]].
    + intros H4. rewrite Hph2, (rinv_count 4 cur Hrinv).
      rewrite bool_decide_eq_true_2 by lia. done.
  - exfalso. destruct (placeUpdate_cases uidQ roomData now coin cur) as [[c H]|H];
      congruence.
  - exists cur. split; [done|].
    assert (Hrej : handle (ClickCoin coin) g = g).
    { apply clickCoin_rejected.
      destruct (currentOffered g) as [idx|] eqn:Hcur; [|by left].
      right; right. intros Hin.
      assert (∃ cur', placeUpdate uidQ roomData now coin (Some cur)
                        = Returned (Some cur')) as [c Hc]; [|congruence].
      apply place_accepted_iff. split; [rewrite Hoff; by eexists|].
      split; [done|]. by rewrite Hrem. }
    rewrite Hrej. split; [done|]. split; [done|]. split; [|done].
    unfold roomPosition, pagePosition. by rewrite Hb, Hs, Hrem, Ht, Hoff.
Qed.

Lemma same_game_play uidP uidQ roomData ms cur g :
  presenterRef roomData = refOfUid uidP →
  placerRef roomData = refOfUid uidQ →
  Forall move_ok ms → same_game cur g →
  ∃ cur',
    foldl (λ s tm, roomMove uidP uidQ roomData tm.1 tm.2 s) (Some cur) ms
      = Some cur' ∧
    same_game cur' (foldl (λ g tm, pageMove tm.2 g) g ms).
Proof.
  intros Hpr Hpl. revert cur g.
  induction ms as [|[now m] ms IH]; intros cur g Hok Hsame.
  { by exists cur. }
  apply Forall_cons in Hok as [Hm Hok]. cbn [foldl fst snd].
  destruct m as [idx|coin]; cbn [roomMove pageMove].
  - destruct (same_game_offer uidP roomData idx cur g Hpr Hm Hsame)
      as (cur1 & -> & Hsame1).
    by apply IH.
  - destruct (same_game_place uidQ roomData now coin cur g Hpl Hsame)
      as (cur1 & -> & Hsame1).
    by apply IH.
Qed.

(** X24: The room with four coins plays the game of the single page.
    Let the room's presenter and placer make any sequence of offers and
    placements, accepted or not, and make the same clicks on a page in
    human mode: after every such sequence the room shows the position
    the page shows (baskets, sums, remaining coins, turn, basket on
    offer), the room is in phase [finished] exactly when the page shows
    its banner, and then both show the same verdict. *)
Theorem room_plays_the_page_game uidP uidQ roomData ms :
  presenterRef roomData = refOfUid uidP →
  placerRef roomData = refOfUid uidQ →
  Forall move_ok ms →
  ∃ cur,
    playRoom uidP uidQ roomData ms = Some cur ∧
    roomPosition cur = pagePosition (playPage ms) ∧
    (rPhase cur = finished ↔ is_Some (resultBanner (playPage ms))) ∧
    (rPhase cur = finished →
       resultBanner (playPage ms) = Some (roomVerdict cur)).
Proof.
  intros Hpr Hpl Hok.
  destruct (same_game_play uidP uidQ roomData ms (initialState 4) initialGame
              Hpr Hpl Hok same_game_initial)
    as (cur & Hrun & Hrr & Hrg & Hpos & Hfin).
  exists cur. split; [done|]. split; [done|].
  pose proof (room_reachable_inv 4 cur ltac:(lia) Hrr) as Hrinv.
  pose proof (reachable_inv _ Hrg) as Hginv.
  fold (playPage ms) in *.
  pose proof (inv_banner _ Hginv) as Hban.
  injection Hpos as Hb Hs Hrem Ht Hoff.
  pose proof (rinv_turn 4 cur Hrinv) as Hturn.
  assert (Hiff : rPhase cur = finished ↔ gTurn (playPage ms) = 4).
  { rewrite <- Ht. split; [|done].
    intros Hf%(rinv_finished 4 cur Hrinv). lia. }
  split.
  - rewrite Hiff, Hban. by case_bool_decide.
  - intros Hf%Hiff. rewrite Hban, bool_decide_eq_true_2 by done.
    by rewrite (roomVerdict_sums 4 cur Hrinv), Hs.
Qed.

Lemma room_plays_the_page_game_witness :
  ∃ cur,
    playRoom (Some "ann") (Some "bob") (Some (Room (Some "ann") (Some "bob")))
      [(10, Offer 0); (20, Place 4); (30, Place 1)] = Some cur ∧
    roomPosition cur
      = pagePosition (playPage [(10, Offer 0); (20, Place 4); (30, Place 1)]) ∧
    (rPhase cur = finished ↔
       is_Some (resultBanner
                  (playPage [(10, Offer 0); (20, Place 4); (30, Place 1)]))) ∧
    (rPhase cur = finished →
       resultBanner (playPage [(10, Offer 0); (20, Place 4); (30, Place 1)])
         = Some (roomVerdict cur)).
Proof.
  apply (room_plays_the_page_game (Some "ann") (Some "bob")
           (Some (Room (Some "ann") (Some "bob")))
           [(10, Offer 0); (20, Place 4); (30, Place 1)]).
  - reflexivity.
  - reflexivity.
  - repeat constructor.
Defined.
